(** * use-param-lustig: the query codec and the parameter pipeline

    A shallow embedding of [src/internals/query-string-converter.ts]
    (classes [QueryStringConverter] and [DataCompressor]) and of
    [src/internals/query-param-core.ts] (class [QueryParamCore]), with the
    platform functions they call ([encodeURIComponent],
    [decodeURIComponent], [String.prototype.split], the key regular
    expression, [Number], [URLSearchParams]) written out after ECMAScript
    and the URL standard; and of the function the hook [useQueryParams]
    hands to its state setter, with the calls it makes on the host. *)

From Stdlib Require Import Ascii String.
From Stdlib Require Import List NArith ZArith Bool Lia Zify DecimalPos DecimalN.
Import ListNotations.

Local Open Scope N_scope.
Local Open Scope list_scope.

(** ** Strings

    A JavaScript string is a sequence of UTF-16 code units. *)

Abbreviation jsstring := (list N).

Definition lit (s : string) : jsstring :=
  map (fun a => N_of_ascii a) (list_ascii_of_string s).

Definition str_eqb (a b : jsstring) : bool :=
  if list_eq_dec N.eq_dec a b then true else false.

(** ** Completions

    A call either returns a value or throws. [Beyond] marks the calls this
    development does not follow: those that reach an object shared by the
    whole realm (a built-in prototype or one of its methods), a write to
    the [length] of an array, and [compress] handed [undefined]. *)

Inductive exn := URIError | TypeError | RangeError | SyntaxError | OtherError.

Inductive completion (A : Type) :=
| Ok (a : A)
| Throw (e : exn)
| Beyond.
Arguments Ok {A} a.
Arguments Throw {A} e.
Arguments Beyond {A}.

Definition bind {A B} (c : completion A) (k : A -> completion B) : completion B :=
  match c with
  | Ok a => k a
  | Throw e => Throw e
  | Beyond => Beyond
  end.

Notation "x <- c ;; k" := (bind c (fun x => k))
  (at level 61, c at next level, right associativity).
Notation "' p <- c ;; k" := (bind c (fun x => match x with p => k end))
  (at level 61, p pattern, c at next level, right associativity).

Fixpoint mapM {A B} (f : A -> completion B) (l : list A) : completion (list B) :=
  match l with
  | [] => Ok []
  | a :: l' => b <- f a ;; bs <- mapM f l' ;; Ok (b :: bs)
  end.

(** ** UTF-8 and UTF-16 *)

Definition isLeadSurrogate (c : N) : bool := (0xD800 <=? c) && (c <=? 0xDBFF).
Definition isTrailSurrogate (c : N) : bool := (0xDC00 <=? c) && (c <=? 0xDFFF).

(** ECMAScript [UTF16EncodeCodePoint]. *)
Definition utf16Encode (cp : N) : jsstring :=
  if cp <? 0x10000 then [cp]
  else [0xD800 + (cp - 0x10000) / 0x400; 0xDC00 + (cp - 0x10000) mod 0x400].

(** The UTF-8 encoding of a code point. *)
Definition utf8Encode (cp : N) : list N :=
  if cp <? 0x80 then [cp]
  else if cp <? 0x800 then [0xC0 + cp / 0x40; 0x80 + cp mod 0x40]
  else if cp <? 0x10000 then
    [0xE0 + cp / 0x1000; 0x80 + (cp / 0x40) mod 0x40; 0x80 + cp mod 0x40]
  else
    [0xF0 + cp / 0x40000; 0x80 + (cp / 0x1000) mod 0x40;
     0x80 + (cp / 0x40) mod 0x40; 0x80 + cp mod 0x40].

Definition isCont (b : N) : bool := (0x80 <=? b) && (b <=? 0xBF).

(** The code point of a well-formed UTF-8 byte sequence (Unicode, table
    3-7): no overlong form, no surrogate, nothing above U+10FFFF. *)
Definition utf8Value (bs : list N) : option N :=
  match bs with
  | [b0; b1] =>
      if (0xC2 <=? b0) && (b0 <=? 0xDF) && isCont b1
      then Some ((b0 - 0xC0) * 0x40 + (b1 - 0x80)) else None
  | [b0; b1; b2] =>
      if (0xE0 <=? b0) && (b0 <=? 0xEF) && isCont b1 && isCont b2
         && negb ((b0 =? 0xE0) && (b1 <? 0xA0))
         && negb ((b0 =? 0xED) && (0xA0 <=? b1))
      then Some ((b0 - 0xE0) * 0x1000 + (b1 - 0x80) * 0x40 + (b2 - 0x80))
      else None
  | [b0; b1; b2; b3] =>
      if (0xF0 <=? b0) && (b0 <=? 0xF4) && isCont b1 && isCont b2 && isCont b3
         && negb ((b0 =? 0xF0) && (b1 <? 0x90))
         && negb ((b0 =? 0xF4) && (0x90 <=? b1))
      then Some ((b0 - 0xF0) * 0x40000 + (b1 - 0x80) * 0x1000
                 + (b2 - 0x80) * 0x40 + (b3 - 0x80))
      else None
  | _ => None
  end.

(** ** encodeURIComponent / decodeURIComponent *)

Definition hexDigit (d : N) : N := if d <? 10 then 48 + d else 55 + d.

Definition hexVal (c : N) : option N :=
  if (48 <=? c) && (c <=? 57) then Some (c - 48)
  else if (65 <=? c) && (c <=? 70) then Some (c - 55)
  else if (97 <=? c) && (c <=? 102) then Some (c - 87)
  else None.

Definition pct (b : N) : jsstring := [37; hexDigit (b / 16); hexDigit (b mod 16)].

Definition isAlnum (c : N) : bool :=
  ((48 <=? c) && (c <=? 57)) || ((65 <=? c) && (c <=? 90))
  || ((97 <=? c) && (c <=? 122)).

(** [uriUnescaped]: alphanumerics and the marks [-_.!~*'()]. *)
Definition uriUnreserved (c : N) : bool :=
  isAlnum c
  || existsb (N.eqb c) [45; 95; 46; 33; 126; 42; 39; 40; 41].

(** ECMAScript [Encode(string, uriUnescaped)]: a lone surrogate throws a
    URIError. *)
Fixpoint encodeURIComponent (s : jsstring) : completion jsstring :=
  match s with
  | [] => Ok []
  | c :: rest =>
      if uriUnreserved c then
        r <- encodeURIComponent rest ;; Ok (c :: r)
      else if isTrailSurrogate c then Throw URIError
      else if isLeadSurrogate c then
        match rest with
        | d :: rest' =>
            if isTrailSurrogate d then
              let cp := (c - 0xD800) * 0x400 + (d - 0xDC00) + 0x10000 in
              r <- encodeURIComponent rest' ;;
              Ok (concat (map pct (utf8Encode cp)) ++ r)
            else Throw URIError
        | [] => Throw URIError
        end
      else
        r <- encodeURIComponent rest ;;
        Ok (concat (map pct (utf8Encode c)) ++ r)
  end.

(** [%XX] at the head of the string. *)
Definition hexOctet (s : jsstring) : option (N * jsstring) :=
  match s with
  | 37 :: h1 :: h2 :: rest =>
      match hexVal h1, hexVal h2 with
      | Some a, Some b => Some (16 * a + b, rest)
      | _, _ => None
      end
  | _ => None
  end.

Fixpoint hexOctets (n : nat) (s : jsstring) : option (list N * jsstring) :=
  match n with
  | O => Some ([], s)
  | S n' =>
      match hexOctet s with
      | Some (b, rest) =>
          match hexOctets n' rest with
          | Some (bs, rest') => Some (b :: bs, rest')
          | None => None
          end
      | None => None
      end
  end.

(** Number of leading 1 bits of an octet, as far as [Decode] looks. *)
Definition leadingOnes (b : N) : nat :=
  if b <? 0x80 then 0
  else if b <? 0xC0 then 1
  else if b <? 0xE0 then 2
  else if b <? 0xF0 then 3
  else if b <? 0xF8 then 4
  else 5.

(** ECMAScript [Decode(string, "")]. The recursion is on the number of code
    units still unread. *)
Fixpoint decodeFrom (fuel : nat) (s : jsstring) : completion jsstring :=
  match fuel with
  | O => Ok []
  | S fuel' =>
      match s with
      | [] => Ok []
      | c :: rest =>
          if c =? 37 then
            match hexOctet s with
            | None => Throw URIError
            | Some (b, rest1) =>
                match leadingOnes b with
                | O => r <- decodeFrom fuel' rest1 ;; Ok (b :: r)
                | S O => Throw URIError
                | S n =>
                    if Nat.ltb 3 n then Throw URIError
                    else
                      match hexOctets n rest1 with
                      | None => Throw URIError
                      | Some (bs, rest2) =>
                          match utf8Value (b :: bs) with
                          | None => Throw URIError
                          | Some cp =>
                              r <- decodeFrom fuel' rest2 ;;
                              Ok (utf16Encode cp ++ r)
                          end
                      end
                end
            end
          else r <- decodeFrom fuel' rest ;; Ok (c :: r)
      end
  end.

Definition decodeURIComponent (s : jsstring) : completion jsstring :=
  decodeFrom (length s) s.

(** ** Decimal indices

    [String(i)] for a non-negative integer, and the test for an array index
    (ECMAScript: [P] is an array index when [ToString(ToUint32(P))] is [P]
    and the number is not 2^32 - 1). *)

Fixpoint digitsOfUint (d : Decimal.uint) : jsstring :=
  match d with
  | Decimal.Nil => []
  | Decimal.D0 d' => 48 :: digitsOfUint d'
  | Decimal.D1 d' => 49 :: digitsOfUint d'
  | Decimal.D2 d' => 50 :: digitsOfUint d'
  | Decimal.D3 d' => 51 :: digitsOfUint d'
  | Decimal.D4 d' => 52 :: digitsOfUint d'
  | Decimal.D5 d' => 53 :: digitsOfUint d'
  | Decimal.D6 d' => 54 :: digitsOfUint d'
  | Decimal.D7 d' => 55 :: digitsOfUint d'
  | Decimal.D8 d' => 56 :: digitsOfUint d'
  | Decimal.D9 d' => 57 :: digitsOfUint d'
  end.

Definition isDigit (c : N) : bool := (48 <=? c) && (c <=? 57).

Fixpoint uintOfDigits (s : jsstring) : option Decimal.uint :=
  match s with
  | [] => Some Decimal.Nil
  | c :: rest =>
      match uintOfDigits rest with
      | None => None
      | Some d =>
          if c =? 48 then Some (Decimal.D0 d) else if c =? 49 then Some (Decimal.D1 d)
          else if c =? 50 then Some (Decimal.D2 d) else if c =? 51 then Some (Decimal.D3 d)
          else if c =? 52 then Some (Decimal.D4 d) else if c =? 53 then Some (Decimal.D5 d)
          else if c =? 54 then Some (Decimal.D6 d) else if c =? 55 then Some (Decimal.D7 d)
          else if c =? 56 then Some (Decimal.D8 d) else if c =? 57 then Some (Decimal.D9 d)
          else None
      end
  end.

(** [String(n)] for a non-negative integer [n]. *)
Definition decimal (n : N) : jsstring := digitsOfUint (N.to_uint n).

Definition arrayIndex (k : jsstring) : option N :=
  match uintOfDigits k with
  | Some d =>
      let n := N.of_uint d in
      if str_eqb (decimal n) k && (n <? 4294967295) then Some n else None
  | None => None
  end.

(** ** Number(string)

    [isNumeric s] holds when [Number(s)] is not [NaN], that is when [s],
    trimmed of white space, is empty or a [StrNumericLiteral]. *)

Definition isWhiteSpace (c : N) : bool :=
  existsb (N.eqb c)
    [9; 10; 11; 12; 13; 32; 0xA0; 0x1680; 0x2028; 0x2029; 0x202F; 0x205F;
     0x3000; 0xFEFF]
  || ((0x2000 <=? c) && (c <=? 0x200A)).

Fixpoint dropWhile {A} (f : A -> bool) (l : list A) : list A :=
  match l with
  | [] => []
  | a :: l' => if f a then dropWhile f l' else l
  end.

Fixpoint takeWhile {A} (f : A -> bool) (l : list A) : list A :=
  match l with
  | [] => []
  | a :: l' => if f a then a :: takeWhile f l' else []
  end.

Definition trim (s : jsstring) : jsstring :=
  rev (dropWhile isWhiteSpace (rev (dropWhile isWhiteSpace s))).

Definition stripSign (s : jsstring) : jsstring :=
  match s with
  | c :: rest => if (c =? 43) || (c =? 45) then rest else s
  | [] => s
  end.

Definition nonEmpty {A} (l : list A) : bool :=
  match l with [] => false | _ => true end.

(** [ExponentPart], when present. *)
Definition isExponentOpt (s : jsstring) : bool :=
  match s with
  | [] => true
  | c :: rest =>
      ((c =? 101) || (c =? 69))
      && nonEmpty (stripSign rest) && forallb isDigit (stripSign rest)
  end.

(** [StrUnsignedDecimalLiteral]. *)
Definition isUnsignedDecimal (s : jsstring) : bool :=
  str_eqb s (lit "Infinity")
  || (let int := takeWhile isDigit s in
      let r1 := dropWhile isDigit s in
      match r1 with
      | 46 :: r =>
          (nonEmpty int || nonEmpty (takeWhile isDigit r))
          && isExponentOpt (dropWhile isDigit r)
      | _ => nonEmpty int && isExponentOpt r1
      end).

Definition isHexDigit (c : N) : bool :=
  match hexVal c with Some _ => true | None => false end.

(** [NonDecimalIntegerLiteral]: 0x, 0o and 0b forms, unsigned. *)
Definition isNonDecimalInteger (s : jsstring) : bool :=
  match s with
  | 48 :: p :: ds =>
      nonEmpty ds
      && (if (p =? 120) || (p =? 88) then forallb isHexDigit ds
          else if (p =? 111) || (p =? 79) then
            forallb (fun c => (48 <=? c) && (c <=? 55)) ds
          else if (p =? 98) || (p =? 66) then
            forallb (fun c => (c =? 48) || (c =? 49)) ds
          else false)
  | _ => false
  end.

Definition isNumeric (s : jsstring) : bool :=
  let t := trim s in
  match t with
  | [] => true
  | _ => isNonDecimalInteger t || isUnsignedDecimal (stripSign t)
  end.

(** ** Values

    Scalars, plain objects and arrays. A Number is kept as the string
    [String] yields for it: the program reads a number only through
    [String(n)] and through its truthiness. An object is the list of its own
    enumerable properties in property order (array indices ascending, then
    the other keys in insertion order). An array is the list of its
    elements with its other own properties; a hole is [VUndef], as it reads
    through [arr[i]] (the encoder skips a hole as it skips an [undefined]
    element). *)

Local Set Warnings "-register-all".

Inductive jsvalue :=
| VUndef
| VNull
| VBool (b : bool)
| VNum (repr : jsstring)
| VStr (s : jsstring)
| VObj (props : list (jsstring * jsvalue))
| VArr (elems : list jsvalue) (props : list (jsstring * jsvalue)).

(** [parts.join(sep)]. *)
Fixpoint join (sep : jsstring) (parts : list jsstring) : jsstring :=
  match parts with
  | [] => []
  | [p] => p
  | p :: rest => p ++ sep ++ join sep rest
  end.

Definition truthy (v : jsvalue) : bool :=
  match v with
  | VUndef | VNull => false
  | VBool b => b
  | VNum r => negb (str_eqb r (lit "0") || str_eqb r (lit "NaN"))
  | VStr s => nonEmpty s
  | VObj _ | VArr _ _ => true
  end.

(** [String(v)]. *)
Fixpoint toString (v : jsvalue) : jsstring :=
  match v with
  | VStr s => s
  | VNum r => r
  | VBool true => lit "true"
  | VBool false => lit "false"
  | VNull => lit "null"
  | VUndef => lit "undefined"
  | VObj _ => lit "[object Object]"
  | VArr elems _ =>
      join [44]
        (map (fun e => match e with
                       | VUndef | VNull => []
                       | _ => toString e
                       end) elems)
  end.

(** *** Inherited properties

    The string-keyed properties of the built-in prototypes (ECMAScript 2023
    with Annex B). *)

Definition objectPrototype : list jsstring :=
  map lit ["constructor"; "__defineGetter__"; "__defineSetter__";
           "hasOwnProperty"; "__lookupGetter__"; "__lookupSetter__";
           "isPrototypeOf"; "propertyIsEnumerable"; "toString"; "valueOf";
           "__proto__"; "toLocaleString"]%string.

Definition arrayPrototype : list jsstring :=
  map lit ["at"; "concat"; "copyWithin"; "entries"; "every"; "fill"; "filter";
           "find"; "findIndex"; "findLast"; "findLastIndex"; "flat";
           "flatMap"; "forEach"; "includes"; "indexOf"; "join"; "keys";
           "lastIndexOf"; "map"; "pop"; "push"; "reduce"; "reduceRight";
           "reverse"; "shift"; "slice"; "some"; "sort"; "splice";
           "toReversed"; "toSorted"; "toSpliced"; "unshift"; "values";
           "with"]%string.

Definition stringPrototype : list jsstring :=
  map lit ["at"; "charAt"; "charCodeAt"; "codePointAt"; "concat"; "endsWith";
           "includes"; "indexOf"; "isWellFormed"; "lastIndexOf";
           "localeCompare"; "match"; "matchAll"; "normalize"; "padEnd";
           "padStart"; "repeat"; "replace"; "replaceAll"; "search"; "slice";
           "split"; "startsWith"; "substring"; "toLocaleLowerCase";
           "toLocaleUpperCase"; "toLowerCase"; "toUpperCase";
           "toWellFormed"; "trim"; "trimEnd"; "trimStart"; "substr";
           "anchor"; "big"; "blink"; "bold"; "fixed"; "fontcolor";
           "fontsize"; "italics"; "link"; "small"; "strike"; "sub"; "sup";
           "trimLeft"; "trimRight"]%string.

Definition numberPrototype : list jsstring :=
  map lit ["toExponential"; "toFixed"; "toPrecision"]%string.

Definition mem (k : jsstring) (l : list jsstring) : bool := existsb (str_eqb k) l.

(** Is [k] found on the prototype chain of [v]? *)
Definition inherited (v : jsvalue) (k : jsstring) : bool :=
  mem k objectPrototype
  || match v with
     | VArr _ _ => mem k arrayPrototype
     | VStr _ => mem k stringPrototype
     | VNum _ => mem k numberPrototype
     | _ => false
     end.

Definition protoKey : jsstring := lit "__proto__".
Definition lengthKey : jsstring := lit "length".

(** *** Own properties *)

Fixpoint assoc (k : jsstring) (props : list (jsstring * jsvalue)) : option jsvalue :=
  match props with
  | [] => None
  | (k', v) :: rest => if str_eqb k k' then Some v else assoc k rest
  end.

(** Where a new key goes in property order: an array index before the
    first key that is a larger index or no index, another key at the end. *)
Fixpoint insertNew (k : jsstring) (v : jsvalue) (props : list (jsstring * jsvalue))
  : list (jsstring * jsvalue) :=
  match props with
  | [] => [(k, v)]
  | (k', v') :: rest =>
      match arrayIndex k, arrayIndex k' with
      | Some i, Some i' =>
          if i <? i' then (k, v) :: props else (k', v') :: insertNew k v rest
      | Some _, None => (k, v) :: props
      | None, _ => (k', v') :: insertNew k v rest
      end
  end.

Fixpoint update (k : jsstring) (v : jsvalue) (props : list (jsstring * jsvalue))
  : list (jsstring * jsvalue) :=
  match props with
  | [] => []
  | (k', v') :: rest =>
      if str_eqb k k' then (k', v) :: rest else (k', v') :: update k v rest
  end.

(** [CreateDataProperty] on the own properties. *)
Definition define (k : jsstring) (v : jsvalue) (props : list (jsstring * jsvalue))
  : list (jsstring * jsvalue) :=
  match assoc k props with
  | Some _ => update k v props
  | None => insertNew k v props
  end.

(** [arr[i] = v] on the elements: the array grows by holes up to [i]. *)
Fixpoint setNth (i : nat) (v : jsvalue) (elems : list jsvalue) : list jsvalue :=
  match i, elems with
  | O, [] => [v]
  | O, _ :: rest => v :: rest
  | S i', [] => VUndef :: setNth i' v []
  | S i', e :: rest => e :: setNth i' v rest
  end.

(** [cur[k]], read. *)
Definition getProp (cur : jsvalue) (k : jsstring) : completion jsvalue :=
  match cur with
  | VUndef | VNull => Throw TypeError
  | VObj props =>
      match assoc k props with
      | Some v => Ok v
      | None => if inherited cur k then Beyond else Ok VUndef
      end
  | VArr elems props =>
      match arrayIndex k with
      | Some i => Ok (nth (N.to_nat i) elems VUndef)
      | None =>
          if str_eqb k lengthKey then Ok (VNum (decimal (N.of_nat (length elems))))
          else match assoc k props with
               | Some v => Ok v
               | None => if inherited cur k then Beyond else Ok VUndef
               end
      end
  | VStr s =>
      match arrayIndex k with
      | Some i =>
          match nth_error s (N.to_nat i) with
          | Some c => Ok (VStr [c])
          | None => Ok VUndef
          end
      | None =>
          if str_eqb k lengthKey then Ok (VNum (decimal (N.of_nat (length s))))
          else if inherited cur k then Beyond else Ok VUndef
      end
  | VNum _ | VBool _ => if inherited cur k then Beyond else Ok VUndef
  end.

(** The inherited [__proto__] setter leaves the object as it is when the
    value assigned is neither an object nor [null]. *)
Definition ignoredAsPrototype (v : jsvalue) : bool :=
  match v with
  | VObj _ | VArr _ _ | VNull => false
  | _ => true
  end.

(** [cur[k] = v] in strict code. On an object without an own [__proto__],
    assigning to that key runs the inherited setter; on a primitive the
    setter does nothing, and any other assignment throws. *)
Definition setProp (cur : jsvalue) (k : jsstring) (v : jsvalue) : completion jsvalue :=
  match cur with
  | VUndef | VNull => Throw TypeError
  | VObj props =>
      match assoc k props with
      | Some _ => Ok (VObj (update k v props))
      | None =>
          if str_eqb k protoKey then (if ignoredAsPrototype v then Ok cur else Beyond)
          else Ok (VObj (insertNew k v props))
      end
  | VArr elems props =>
      match arrayIndex k with
      | Some i => Ok (VArr (setNth (N.to_nat i) v elems) props)
      | None =>
          if str_eqb k lengthKey then Beyond
          else match assoc k props with
               | Some _ => Ok (VArr elems (update k v props))
               | None =>
                   if str_eqb k protoKey
                   then (if ignoredAsPrototype v then Ok cur else Beyond)
                   else Ok (VArr elems (insertNew k v props))
               end
      end
  | VStr _ | VNum _ | VBool _ =>
      if str_eqb k protoKey then Ok cur else Throw TypeError
  end.

(** ** QueryStringConverter.queryStringToObject *)

(** [s.split(sep)] for a one-character separator. *)
Fixpoint split (sep : N) (s : jsstring) : list jsstring :=
  match s with
  | [] => [[]]
  | c :: rest =>
      if c =? sep then [] :: split sep rest
      else match split sep rest with
           | p :: ps => (c :: p) :: ps
           | [] => [[c]]
           end
  end.

Definition notBracket (c : N) : bool := negb ((c =? 91) || (c =? 93)).

(** [key.match] with the global key pattern, whose first alternative is a
    run of one or more characters other than the two brackets and whose
    second is an opening bracket, zero or more such characters and a closing
    bracket. At each position the first alternative takes the longest run,
    the second a bracket group; where neither matches, the position is
    skipped. The recursion is on the number of code units still unread. *)
Fixpoint matchFrom (fuel : nat) (s : jsstring) : list jsstring :=
  match fuel with
  | O => []
  | S fuel' =>
      match s with
      | [] => []
      | c :: rest =>
          if notBracket c then
            takeWhile notBracket s :: matchFrom fuel' (dropWhile notBracket s)
          else if c =? 91 then
            match dropWhile notBracket rest with
            | 93 :: after =>
                (91 :: takeWhile notBracket rest ++ [93]) :: matchFrom fuel' after
            | _ => matchFrom fuel' rest
            end
          else matchFrom fuel' rest
      end
  end.

(** The matches; the empty list stands for [null]. *)
Definition matchSegments (key : jsstring) : list jsstring :=
  matchFrom (length key) key.

(** [keySegment.replace]: every bracket is removed. *)
Definition cleanSegment (seg : jsstring) : jsstring := filter notBracket seg.

(** [!isNaN(Number(nextSegment)) ? [] : {}]. *)
Definition newContainer (nextSegment : jsstring) : jsvalue :=
  if isNumeric nextSegment then VArr [] [] else VObj [].

(** The container [cur] once the child it holds at [k] has become [child]. *)
Definition putChild (cur : jsvalue) (k : jsstring) (child : jsvalue) : jsvalue :=
  match cur with
  | VObj props => VObj (update k child props)
  | VArr elems props =>
      match arrayIndex k with
      | Some i => VArr (setNth (N.to_nat i) child elems) props
      | None => VArr elems (update k child props)
      end
  | _ => cur
  end.

(** The loop over [keySegments], from [currentLevel = cur]: the result is
    [cur] after the assignments made through it. *)
Fixpoint assignSegments (keySegments : list jsstring) (value : jsvalue)
    (currentLevel : jsvalue) : completion jsvalue :=
  match keySegments with
  | [] => Ok currentLevel
  | keySegment :: rest =>
      let cleanKey := cleanSegment keySegment in
      match rest with
      | [] => setProp currentLevel cleanKey value
      | nextSegment :: _ =>
          existing <- getProp currentLevel cleanKey ;;
          if truthy existing then
            child <- assignSegments rest value existing ;;
            Ok (putChild currentLevel cleanKey child)
          else
            level <- setProp currentLevel cleanKey
                       (newContainer (cleanSegment nextSegment)) ;;
            created <- getProp level cleanKey ;;
            child <- assignSegments rest value created ;;
            Ok (putChild level cleanKey child)
      end
  end.

(** One iteration of the loop over [queryPairs]. *)
Definition decodePair (queryPair : jsstring) (parsedObject : jsvalue)
  : completion jsvalue :=
  parts <- mapM decodeURIComponent (split 61 queryPair) ;;
  let key := hd [] parts in
  let value := match parts with
               | _ :: v :: _ => VStr v
               | _ => VUndef
               end in
  if negb (nonEmpty key) then Ok parsedObject
  else
    match matchSegments key with
    | [] => Ok parsedObject
    | keySegments => assignSegments keySegments value parsedObject
    end.

Fixpoint decodePairs (queryPairs : list jsstring) (parsedObject : jsvalue)
  : completion jsvalue :=
  match queryPairs with
  | [] => Ok parsedObject
  | queryPair :: rest =>
      parsedObject' <- decodePair queryPair parsedObject ;;
      decodePairs rest parsedObject'
  end.

Definition queryStringToObject (queryString : jsstring) : completion jsvalue :=
  if negb (nonEmpty queryString) || str_eqb queryString (lit "?") then Ok (VObj [])
  else
    let cleanedQuery :=
      match queryString with
      | 63 :: rest => rest
      | _ => queryString
      end in
    let queryPairs := filter nonEmpty (split 38 cleanedQuery) in
    decodePairs queryPairs (VObj []).

(** ** QueryStringConverter.objectToQueryString *)

Definition bracketed (prefix key : jsstring) : jsstring :=
  prefix ++ [91] ++ key ++ [93].

(** [`${encodeURIComponent(k)}=${encodeURIComponent(String(v))}`]. *)
Definition encodeScalar (k : jsstring) (v : jsvalue) : completion jsstring :=
  ek <- encodeURIComponent k ;;
  ev <- encodeURIComponent (toString v) ;;
  Ok (ek ++ [61] ++ ev).

(** [`${encodeURIComponent(fullKey)}[${arrayIndex}]=${encodeURIComponent(String(arrayItem))}`]. *)
Definition encodeItem (fullKey : jsstring) (arrayIndex : N) (v : jsvalue)
  : completion jsstring :=
  ek <- encodeURIComponent fullKey ;;
  ev <- encodeURIComponent (toString v) ;;
  Ok (ek ++ [91] ++ decimal arrayIndex ++ [93; 61] ++ ev).

Definition fullKeyOf (prefix key : jsstring) : jsstring :=
  if nonEmpty prefix then bracketed prefix key else key.

(** The loop of [objectToQueryString], taken apart by what it runs over:
    - [entryParts value fullKey]: what one iteration pushes to [queryParts]
      for an entry whose value is [value];
    - [entriesParts props prefix]: the loop over the entries [props];
    - [indexedParts elems prefix i]: the loop over the entries of an array,
      its elements from index [i] on;
    - [itemsParts elems fullKey i]: the inner loop over [value[arrayIndex]]. *)
Section Loops.

Variable entryParts : jsvalue -> jsstring -> completion (list jsstring).

Fixpoint entriesPartsWith (props : list (jsstring * jsvalue)) (prefix : jsstring)
  : completion (list jsstring) :=
  match props with
  | [] => Ok []
  | (key, value) :: rest =>
      pushed <- entryParts value (fullKeyOf prefix key) ;;
      more <- entriesPartsWith rest prefix ;;
      Ok (pushed ++ more)
  end.

Fixpoint indexedPartsWith (elems : list jsvalue) (prefix : jsstring) (i : N)
  : completion (list jsstring) :=
  match elems with
  | [] => Ok []
  | value :: rest =>
      pushed <- entryParts value (fullKeyOf prefix (decimal i)) ;;
      more <- indexedPartsWith rest prefix (i + 1) ;;
      Ok (pushed ++ more)
  end.

Fixpoint itemsPartsWith (elems : list jsvalue) (fullKey : jsstring)
    (arrayIndex : N) : completion (list jsstring) :=
  match elems with
  | [] => Ok []
  | arrayItem :: rest =>
      pushed <-
        match arrayItem with
        | VObj props =>
            nested <- entriesPartsWith props
                        (bracketed fullKey (decimal arrayIndex)) ;;
            Ok [join [38] nested]
        | VArr elems' props =>
            indexed <- indexedPartsWith elems'
                         (bracketed fullKey (decimal arrayIndex)) 0 ;;
            named <- entriesPartsWith props
                       (bracketed fullKey (decimal arrayIndex)) ;;
            Ok [join [38] (indexed ++ named)]
        | VNull | VUndef => Ok []
        | _ => part <- encodeItem fullKey arrayIndex arrayItem ;; Ok [part]
        end ;;
      more <- itemsPartsWith rest fullKey (arrayIndex + 1) ;;
      Ok (pushed ++ more)
  end.

End Loops.

Fixpoint entryParts (value : jsvalue) (fullKey : jsstring) {struct value}
  : completion (list jsstring) :=
  match value with
  | VNull | VUndef => Ok []
  | VObj props =>
      nested <- entriesPartsWith entryParts props fullKey ;;
      let nestedQueryString := join [38] nested in
      Ok (if nonEmpty nestedQueryString then [nestedQueryString] else [])
  | VArr elems _ => itemsPartsWith entryParts elems fullKey 0
  | _ => part <- encodeScalar fullKey value ;; Ok [part]
  end.

Definition entriesParts := entriesPartsWith entryParts.
Definition indexedParts := indexedPartsWith entryParts.
Definition itemsParts := itemsPartsWith entryParts.

(** [Object.entries] of a string: its characters under their indices. *)
Fixpoint charEntries (s : jsstring) (i : N) : list (jsstring * jsvalue) :=
  match s with
  | [] => []
  | c :: rest => (decimal i, VStr [c]) :: charEntries rest (i + 1)
  end.

(** [queryParts] at the end of the loop over [Object.entries(object)]. *)
Definition queryPartsOf (object : jsvalue) (prefix : jsstring)
  : completion (list jsstring) :=
  match object with
  | VObj props => entriesParts props prefix
  | VArr elems props =>
      indexed <- indexedParts elems prefix 0 ;;
      named <- entriesParts props prefix ;;
      Ok (indexed ++ named)
  | VStr s => entriesParts (charEntries s 0) prefix
  | VNum _ | VBool _ => Ok []
  | VUndef | VNull => Throw TypeError
  end.

Definition objectToQueryString (object : jsvalue) (prefix : jsstring)
  : completion jsstring :=
  queryParts <- queryPartsOf object prefix ;;
  Ok (join [38] queryParts).

(** ** URLSearchParams

    [new URLSearchParams(init)] for a string, after the URL standard: the
    string is converted to scalar values, encoded to UTF-8 and parsed as
    [application/x-www-form-urlencoded]; names and values are percent-decoded
    and decoded from UTF-8 with replacement characters. *)

(** The scalar values of a string: a lone surrogate becomes U+FFFD. *)
Fixpoint scalarValues (s : jsstring) : list N :=
  match s with
  | [] => []
  | c :: rest =>
      if isTrailSurrogate c then 0xFFFD :: scalarValues rest
      else if isLeadSurrogate c then
        match rest with
        | d :: rest' =>
            if isTrailSurrogate d
            then ((c - 0xD800) * 0x400 + (d - 0xDC00) + 0x10000) :: scalarValues rest'
            else 0xFFFD :: scalarValues rest
        | [] => [0xFFFD]
        end
      else c :: scalarValues rest
  end.

Definition utf8Bytes (s : jsstring) : list N :=
  concat (map utf8Encode (scalarValues s)).

(** The "percent-decode" of the URL standard: a [%] not followed by two
    hexadecimal digits stays as it is. *)
Fixpoint percentDecode (bs : list N) : list N :=
  match bs with
  | [] => []
  | b :: rest =>
      match rest with
      | h1 :: h2 :: rest' =>
          match (if b =? 37 then hexVal h1 else None), hexVal h2 with
          | Some a, Some c => (16 * a + c) :: percentDecode rest'
          | _, _ => b :: percentDecode rest
          end
      | _ => b :: percentDecode rest
      end
  end.

(** The UTF-8 decoder of the Encoding standard, which replaces each
    ill-formed sequence by U+FFFD: [needed] bytes are still to come for the
    code point [cp], the next one within [lower..upper]. *)
Fixpoint utf8Decode (bs : list N) (needed : nat) (cp lower upper : N) : list N :=
  match bs with
  | [] => match needed with O => [] | _ => [0xFFFD] end
  | b :: rest =>
      let start :=
        if b <? 0x80 then b :: utf8Decode rest 0 0 0x80 0xBF
        else if (0xC2 <=? b) && (b <=? 0xDF) then utf8Decode rest 1 (b - 0xC0) 0x80 0xBF
        else if (0xE0 <=? b) && (b <=? 0xEF) then
          utf8Decode rest 2 (b - 0xE0)
            (if b =? 0xE0 then 0xA0 else 0x80) (if b =? 0xED then 0x9F else 0xBF)
        else if (0xF0 <=? b) && (b <=? 0xF4) then
          utf8Decode rest 3 (b - 0xF0)
            (if b =? 0xF0 then 0x90 else 0x80) (if b =? 0xF4 then 0x8F else 0xBF)
        else 0xFFFD :: utf8Decode rest 0 0 0x80 0xBF in
      match needed with
      | O => start
      | S n =>
          if (lower <=? b) && (b <=? upper) then
            let cp' := cp * 0x40 + (b - 0x80) in
            match n with
            | O => cp' :: utf8Decode rest 0 0 0x80 0xBF
            | _ => utf8Decode rest n cp' 0x80 0xBF
            end
          else 0xFFFD :: start
      end
  end.

Definition utf8DecodeString (bs : list N) : jsstring :=
  concat (map utf16Encode (utf8Decode bs 0 0 0x80 0xBF)).

Definition plusToSpace (bs : list N) : list N :=
  map (fun b => if b =? 43 then 32 else b) bs.

Definition formDecode (bs : list N) : jsstring :=
  utf8DecodeString (percentDecode (plusToSpace bs)).

(** The name and value of one sequence: split at the first [=]. *)
Definition formPair (bs : list N) : jsstring * jsstring :=
  (formDecode (takeWhile (fun b => negb (b =? 61)) bs),
   formDecode (tl (dropWhile (fun b => negb (b =? 61)) bs))).

(** The list of name-value pairs of [new URLSearchParams(init)]. *)
Definition URLSearchParams (init : jsstring) : list (jsstring * jsstring) :=
  let init' := match init with 63 :: rest => rest | _ => init end in
  map formPair (filter nonEmpty (split 38 (utf8Bytes init'))).

(** A name given to [has] or [get] is converted to scalar values too. *)
Definition usv (s : jsstring) : jsstring :=
  concat (map utf16Encode (scalarValues s)).

Fixpoint searchParams_get (name : jsstring) (l : list (jsstring * jsstring))
  : option jsstring :=
  match l with
  | [] => None
  | (n, v) :: rest => if str_eqb n (usv name) then Some v else searchParams_get name rest
  end.

Definition searchParams_has (name : jsstring) (l : list (jsstring * jsstring)) : bool :=
  existsb (fun p => str_eqb (fst p) (usv name)) l.

(** ** DataCompressor *)

(** [url.includes("?") ? url.split("?")[1] : ""]. *)
Definition searchOf (url : jsstring) : jsstring :=
  if existsb (N.eqb 63) url then nth 1 (split 63 url) [] else [].

Definition hasCompressedData (url paramName : jsstring) : bool :=
  searchParams_has paramName (URLSearchParams (searchOf url)).

Definition getCompressedData (url paramName : jsstring) : option jsstring :=
  searchParams_get paramName (URLSearchParams (searchOf url)).

(** ** JSON.stringify

    [JSON.stringify(v)] without replacer or indentation; [None] is
    [undefined]. The named properties of an array are not serialized. *)

Definition hexLower (d : N) : N := if d <? 10 then 48 + d else 87 + d.

(** [\uXXXX]. *)
Definition unicodeEscape (c : N) : jsstring :=
  [92; 117; hexLower (c / 4096); hexLower ((c / 256) mod 16);
   hexLower ((c / 16) mod 16); hexLower (c mod 16)].

(** [QuoteJSONString], without the enclosing quotes. *)
Fixpoint quoteChars (s : jsstring) : jsstring :=
  match s with
  | [] => []
  | c :: rest =>
      if c =? 8 then [92; 98] ++ quoteChars rest
      else if c =? 9 then [92; 116] ++ quoteChars rest
      else if c =? 10 then [92; 110] ++ quoteChars rest
      else if c =? 12 then [92; 102] ++ quoteChars rest
      else if c =? 13 then [92; 114] ++ quoteChars rest
      else if c =? 34 then [92; 34] ++ quoteChars rest
      else if c =? 92 then [92; 92] ++ quoteChars rest
      else if c <? 32 then unicodeEscape c ++ quoteChars rest
      else if isTrailSurrogate c then unicodeEscape c ++ quoteChars rest
      else if isLeadSurrogate c then
        match rest with
        | d :: rest' =>
            if isTrailSurrogate d then c :: d :: quoteChars rest'
            else unicodeEscape c ++ quoteChars rest
        | [] => unicodeEscape c
        end
      else c :: quoteChars rest
  end.

Definition quoteJSONString (s : jsstring) : jsstring := [34] ++ quoteChars s ++ [34].

Definition numberToJSON (repr : jsstring) : jsstring :=
  if mem repr (map lit ["NaN"; "Infinity"; "-Infinity"]%string) then lit "null"
  else repr.

Section Serialize.

Variable serialize : jsvalue -> option jsstring.

Fixpoint memberList (props : list (jsstring * jsvalue)) : list jsstring :=
  match props with
  | [] => []
  | (k, v) :: rest =>
      match serialize v with
      | Some strP => (quoteJSONString k ++ [58] ++ strP) :: memberList rest
      | None => memberList rest
      end
  end.

Fixpoint elementList (elems : list jsvalue) : list jsstring :=
  match elems with
  | [] => []
  | v :: rest =>
      match serialize v with
      | Some strP => strP :: elementList rest
      | None => lit "null" :: elementList rest
      end
  end.

End Serialize.

Fixpoint JSON_stringify (v : jsvalue) : option jsstring :=
  match v with
  | VUndef => None
  | VNull => Some (lit "null")
  | VBool true => Some (lit "true")
  | VBool false => Some (lit "false")
  | VNum repr => Some (numberToJSON repr)
  | VStr s => Some (quoteJSONString s)
  | VObj props => Some ([123] ++ join [44] (memberList JSON_stringify props) ++ [125])
  | VArr elems _ => Some ([91] ++ join [44] (elementList JSON_stringify elems) ++ [93])
  end.

(** ** QueryParamCore *)

Record IQueryStringConverter := {
  conv_objectToQueryString : jsvalue -> jsstring -> completion jsstring;
  conv_queryStringToObject : jsstring -> completion jsvalue
}.

Definition QueryStringConverter : IQueryStringConverter :=
  {| conv_objectToQueryString := objectToQueryString;
     conv_queryStringToObject := queryStringToObject |}.

Record IDataCompressor := {
  comp_hasCompressedData : jsstring -> jsstring -> bool;
  comp_getCompressedData : jsstring -> jsstring -> option jsstring
}.

Definition DataCompressor : IDataCompressor :=
  {| comp_hasCompressedData := hasCompressedData;
     comp_getCompressedData := getCompressedData |}.

(** An absent [data] or [errors] is [VUndef]. *)
Record ValidationResult := {
  success : bool;
  data : jsvalue;
  errors : jsvalue
}.

Inductive ValidatorContext := serialized | deserialized.

Definition Validator := jsvalue -> ValidatorContext -> ValidationResult.

(** An absent [threshold] or [paramName] is [None]. *)
Record CompressionOptions := {
  threshold : option Z;
  paramName : option jsstring;
  compress : jsstring -> completion jsstring;
  decompress : jsstring -> completion jsstring
}.

(** [Required<CompressionOptions>]. *)
Record RequiredCompressionOptions := {
  req_threshold : Z;
  req_paramName : jsstring;
  req_compress : jsstring -> completion jsstring;
  req_decompress : jsstring -> completion jsstring
}.

(** The [navigate] option is only read by [updateBrowserUrl]; it is kept
    with the host, further down. *)
Record QueryParserOptions := {
  basePath : option jsstring;
  compression : option CompressionOptions;
  defaultValues : option jsvalue
}.

Record QueryParamCore := {
  validator : Validator;
  options : QueryParserOptions;
  queryConverter : IQueryStringConverter;
  dataCompressor : IDataCompressor;
  compressionOptions : option RequiredCompressionOptions
}.

(** [x || d] for a number and for a string. *)
Definition orNumber (x : option Z) (d : Z) : Z :=
  match x with
  | Some n => if (n =? 0)%Z then d else n
  | None => d
  end.

Definition orString (x : option jsstring) (d : jsstring) : jsstring :=
  match x with
  | Some s => if nonEmpty s then s else d
  | None => d
  end.

Definition constructor (validator : Validator) (options : QueryParserOptions)
    (queryConverter : IQueryStringConverter) (dataCompressor : IDataCompressor)
  : QueryParamCore :=
  {| validator := validator;
     options := options;
     queryConverter := queryConverter;
     dataCompressor := dataCompressor;
     compressionOptions :=
       match compression options with
       | Some c =>
           Some {| req_threshold := orNumber (threshold c) 500;
                   req_paramName := orString (paramName c) (lit "qs");
                   req_compress := compress c;
                   req_decompress := decompress c |}
       | None => None
       end |}.

(** [structuredClone] of plain data: a copy equal in structure, and values
    here have no identity beyond their structure. *)
Definition structuredClone (v : jsvalue) : jsvalue := v.

Fixpoint indexedEntries (elems : list jsvalue) (i : N) : list (jsstring * jsvalue) :=
  match elems with
  | [] => []
  | v :: rest => (decimal i, v) :: indexedEntries rest (i + 1)
  end.

(** The own enumerable properties an object spread copies. *)
Definition ownEntries (v : jsvalue) : list (jsstring * jsvalue) :=
  match v with
  | VObj props => props
  | VArr elems props => indexedEntries elems 0 ++ props
  | VStr s => charEntries s 0
  | _ => []
  end.

Definition copyInto (target : list (jsstring * jsvalue)) (source : jsvalue)
  : list (jsstring * jsvalue) :=
  fold_left (fun acc kv => define (fst kv) (snd kv) acc) (ownEntries source) target.

(** [{ ...a, ...b }]. *)
Definition spread (a b : jsvalue) : jsvalue := VObj (copyInto (copyInto [] a) b).

(** [try { body } catch { handler }]. *)
Definition tryCatch {A} (body : completion A) (handler : exn -> completion A)
  : completion A :=
  match body with
  | Throw e => handler e
  | other => other
  end.

Section Core.

(** The host: [JSON.parse], and [window.location.pathname] where there is
    a [window]. *)
Variable JSON_parse : jsstring -> completion jsvalue.
Variable location_pathname : option jsstring.

Variable this : QueryParamCore.

(** [this.options.defaultValues ? structuredClone(...) : {}]. *)
Definition defaultsOrEmpty : jsvalue :=
  match defaultValues (options this) with
  | Some d => if truthy d then structuredClone d else VObj []
  | None => VObj []
  end.

Definition applyDefaultValues (params : jsvalue) : jsvalue :=
  spread defaultsOrEmpty (structuredClone params).

(** The end of both read paths: merge, validate, choose. *)
Definition validated (mergedData : jsvalue) : jsvalue :=
  let validationResult := validator this mergedData serialized in
  if success validationResult && truthy (data validationResult)
  then structuredClone (data validationResult)
  else mergedData.

Definition parsedSerializedParams (queryString : jsstring) (defaultParams : jsvalue)
  : completion jsvalue :=
  parsed <- conv_queryStringToObject (queryConverter this) queryString ;;
  let mergedData := spread defaultParams (structuredClone parsed) in
  Ok (validated mergedData).

(** The [try] block returns [Some] result, or falls through ([None]) to
    [return defaultParams], as the [catch] block does. *)
Definition parseCompressedParams (queryString : jsstring) (defaultParams : jsvalue)
  : completion jsvalue :=
  match compressionOptions this with
  | None => parsedSerializedParams queryString defaultParams
  | Some co =>
      returned <-
        tryCatch
          (match comp_getCompressedData (dataCompressor this) queryString
                   (req_paramName co) with
           | Some compressed =>
               if nonEmpty compressed then
                 decompressed <- req_decompress co compressed ;;
                 parsed <- JSON_parse decompressed ;;
                 let mergedData := spread defaultParams (structuredClone parsed) in
                 Ok (Some (validated mergedData))
               else Ok None
           | None => Ok None
           end)
          (fun _ => Ok None) ;;
      match returned with
      | Some result => Ok result
      | None => Ok defaultParams
      end
  end.

Definition parseQueryParams (queryString : jsstring) : completion jsvalue :=
  let withDefaults := applyDefaultValues (VObj []) in
  match compressionOptions this with
  | Some co =>
      if comp_hasCompressedData (dataCompressor this) queryString (req_paramName co)
      then parseCompressedParams queryString withDefaults
      else parsedSerializedParams queryString withDefaults
  | None => parsedSerializedParams queryString withDefaults
  end.

Definition validateDeserializedParams (params : jsvalue) : ValidationResult :=
  let withDefaults :=
    spread defaultsOrEmpty
           (if truthy params then structuredClone params else VObj []) in
  let validationResult := validator this withDefaults deserialized in
  if success validationResult && truthy (data validationResult)
  then {| success := true;
          data := structuredClone (data validationResult);
          errors := errors validationResult |}
  else validationResult.

Definition createRegularUrl (params : jsvalue) (basePath : jsstring)
  : completion jsstring :=
  queryString <- conv_objectToQueryString (queryConverter this) params [] ;;
  Ok (basePath ++ (if nonEmpty queryString then [63] ++ queryString else [])).

(** [JSON.stringify(params)] read as a string; [undefined] has no
    [length]. *)
Definition stringified (params : jsvalue) : completion jsstring :=
  match JSON_stringify params with
  | Some s => Ok s
  | None => Throw TypeError
  end.

Definition createCompressedUrl (params : jsvalue) (basePath : jsstring)
  : completion jsstring :=
  match compressionOptions this with
  | None => createRegularUrl params basePath
  | Some co =>
      match JSON_stringify params with
      | Some jsonString =>
          compressed <- req_compress co jsonString ;;
          encoded <- encodeURIComponent compressed ;;
          Ok (basePath ++ [63] ++ req_paramName co ++ [61] ++ encoded)
      | None => Beyond
      end
  end.

Definition resolvedBasePath : jsstring :=
  match basePath (options this) with
  | Some b => if nonEmpty b then b else
                match location_pathname with Some p => p | None => lit "/" end
  | None => match location_pathname with Some p => p | None => lit "/" end
  end.

Definition createUrl (params : jsvalue) : completion jsstring :=
  let basePath := resolvedBasePath in
  match compressionOptions this with
  | Some co =>
      jsonString <- stringified params ;;
      if (req_threshold co <? Z.of_nat (length jsonString))%Z
      then createCompressedUrl params basePath
      else createRegularUrl params basePath
  | None => createRegularUrl params basePath
  end.

End Core.

(** ** Helpers for the statements *)

(** The own property [k] of an object. *)
Definition ownProperty (v : jsvalue) (k : jsstring) : option jsvalue :=
  match v with
  | VObj props => assoc k props
  | _ => None
  end.

(** Property keys are distinct. *)
Definition distinctKeys (props : list (jsstring * jsvalue)) : Prop :=
  NoDup (map fst props).

(** Options with nothing configured. *)
Definition plainOptions : QueryParserOptions :=
  {| basePath := None; compression := None; defaultValues := None |}.

(** A validator that accepts everything as it is, and one that rejects
    everything. *)
Definition acceptAll : Validator :=
  fun d _ => {| success := true; data := d; errors := VUndef |}.

Definition rejectAll : Validator :=
  fun _ _ => {| success := false; data := VUndef; errors := VStr (lit "invalid") |}.

(** The example of the defaults: candidate [{a: 1}], defaults
    [{a: 2, b: 3}]. *)
Definition candidateA1 : list (jsstring * jsvalue) := [(lit "a", VNum (lit "1"))].

Definition defaultsA2B3 : list (jsstring * jsvalue) :=
  [(lit "a", VNum (lit "2")); (lit "b", VNum (lit "3"))].

Definition coreA2B3 : QueryParamCore :=
  constructor acceptAll
    {| basePath := None; compression := None;
       defaultValues := Some (VObj defaultsA2B3) |}
    QueryStringConverter DataCompressor.

(** A compressor that keeps the text as it is; its [decompress] rejects
    the text [!]. *)
Definition plainCompression (threshold : option Z) : CompressionOptions :=
  {| threshold := threshold;
     paramName := None;
     compress := fun s => Ok s;
     decompress := fun s => if str_eqb s (lit "!") then Throw OtherError else Ok s |}.

Definition compressingCore (v : Validator) (threshold : option Z) : QueryParamCore :=
  constructor v
    {| basePath := Some (lit "/p");
       compression := Some (plainCompression threshold);
       defaultValues := Some (VObj defaultsA2B3) |}
    QueryStringConverter DataCompressor.

(** The JSON text of the object with the one property [a], the string
    [9]. *)
Definition jsonA9 : jsstring := [123; 34; 97; 34; 58; 34; 57; 34; 125].

(** [JSON.parse] on the two texts the examples use; it rejects any other
    text. *)
Definition JSON_parse_examples (text : jsstring) : completion jsvalue :=
  if str_eqb text (lit "{}") then Ok (VObj [])
  else if str_eqb text jsonA9 then Ok (VObj [(lit "a", VStr (lit "9"))])
  else Throw SyntaxError.

(** On the plain path no marker parameter is seen. *)
Definition markerAbsent (this : QueryParamCore) (queryString : jsstring) : Prop :=
  match compressionOptions this with
  | Some co =>
      comp_hasCompressedData (dataCompressor this) queryString (req_paramName co) = false
  | None => True
  end.

(** On the compressed path the marker parameter holds a text that
    decompresses and parses to [parsed]. *)
Definition markerHolds (JSON_parse : jsstring -> completion jsvalue)
    (this : QueryParamCore) (queryString : jsstring) (parsed : jsvalue) : Prop :=
  exists co compressed decompressed,
    compressionOptions this = Some co
    /\ comp_hasCompressedData (dataCompressor this) queryString (req_paramName co) = true
    /\ comp_getCompressedData (dataCompressor this) queryString (req_paramName co)
       = Some compressed
    /\ nonEmpty compressed = true
    /\ req_decompress co compressed = Ok decompressed
    /\ JSON_parse decompressed = Ok parsed.

(** A value whose JSON text has 50 characters, and one whose JSON text has
    7. *)
Definition value50 : jsvalue := VObj [(lit "q", VStr (repeat 97 42))].
Definition value7 : jsvalue := VObj [(lit "a", VNum (lit "1"))].

(** A string of one or more decimal digits. *)
Definition isNonNegativeInteger (s : jsstring) : bool :=
  nonEmpty s && forallb isDigit s.

(** The container [cur] with [child] stored at [k]. *)
Definition withChild (cur : jsvalue) (k : jsstring) (child : jsvalue) : jsvalue :=
  match cur with
  | VObj props => VObj (define k child props)
  | VArr elems props =>
      match arrayIndex k with
      | Some i => VArr (setNth (N.to_nat i) child elems) props
      | None => VArr elems (define k child props)
      end
  | _ => cur
  end.

(** [cur] is an object, or an array and [k] is not its [length]. *)
Definition holdsAt (cur : jsvalue) (k : jsstring) : Prop :=
  match cur with
  | VObj _ => True
  | VArr _ _ => k <> lengthKey
  | _ => False
  end.

(** [String.prototype.isWellFormed]: no lone surrogate. *)
Fixpoint isWellFormed (s : jsstring) : bool :=
  match s with
  | [] => true
  | c :: rest =>
      if isTrailSurrogate c then false
      else if isLeadSurrogate c then
        match rest with
        | d :: rest' => isTrailSurrogate d && isWellFormed rest'
        | [] => false
        end
      else isWellFormed rest
  end.

(** A Unicode scalar value: a code point that is no surrogate. *)
Definition isScalarValue (cp : N) : Prop :=
  cp < 0x110000 /\ (cp < 0xD800 \/ 0xDFFF < cp).

(** Every element is a 16-bit code unit. *)
Definition codeUnits (s : jsstring) : bool := forallb (fun c => c <? 0x10000) s.

(** A string of code units without a lone surrogate. *)
Definition wellFormed (s : jsstring) : bool := codeUnits s && isWellFormed s.

(** The characters [encodeURIComponent] writes. *)
Definition uriChar (c : N) : bool := uriUnreserved c || (c =? 37).

(** ** The round trip: what is encoded, and the tree expected back *)

(** A bracket group around [k]. *)
Definition segmentOf (k : jsstring) : jsstring := [91] ++ k ++ [93].

(** The flat key of a path of keys: the first key, then a bracket group per
    further key. *)
Definition pathKey (path : list jsstring) : jsstring :=
  match path with
  | [] => []
  | k0 :: ks => k0 ++ concat (map segmentOf ks)
  end.

(** The pairs a list of query parts holds once joined and split again. *)
Definition pairsOf (parts : list jsstring) : list jsstring :=
  filter nonEmpty (concat (map (split 38) parts)).

(** A leaf of a tree: the keys that lead to it and its string. *)
Abbreviation leaf := (list jsstring * jsstring)%type.

Definition under (k : jsstring) (l : leaf) : leaf := (k :: fst l, snd l).

Definition below (path : list jsstring) (l : leaf) : leaf := (path ++ fst l, snd l).

Section Leaves.

Variable leaves : jsvalue -> list leaf.

Fixpoint entryLeaves (props : list (jsstring * jsvalue)) : list leaf :=
  match props with
  | [] => []
  | (k, v) :: rest => map (under k) (leaves v) ++ entryLeaves rest
  end.

Fixpoint itemLeaves (elems : list jsvalue) (i : N) : list leaf :=
  match elems with
  | [] => []
  | v :: rest => map (under (decimal i)) (leaves v) ++ itemLeaves rest (i + 1)
  end.

End Leaves.

(** The leaves of a value, in the order of its entries; [null] and
    [undefined] have none. *)
Fixpoint leaves (v : jsvalue) : list leaf :=
  match v with
  | VObj props => entryLeaves leaves props
  | VArr elems _ => itemLeaves leaves elems 0
  | VUndef | VNull => []
  | _ => [([], toString v)]
  end.

(** The assignments of a list of leaves, one after the other. *)
Fixpoint assignAll (ls : list leaf) (cur : jsvalue) : completion jsvalue :=
  match ls with
  | [] => Ok cur
  | l :: rest =>
      cur' <- assignSegments (fst l) (VStr (snd l)) cur ;;
      assignAll rest cur'
  end.

Section Normalize.

Variable normalize : jsvalue -> jsvalue.

Fixpoint normalizeEntries (props : list (jsstring * jsvalue))
  : list (jsstring * jsvalue) :=
  match props with
  | [] => []
  | (k, v) :: rest => (k, normalize v) :: normalizeEntries rest
  end.

End Normalize.

(** A value with every scalar replaced by its string form. *)
Fixpoint normalize (v : jsvalue) : jsvalue :=
  match v with
  | VObj props => VObj (normalizeEntries normalize props)
  | VArr elems props => VArr (map normalize elems) (normalizeEntries normalize props)
  | VUndef => VUndef
  | _ => VStr (toString v)
  end.

Definition isContainer (v : jsvalue) : bool :=
  match v with
  | VObj _ | VArr _ _ => true
  | _ => false
  end.

(** A key that survives the round trip: well formed, not empty, without
    brackets. *)
Definition keyChars (k : jsstring) : bool :=
  wellFormed k && forallb notBracket k && nonEmpty k.

(** [k1] may come before [k2] in property order: array indices ascending,
    then the other keys. *)
Definition before (k1 k2 : jsstring) : bool :=
  match arrayIndex k1, arrayIndex k2 with
  | Some i, Some j => i <? j
  | Some _, None => true
  | None, Some _ => false
  | None, None => true
  end.

(** A key of the root mapping that survives the round trip with the value
    [v]: as above, not [__proto__], and no property of [Object.prototype]
    when [v] is a container. *)
Definition rootKey (k : jsstring) (v : jsvalue) : bool :=
  keyChars k && negb (str_eqb k protoKey)
  && (negb (isContainer v) || negb (mem k objectPrototype)).

(** A key of a nested mapping that survives the round trip: as above, and
    not numeric. *)
Definition nestedKey (k : jsstring) (v : jsvalue) : bool :=
  rootKey k v && negb (isNumeric k).

Section Supported.

Variable keyOk : jsstring -> jsvalue -> bool.
Variable supported : jsvalue -> bool.

(** Entries with keys that survive, distinct and in property order (as the
    keys of an object are), and with supported values. *)
Fixpoint supportedEntries (props : list (jsstring * jsvalue)) : bool :=
  match props with
  | [] => true
  | (k, v) :: rest =>
      keyOk k v && supported v && negb (mem k (map fst rest))
      && forallb (before k) (map fst rest) && supportedEntries rest
  end.

End Supported.

(** The values the round trip holds for, below the root: well-formed
    strings, numbers and booleans; mappings that are not empty; sequences
    that are not empty, without other properties. *)
Fixpoint supported (v : jsvalue) : bool :=
  match v with
  | VStr s => wellFormed s
  | VNum repr => wellFormed repr
  | VBool _ => true
  | VObj props => nonEmpty props && supportedEntries nestedKey supported props
  | VArr elems props =>
      nonEmpty elems && forallb supported elems && negb (nonEmpty props)
      && (N.of_nat (length elems) <=? 4294967295)
  | VUndef | VNull => false
  end.

(** The root mappings the round trip holds for; the root may be empty. *)
Definition supportedMapping (m : jsvalue) : bool :=
  match m with
  | VObj props => supportedEntries rootKey supported props
  | _ => false
  end.

(** The parts decode to the assignments of the leaves, and hold no [?]. *)
Definition decodesTo (parts : list jsstring) (ls : list leaf) : Prop :=
  Forall (Forall (fun c => c <> 63)) parts
  /\ forall obj, decodePairs (pairsOf parts) obj = assignAll ls obj.

(** Assigning the leaves of [v] under a key stores the normalized [v]
    there: for a container, when the key holds nothing yet; for a scalar,
    when the assignment to the key stores it. *)
Definition rebuilds (v : jsvalue) : Prop :=
  supported v = true ->
  forall cur k,
    holdsAt cur k -> cleanSegment k = k ->
    (if isContainer v then getProp cur k = Ok VUndef
     else setProp cur k (normalize v) = Ok (withChild cur k (normalize v))) ->
    assignAll (map (under k) (leaves v)) cur = Ok (withChild cur k (normalize v)).

(** A tree with an index key and a numeric key at the root, a scalar under
    the name of a property of [Object.prototype], a nested mapping and a
    sequence of mappings, scalars and a sequence. *)
Definition exampleTree : jsvalue :=
  VObj [(lit "7", VStr (lit "seven"));
        (lit "-1.5", VBool false);
        (lit "search", VStr (lit "a b&c=d%"));
        (lit "toString", VStr (lit "x"));
        (lit "sort", VObj [(lit "field", VStr (lit "createdAt"));
                           (lit "order", VStr (lit "desc"))]);
        (lit "page", VNum (lit "2"));
        (lit "filters",
         VArr [VObj [(lit "key", VNum (lit "1")); (lit "value", VStr [0xD83D; 0xDE00])];
               VStr [];
               VBool true;
               VArr [VNum (lit "1.5"); VObj [(lit "x", VStr (lit "y"))]] []] [])].

(** What may follow a bare run: the end of the key or a bracket. *)
Definition endsRun (rest : jsstring) : bool :=
  match rest with
  | [] => true
  | c :: _ => negb (notBracket c)
  end.

(** What leaves an opening bracket without its closing one: the end of the
    key or another opening bracket. *)
Definition leavesOpen (rest : jsstring) : bool :=
  match rest with
  | [] => true
  | c :: _ => c =? 91
  end.

(** A segment is a bare run or a bracket group. *)
Definition segmentShape (seg : jsstring) : Prop :=
  (seg <> [] /\ forallb notBracket seg = true)
  \/ exists run, forallb notBracket run = true /\ seg = [91] ++ run ++ [93].

(** The two ways a value is encoded: as the value of an entry, under the
    key of [path]; and, for a container, by the loop over its own entries
    with that key as prefix. *)
Definition encodesTo (v : jsvalue) : Prop :=
  supported v = true ->
  (forall path, path <> [] -> Forall (fun k => keyChars k = true) path ->
     exists parts,
       entryParts v (pathKey path) = Ok parts
       /\ decodesTo parts (map (below path) (leaves v)))
  /\ (isContainer v = true ->
      forall path, path <> [] -> Forall (fun k => keyChars k = true) path ->
        exists parts,
          queryPartsOf v (pathKey path) = Ok parts
          /\ decodesTo parts (map (below path) (leaves v))).

(** ** Induction on values *)

Section ValueInduction.

Variable P : jsvalue -> Prop.
Hypothesis HUndef : P VUndef.
Hypothesis HNull : P VNull.
Hypothesis HBool : forall b, P (VBool b).
Hypothesis HNum : forall repr, P (VNum repr).
Hypothesis HStr : forall s, P (VStr s).
Hypothesis HObj :
  forall props, Forall (fun kv => P (snd kv)) props -> P (VObj props).
Hypothesis HArr :
  forall elems props,
    Forall P elems -> Forall (fun kv => P (snd kv)) props -> P (VArr elems props).

Fixpoint jsvalue_nested_ind (v : jsvalue) : P v :=
  let entries :=
    fix entries (l : list (jsstring * jsvalue)) : Forall (fun kv => P (snd kv)) l :=
      match l with
      | [] => Forall_nil _
      | (k, x) :: l' => Forall_cons (k, x) (jsvalue_nested_ind x) (entries l')
      end in
  match v with
  | VUndef => HUndef
  | VNull => HNull
  | VBool b => HBool b
  | VNum repr => HNum repr
  | VStr s => HStr s
  | VObj props => HObj props (entries props)
  | VArr elems props =>
      HArr elems props
        ((fix items (l : list jsvalue) : Forall P l :=
            match l with
            | [] => Forall_nil _
            | x :: l' => Forall_cons x (jsvalue_nested_ind x) (items l')
            end) elems)
        (entries props)
  end.

End ValueInduction.

(** ** QueryParamCore and the host

    [window] is its [location], where there is one; the [navigate] option is
    a callback of the host, of which only the calls matter. *)

Record Location := {
  loc_pathname : jsstring;
  loc_search : jsstring
}.

(** A call that changes the address: of the [navigate] option, of
    [window.history.replaceState] or of [window.history.pushState]. *)
Inductive hostCall :=
| Navigate (url : jsstring)
| ReplaceState (url : jsstring)
| PushState (url : jsstring).

Section Host.

Variable JSON_parse : jsstring -> completion jsvalue.

(** [None]: [typeof window === "undefined"]. *)
Variable window : option Location.

(** Is the [navigate] option set? *)
Variable navigate : bool.

Variable this : QueryParamCore.

Definition getQueryParams : jsstring :=
  match window with
  | None => []
  | Some w => loc_search w
  end.

Definition hasCompressed : bool :=
  match compressionOptions this, window with
  | Some co, Some w =>
      comp_hasCompressedData (dataCompressor this) (loc_search w) (req_paramName co)
  | _, _ => false
  end.

(** The calls [updateBrowserUrl] makes. *)
Definition updateBrowserUrl (url : jsstring) (replace : bool) : list hostCall :=
  if navigate then [Navigate url]
  else match window with
       | Some _ => if replace then [ReplaceState url] else [PushState url]
       | None => []
       end.

(** *** useQueryParams *)

(** The first argument of [setQueryParams]: a function of the previous
    parameters, which it leaves as they are, or a value. *)
Inductive paramsUpdate :=
| UpdateWith (f : jsvalue -> completion jsvalue)
| UpdateTo (newParams : jsvalue).

(** [typeof v === "object"]. *)
Definition typeofObject (v : jsvalue) : bool :=
  match v with
  | VObj _ | VArr _ _ | VNull => true
  | _ => false
  end.

Definition updatedParamsRaw (newParams : paramsUpdate) (prevParamsCopy : jsvalue)
  : completion jsvalue :=
  match newParams with
  | UpdateWith f =>
      returned <- f prevParamsCopy ;;
      Ok (spread prevParamsCopy returned)
  | UpdateTo v =>
      Ok (spread prevParamsCopy (if typeofObject v then structuredClone v else VObj []))
  end.

(** [key in v]: an own or an inherited property. An element of an array
    within its length counts as present; where it is a hole, the value read
    is [undefined], which the loop below treats as it treats absence. *)
Definition hasProperty (v : jsvalue) (key : jsstring) : completion bool :=
  match v with
  | VObj props =>
      Ok (match assoc key props with Some _ => true | None => inherited v key end)
  | VArr elems props =>
      match arrayIndex key with
      | Some i => Ok (i <? N.of_nat (length elems))
      | None =>
          Ok (str_eqb key lengthKey
              || match assoc key props with Some _ => true | None => inherited v key end)
      end
  | _ => Throw TypeError
  end.

Definition isUndefined (v : jsvalue) : bool :=
  match v with
  | VUndef => true
  | _ => false
  end.

(** The loop [for (const key in finalParams)], over the keys still to
    visit. *)
Fixpoint fillDefaults (keys : list jsstring) (defaults finalParams : jsvalue)
  : completion jsvalue :=
  match keys with
  | [] => Ok finalParams
  | key :: rest =>
      inDefaults <- hasProperty defaults key ;;
      if inDefaults then
        current <- getProp finalParams key ;;
        if isUndefined current then
          default <- getProp defaults key ;;
          if negb (isUndefined default) then
            finalParams' <- setProp finalParams key default ;;
            fillDefaults rest defaults finalParams'
          else fillDefaults rest defaults finalParams
        else fillDefaults rest defaults finalParams
      else fillDefaults rest defaults finalParams
  end.

(** [finalParams] as it is handed to the validation. *)
Definition finalParamsOf (newParams : paramsUpdate) (prevParams : jsvalue)
  : completion jsvalue :=
  let prevParamsCopy := structuredClone prevParams in
  updatedParamsRaw <- updatedParamsRaw newParams prevParamsCopy ;;
  let defaults := defaultsOrEmpty this in
  let finalParams := copyInto [] updatedParamsRaw in
  fillDefaults (map fst finalParams) defaults (VObj finalParams).

(** The function [setQueryParams] hands to [setParams]: from the previous
    state to the next one, with the calls made on the way. *)
Definition setQueryParamsUpdater (newParams : paramsUpdate) (replace : bool)
    (prevParams : jsvalue) : completion (jsvalue * list hostCall) :=
  finalParams <- finalParamsOf newParams prevParams ;;
  let validationResult := validateDeserializedParams this finalParams in
  if negb (success validationResult) then Ok (prevParams, [])
  else
    let validated := data validationResult in
    newUrl <- createUrl (option_map loc_pathname window) this validated ;;
    Ok (validated, updateBrowserUrl newUrl replace).


(** The state the hook starts from, and takes again on [popstate]. *)
Definition paramsFromLocation : completion jsvalue :=
  parseQueryParams JSON_parse this getQueryParams.

End Host.

(** ** More helpers for the statements *)

(** [null] or [undefined]. *)
Definition isNullish (v : jsvalue) : bool :=
  match v with
  | VUndef | VNull => true
  | _ => false
  end.

(** The entries that hold something. *)
Definition withoutNullish (props : list (jsstring * jsvalue))
  : list (jsstring * jsvalue) :=
  filter (fun kv => negb (isNullish (snd kv))) props.

(** What the loop over [finalParams] leaves under a key that held
    [current]: an [undefined] gives way to what the defaults [d] hold. *)
Definition filled (d : list (jsstring * jsvalue)) (k : jsstring)
    (current : option jsvalue) : option jsvalue :=
  match current with
  | Some VUndef =>
      match assoc k d with
      | Some dv => Some dv
      | None => Some VUndef
      end
  | other => other
  end.

(** [{ ...a, ...b }] read at [k]. *)
Definition merged (a b : list (jsstring * jsvalue)) (k : jsstring)
  : option jsvalue :=
  match assoc k b with
  | Some v => Some v
  | None => assoc k a
  end.

(** No key is the name of a property of [Object.prototype]. *)
Definition plainKeys (props : list (jsstring * jsvalue)) : Prop :=
  Forall (fun k => mem k objectPrototype = false) (map fst props).

(** What [encodeURIComponent] writes for one scalar value. *)
Definition escapeOf (cp : N) : jsstring :=
  if uriUnreserved cp then [cp] else concat (map pct (utf8Encode cp)).

(** [createUrl] takes the regular branch for [params]: no compression is
    configured, or the JSON text is no longer than the threshold. *)
Definition staysPlain (this : QueryParamCore) (params : jsvalue) : Prop :=
  match compressionOptions this with
  | Some co =>
      match JSON_stringify params with
      | Some jsonString => (Z.of_nat (length jsonString) <= req_threshold co)%Z
      | None => False
      end
  | None => True
  end.

Section Decoded.

Variable decoded : jsvalue -> bool.

Fixpoint decodedEntries (props : list (jsstring * jsvalue)) : bool :=
  match props with
  | [] => true
  | (k, v) :: rest =>
      forallb notBracket k && negb (str_eqb k protoKey) && decoded v
      && decodedEntries rest
  end.

End Decoded.

(** The shape of what the decoder builds: strings and [undefined] in
    objects and arrays, under keys without brackets and other than
    [__proto__]; an array has no own property named [length] besides its
    length. *)
Fixpoint decoded (v : jsvalue) : bool :=
  match v with
  | VStr _ | VUndef => true
  | VObj props => decodedEntries decoded props
  | VArr elems props =>
      forallb decoded elems && decodedEntries decoded props
      && negb (mem lengthKey (map fst props))
  | VNull | VBool _ | VNum _ => false
  end.

(** The characters of a query string: those [encodeURIComponent] writes,
    and [&], [=] and the two brackets. *)
Definition queryChar (c : N) : bool :=
  uriChar c || (c =? 38) || (c =? 61) || (c =? 91) || (c =? 93).

Section CodeUnits.

Variable inCodeUnits : jsvalue -> bool.

Fixpoint entriesInCodeUnits (props : list (jsstring * jsvalue)) : bool :=
  match props with
  | [] => true
  | (k, v) :: rest => codeUnits k && inCodeUnits v && entriesInCodeUnits rest
  end.

End CodeUnits.

(** The strings of a value, its keys and the renderings of its numbers
    are made of 16-bit code units. *)
Fixpoint inCodeUnits (v : jsvalue) : bool :=
  match v with
  | VStr s => codeUnits s
  | VNum repr => codeUnits repr
  | VObj props => entriesInCodeUnits inCodeUnits props
  | VArr elems props =>
      forallb inCodeUnits elems && entriesInCodeUnits inCodeUnits props
  | VUndef | VNull | VBool _ => true
  end.

(** Every part is made of the characters of a query string. *)
Definition safeParts (parts : list jsstring) : Prop :=
  Forall (Forall (fun c => queryChar c = true)) parts.

(** Both ways a value is encoded give such parts. *)
Definition encodesSafely (v : jsvalue) : Prop :=
  inCodeUnits v = true ->
  (forall fullKey parts,
     codeUnits fullKey = true -> entryParts v fullKey = Ok parts -> safeParts parts)
  /\ (forall prefix parts,
        codeUnits prefix = true -> queryPartsOf v prefix = Ok parts -> safeParts parts).

(** The name [URLSearchParams] gives the parameter of a pair. *)
Definition pairName (pair : jsstring) : jsstring :=
  formDecode (takeWhile (fun b => negb (b =? 61)) pair).

(** The names of the pairs that a list of query parts holds. *)
Definition pairNames (parts : list jsstring) : list jsstring :=
  map pairName (pairsOf parts).

(** Every name holds an opening bracket. *)
Definition bracketedNames (parts : list jsstring) : Prop :=
  Forall (fun n => In 91 n) (pairNames parts).

(** Below a key that holds a bracket, both ways a value is encoded give
    names with a bracket; and so do the items of a sequence under any
    key. *)
Definition encodesBracketed (v : jsvalue) : Prop :=
  inCodeUnits v = true ->
  (forall fullKey parts,
     codeUnits fullKey = true -> In 91 fullKey ->
     entryParts v fullKey = Ok parts -> bracketedNames parts)
  /\ (forall prefix parts,
        codeUnits prefix = true -> In 91 prefix ->
        queryPartsOf v prefix = Ok parts -> bracketedNames parts)
  /\ (forall elems props fullKey parts,
        v = VArr elems props -> codeUnits fullKey = true ->
        entryParts v fullKey = Ok parts -> bracketedNames parts).

(** Both ways a supported value is encoded give the same parts once every
    scalar in it is replaced by its string. *)
Definition encodesAsNormalized (v : jsvalue) : Prop :=
  supported v = true ->
  (forall fullKey, entryParts (normalize v) fullKey = entryParts v fullKey)
  /\ (isContainer v = true ->
      forall prefix, queryPartsOf (normalize v) prefix = queryPartsOf v prefix).

(** The names of the properties of the built-in prototypes. *)
Definition inheritedNames : list jsstring :=
  objectPrototype ++ arrayPrototype ++ stringPrototype ++ numberPrototype.

(** The key segments along which this development follows every read and
    every write: none is [length], and none but the last is the name of a
    property of a built-in prototype. *)
Fixpoint followed (keySegments : list jsstring) : bool :=
  match keySegments with
  | [] => true
  | keySegment :: rest =>
      negb (str_eqb (cleanSegment keySegment) lengthKey)
      && match rest with
         | [] => true
         | _ :: _ =>
             negb (mem (cleanSegment keySegment) inheritedNames) && followed rest
         end
  end.

(** The same of the key of a pair, where the pair can be decoded. *)
Definition followedPair (queryPair : jsstring) : bool :=
  match mapM decodeURIComponent (split 61 queryPair) with
  | Ok parts => followed (matchSegments (hd [] parts))
  | _ => true
  end.

(** [queryPairs] in [queryStringToObject]. *)
Definition queryPairs (queryString : jsstring) : list jsstring :=
  filter nonEmpty
    (split 38 (match queryString with
               | 63 :: rest => rest
               | _ => queryString
               end)).

(** * Properties *)

(** ** The constructor *)

(** C10: a compression configuration whose threshold is 0, or whose
    parameter name is the empty string, builds a pipeline with the effective
    options of one that leaves the field out or gives the default (threshold
    500, marker parameter name [qs]), and the pipeline reads and writes URLs
    as that one does. *)
Theorem falsy_compression_fields_take_defaults :
  forall JSON_parse location_pathname validator basePath defaultValues
         queryConverter dataCompressor t p compress decompress,
    let core t p :=
      constructor validator
        {| basePath := basePath;
           compression := Some {| threshold := t; paramName := p;
                                  compress := compress; decompress := decompress |};
           defaultValues := defaultValues |}
        queryConverter dataCompressor in
    let same a b :=
      compressionOptions a = compressionOptions b
      /\ (forall q, parseQueryParams JSON_parse a q = parseQueryParams JSON_parse b q)
      /\ (forall v, createUrl location_pathname a v = createUrl location_pathname b v) in
    same (core (Some 0%Z) p) (core (Some 500%Z) p)
    /\ same (core (Some 0%Z) p) (core None p)
    /\ same (core t (Some [])) (core t (Some (lit "qs")))
    /\ same (core t (Some [])) (core t None)
    /\ option_map req_threshold (compressionOptions (core (Some 0%Z) p)) = Some 500%Z
    /\ option_map req_paramName (compressionOptions (core t (Some []))) = Some (lit "qs").
Proof.
  intros; subst core same; cbv beta.
  repeat split; reflexivity.
Qed.

(** ** Reading a query string that is not well formed *)

(** C2 (the code at the failing input): without compression, the query
    string [?a=%] makes [parseQueryParams] throw the URIError of
    [decodeURIComponent], whatever the validator. *)
Theorem parseQueryParams_throws_on_bad_escape :
  forall JSON_parse validator,
    parseQueryParams JSON_parse
      (constructor validator plainOptions QueryStringConverter DataCompressor)
      (lit "?a=%")
    = Throw URIError.
Proof.
  intros. reflexivity.
Qed.

(** C8 (the code at the failing input): the pair [k=v1=v2] is split at
    every [=], and the value kept for [k] is [v1]. *)
Theorem value_cut_at_second_equals_sign :
  queryStringToObject (lit "k=v1=v2") = Ok (VObj [(lit "k", VStr (lit "v1"))])
  /\ queryStringToObject (lit "k=v1=v2") <> Ok (VObj [(lit "k", VStr (lit "v1=v2"))]).
Proof.
  split; [reflexivity | discriminate].
Qed.

(** ** Object spread *)

Lemma str_eqb_eq (a b : jsstring) : str_eqb a b = true <-> a = b.
Proof.
  unfold str_eqb. destruct (list_eq_dec N.eq_dec a b); split; congruence.
Qed.

Lemma str_eqb_refl (a : jsstring) : str_eqb a a = true.
Proof. apply str_eqb_eq; reflexivity. Qed.

Lemma str_eqb_neq (a b : jsstring) : a <> b -> str_eqb a b = false.
Proof.
  intro H. unfold str_eqb. destruct (list_eq_dec N.eq_dec a b); congruence.
Qed.

Lemma assoc_update k k' v props :
  assoc k (update k' v props)
  = if str_eqb k k' then option_map (fun _ => v) (assoc k props) else assoc k props.
Proof.
  induction props as [|[k0 v0] rest IH]; simpl.
  - destruct (str_eqb k k'); reflexivity.
  - destruct (str_eqb k' k0) eqn:E0; simpl.
    + apply str_eqb_eq in E0; subst k0.
      destruct (str_eqb k k'); reflexivity.
    + rewrite IH. destruct (str_eqb k k') eqn:E1; [|reflexivity].
      apply str_eqb_eq in E1; subst k'. rewrite E0. reflexivity.
Qed.

Lemma assoc_insertNew k k' v props :
  assoc k' props = None ->
  assoc k (insertNew k' v props) = if str_eqb k k' then Some v else assoc k props.
Proof.
  induction props as [|[k0 v0] rest IH]; simpl; intro Hnone.
  - reflexivity.
  - destruct (str_eqb k' k0) eqn:E0; [discriminate|].
    specialize (IH Hnone).
    assert (Hk : str_eqb k k' = true -> str_eqb k k0 = false).
    { intro E. apply str_eqb_eq in E; subst k'. exact E0. }
    destruct (arrayIndex k') as [i|], (arrayIndex k0) as [i0|]; simpl;
      try destruct (i <? i0); simpl; try rewrite IH;
      destruct (str_eqb k k') eqn:E1; try rewrite (Hk eq_refl); reflexivity.
Qed.

Lemma assoc_define k k' v props :
  assoc k (define k' v props) = if str_eqb k k' then Some v else assoc k props.
Proof.
  unfold define. destruct (assoc k' props) eqn:E.
  - rewrite assoc_update. destruct (str_eqb k k') eqn:E1; [|reflexivity].
    apply str_eqb_eq in E1; subst k'. rewrite E. reflexivity.
  - apply assoc_insertNew; exact E.
Qed.

(** After copying entries, a key reads its last copied value, or what was
    there. *)
Lemma assoc_fold_define k entries : forall target,
  assoc k (fold_left (fun acc kv => define (fst kv) (snd kv) acc) entries target)
  = match assoc k (rev entries) with
    | Some v => Some v
    | None => assoc k target
    end.
Proof.
  induction entries as [|[k0 v0] rest IH]; intro target; simpl.
  - reflexivity.
  - rewrite IH. clear IH.
    assert (H : forall l, assoc k (l ++ [(k0, v0)])
                = match assoc k l with Some v => Some v
                  | None => if str_eqb k k0 then Some v0 else None end).
    { induction l as [|[k1 v1] l IH]; simpl; [reflexivity|].
      destruct (str_eqb k k1); [reflexivity | exact IH]. }
    rewrite H. destruct (assoc k (rev rest)); [reflexivity|].
    rewrite assoc_define. destruct (str_eqb k k0); reflexivity.
Qed.

Lemma assoc_rev_NoDup k (l : list (jsstring * jsvalue)) :
  NoDup (map fst l) -> assoc k (rev l) = assoc k l.
Proof.
  induction l as [|[k0 v0] rest IH]; simpl; intro Hnd; [reflexivity|].
  inversion Hnd as [|? ? Hnotin Hnd']; subst.
  assert (H : forall l', assoc k (l' ++ [(k0, v0)])
              = match assoc k l' with Some v => Some v
                | None => if str_eqb k k0 then Some v0 else None end).
  { induction l' as [|[k1 v1] l' IH']; simpl; [reflexivity|].
    destruct (str_eqb k k1); [reflexivity | exact IH']. }
  rewrite H, (IH Hnd'). destruct (str_eqb k k0) eqn:E.
  - apply str_eqb_eq in E; subst k0.
    assert (Hn : assoc k rest = None).
    { clear -Hnotin. induction rest as [|[k1 v1] rest IH]; simpl; [reflexivity|].
      destruct (str_eqb k k1) eqn:E.
      - apply str_eqb_eq in E; subst. exfalso; apply Hnotin; left; reflexivity.
      - apply IH. intro Hin; apply Hnotin; right; exact Hin. }
    rewrite Hn; reflexivity.
  - destruct (assoc k rest); reflexivity.
Qed.

(** [{ ...a, ...b }] on objects: a key of [b] reads as in [b], any other as
    in [a]. *)
Lemma ownProperty_spread k a b :
  distinctKeys a -> distinctKeys b ->
  ownProperty (spread (VObj a) (VObj b)) k
  = match assoc k b with Some v => Some v | None => assoc k a end.
Proof.
  intros Ha Hb. unfold distinctKeys in *. unfold spread, copyInto; simpl.
  rewrite !assoc_fold_define, (assoc_rev_NoDup k a Ha), (assoc_rev_NoDup k b Hb).
  simpl. destruct (assoc k b), (assoc k a); reflexivity.
Qed.

Ltac distinct_keys :=
  unfold distinctKeys; simpl;
  repeat (constructor; [simpl; intuition discriminate|]); constructor.

(** ** Defaults *)

(** C7: [validateDeserializedParams] hands the validator the spread of the
    defaults and then the candidate, in which a key of the candidate reads
    as in the candidate and any other key as in the defaults; when the
    validator accepts, its data is returned. *)
Theorem validate_merges_defaults_under_candidate :
  forall (this : QueryParamCore) d c,
    defaultValues (options this) = Some (VObj d) ->
    distinctKeys d -> distinctKeys c ->
    let withDefaults := spread (VObj d) (VObj c) in
    let validationResult := validator this withDefaults deserialized in
    (forall k, ownProperty withDefaults k
               = match assoc k c with Some v => Some v | None => assoc k d end)
    /\ validateDeserializedParams this (VObj c)
       = (if success validationResult && truthy (data validationResult)
          then {| success := true; data := data validationResult;
                  errors := errors validationResult |}
          else validationResult).
Proof.
  intros this d c Hd Hnd Hnc withDefaults validationResult. split.
  - intro k. apply ownProperty_spread; assumption.
  - unfold validateDeserializedParams, defaultsOrEmpty. rewrite Hd. reflexivity.
Qed.

Lemma validate_merges_defaults_under_candidate_witness :
  validateDeserializedParams coreA2B3 (VObj candidateA1)
  = {| success := true;
       data := VObj [(lit "a", VNum (lit "1")); (lit "b", VNum (lit "3"))];
       errors := VUndef |}.
Proof.
  assert (Hd : distinctKeys defaultsA2B3) by distinct_keys.
  assert (Hc : distinctKeys candidateA1) by distinct_keys.
  destruct (validate_merges_defaults_under_candidate
              coreA2B3 defaultsA2B3 candidateA1 eq_refl Hd Hc) as [_ Heq].
  rewrite Heq. reflexivity.
Defined.

(** ** The read path *)

Lemma applyDefaultValues_empty (this : QueryParamCore) d :
  defaultValues (options this) = Some (VObj d) -> distinctKeys d ->
  forall k, ownProperty (applyDefaultValues this (VObj [])) k = assoc k d.
Proof.
  intros Hd Hnd k. unfold applyDefaultValues, defaultsOrEmpty. rewrite Hd. simpl truthy.
  cbv iota. unfold structuredClone.
  rewrite ownProperty_spread; [reflexivity | assumption | constructor].
Qed.

(** C3 (as amended): when [hasCompressedData] finds the marker parameter
    in the query string and [decompress], or [JSON.parse] after it, throws
    on the value [getCompressedData] returns, [parseQueryParams] returns
    the defaults alone: the spread of [defaultValues], in which every key
    reads as in [defaultValues]. *)
Theorem failed_decompression_returns_defaults :
  forall JSON_parse (this : QueryParamCore) co queryString compressed e,
    compressionOptions this = Some co ->
    comp_hasCompressedData (dataCompressor this) queryString (req_paramName co) = true ->
    comp_getCompressedData (dataCompressor this) queryString (req_paramName co)
      = Some compressed ->
    (req_decompress co compressed = Throw e
     \/ exists decompressed,
          req_decompress co compressed = Ok decompressed
          /\ JSON_parse decompressed = Throw e) ->
    parseQueryParams JSON_parse this queryString
      = Ok (applyDefaultValues this (VObj []))
    /\ forall d, defaultValues (options this) = Some (VObj d) -> distinctKeys d ->
         forall k, ownProperty (applyDefaultValues this (VObj [])) k = assoc k d.
Proof.
  intros JSON_parse this co q c e Hco Hhas Hget Hthrow. split.
  - unfold parseQueryParams, parseCompressedParams. rewrite Hco, Hhas, Hget.
    destruct (nonEmpty c); [|reflexivity].
    destruct Hthrow as [Hd | [d [Hd Hp]]]; rewrite Hd; simpl; [reflexivity|].
    rewrite Hp. reflexivity.
  - intros d Hd Hnd. apply applyDefaultValues_empty; assumption.
Qed.

Lemma failed_decompression_returns_defaults_witness :
  parseQueryParams JSON_parse_examples (compressingCore acceptAll None) (lit "?qs=!&a=7")
  = Ok (VObj defaultsA2B3)
  /\ parseQueryParams JSON_parse_examples (compressingCore acceptAll None) (lit "?qs=nojson")
     = Ok (VObj defaultsA2B3).
Proof.
  split.
  - exact (proj1 (failed_decompression_returns_defaults JSON_parse_examples
             (compressingCore acceptAll None) _ (lit "?qs=!&a=7") (lit "!") OtherError
             eq_refl eq_refl eq_refl (or_introl eq_refl))).
  - exact (proj1 (failed_decompression_returns_defaults JSON_parse_examples
             (compressingCore acceptAll None) _ (lit "?qs=nojson") (lit "nojson")
             SyntaxError eq_refl eq_refl eq_refl
             (or_intror (ex_intro _ (lit "nojson") (conj eq_refl eq_refl))))).
Defined.

(** C3 (counterexample): [hasCompressedData] looks behind the first [?]
    only. In a query string without [?] the marker parameter is not found:
    the string is read on the plain path, the marker is a key as any other,
    and what is returned is not the defaults, although [decompress] throws
    on the value. *)
Lemma marker_without_question_mark_is_read_plain :
  hasCompressedData (lit "qs=!") (lit "qs") = false
  /\ decompress (plainCompression None) (lit "!") = Throw OtherError
  /\ parseQueryParams JSON_parse_examples (compressingCore acceptAll None) (lit "qs=!")
     = Ok (VObj [(lit "a", VNum (lit "2")); (lit "b", VNum (lit "3"));
                 (lit "qs", VStr (lit "!"))])
  /\ parseQueryParams JSON_parse_examples (compressingCore acceptAll None) (lit "qs=!")
     <> Ok (applyDefaultValues (compressingCore acceptAll None) (VObj [])).
Proof.
  repeat split. discriminate.
Qed.

(** C4: when the validator reports failure in the [serialized] context,
    [parseQueryParams] returns the decoded tree spread over the defaults,
    on the plain path and on the compressed path alike. *)
Theorem rejected_read_returns_merged_data :
  forall JSON_parse (this : QueryParamCore) queryString parsed,
    let withDefaults := applyDefaultValues this (VObj []) in
    let mergedData := spread withDefaults parsed in
    (markerAbsent this queryString
     /\ conv_queryStringToObject (queryConverter this) queryString = Ok parsed)
    \/ markerHolds JSON_parse this queryString parsed ->
    success (validator this mergedData serialized) = false ->
    parseQueryParams JSON_parse this queryString = Ok mergedData.
Proof.
  intros JSON_parse this q parsed withDefaults mergedData Hpath Hfail.
  assert (Hval : validated this mergedData = mergedData).
  { unfold validated. rewrite Hfail. reflexivity. }
  unfold parseQueryParams. fold withDefaults.
  destruct Hpath as [[Habs Hdec] | (co & c & d & Hco & Hhas & Hget & Hne & Hd & Hp)].
  - unfold markerAbsent in Habs.
    destruct (compressionOptions this) as [co|]; [rewrite Habs|];
      unfold parsedSerializedParams; rewrite Hdec; simpl;
      unfold structuredClone; fold mergedData; rewrite Hval; reflexivity.
  - rewrite Hco, Hhas. unfold parseCompressedParams. rewrite Hco, Hget, Hne, Hd.
    simpl. rewrite Hp. simpl. unfold structuredClone. fold mergedData.
    rewrite Hval. reflexivity.
Qed.

Lemma rejected_read_returns_merged_data_witness :
  parseQueryParams JSON_parse_examples (compressingCore rejectAll None)
    (lit "?a=7&c[x]=y")
  = Ok (VObj [(lit "a", VStr (lit "7")); (lit "b", VNum (lit "3"));
              (lit "c", VObj [(lit "x", VStr (lit "y"))])])
  /\ parseQueryParams JSON_parse_examples (compressingCore rejectAll None)
       (lit "?qs=%7B%22a%22%3A%229%22%7D")
     = Ok (VObj [(lit "a", VStr (lit "9")); (lit "b", VNum (lit "3"))]).
Proof.
  split.
  - exact (rejected_read_returns_merged_data JSON_parse_examples
             (compressingCore rejectAll None) (lit "?a=7&c[x]=y")
             (VObj [(lit "a", VStr (lit "7"));
                    (lit "c", VObj [(lit "x", VStr (lit "y"))])])
             (or_introl (conj eq_refl eq_refl)) eq_refl).
  - refine (rejected_read_returns_merged_data JSON_parse_examples
             (compressingCore rejectAll None) (lit "?qs=%7B%22a%22%3A%229%22%7D")
             (VObj [(lit "a", VStr (lit "9"))])
             (or_intror _) eq_refl).
    exists {| req_threshold := 500; req_paramName := lit "qs";
              req_compress := compress (plainCompression None);
              req_decompress := decompress (plainCompression None) |},
           jsonA9, jsonA9.
    repeat split.
Defined.

(** ** Building a URL *)

(** C6 (as amended): with compression configured, [createUrl] emits the
    base path, [?], the marker parameter name, [=] and the encoded
    compressed text when the JSON text of the value is longer than the
    effective threshold, and the plain encoding otherwise (the base path
    alone when that encoding is empty). The effective threshold is the
    configured one, or 500 when that is 0 or not given; the marker name is
    the configured one, or [qs] when that is empty or not given. *)
Theorem createUrl_compresses_above_threshold :
  forall location_pathname validator options queryConverter dataCompressor
         c params jsonString,
    compression options = Some c ->
    JSON_stringify params = Some jsonString ->
    let this := constructor validator options queryConverter dataCompressor in
    let basePath := resolvedBasePath location_pathname this in
    let thresholdBytes :=
      match threshold c with
      | Some n => if (n =? 0)%Z then 500%Z else n
      | None => 500%Z
      end in
    let markerParamName :=
      match paramName c with
      | Some s => if nonEmpty s then s else lit "qs"
      | None => lit "qs"
      end in
    createUrl location_pathname this params
    = if (thresholdBytes <? Z.of_nat (length jsonString))%Z
      then
        compressed <- compress c jsonString ;;
        encoded <- encodeURIComponent compressed ;;
        Ok (basePath ++ [63] ++ markerParamName ++ [61] ++ encoded)
      else
        queryString <- conv_objectToQueryString queryConverter params [] ;;
        Ok (basePath ++ (if nonEmpty queryString then [63] ++ queryString else [])).
Proof.
  intros loc validator options conv comp c params json Hc Hjson this basePath
    thresholdBytes markerParamName.
  unfold createUrl, stringified, createCompressedUrl, createRegularUrl.
  unfold this at 1 2 3. unfold constructor at 1 2 3. cbn [compressionOptions].
  rewrite Hc, Hjson. cbn [bind req_threshold req_compress req_paramName queryConverter].
  reflexivity.
Qed.

Lemma createUrl_compresses_above_threshold_witness :
  (option_map (@length N) (JSON_stringify value50) = Some 50%nat
   /\ createUrl None (compressingCore acceptAll (Some 10%Z)) value50
      = Ok (lit "/p?qs=%7B%22q%22%3A%22" ++ repeat 97 42 ++ lit "%22%7D"))
  /\ (option_map (@length N) (JSON_stringify value7) = Some 7%nat
      /\ createUrl None (compressingCore acceptAll (Some 10%Z)) value7
         = Ok (lit "/p?a=1"))
  /\ createUrl None (compressingCore acceptAll (Some 10%Z)) (VObj []) = Ok (lit "/p").
Proof.
  split; [split; [reflexivity|] | split; [split; [reflexivity|] |]].
  - exact (eq_trans
             (createUrl_compresses_above_threshold None acceptAll
                {| basePath := Some (lit "/p");
                   compression := Some (plainCompression (Some 10%Z));
                   defaultValues := Some (VObj defaultsA2B3) |}
                QueryStringConverter DataCompressor (plainCompression (Some 10%Z))
                value50 _ eq_refl eq_refl)
             eq_refl).
  - exact (eq_trans
             (createUrl_compresses_above_threshold None acceptAll
                {| basePath := Some (lit "/p");
                   compression := Some (plainCompression (Some 10%Z));
                   defaultValues := Some (VObj defaultsA2B3) |}
                QueryStringConverter DataCompressor (plainCompression (Some 10%Z))
                value7 _ eq_refl eq_refl)
             eq_refl).
  - exact (eq_trans
             (createUrl_compresses_above_threshold None acceptAll
                {| basePath := Some (lit "/p");
                   compression := Some (plainCompression (Some 10%Z));
                   defaultValues := Some (VObj defaultsA2B3) |}
                QueryStringConverter DataCompressor (plainCompression (Some 10%Z))
                (VObj []) _ eq_refl eq_refl)
             eq_refl).
Defined.

(** C6 (counterexample): with the threshold configured as 0, the JSON text
    of 7 characters is longer than the threshold, and yet the URL is the
    plain one: the threshold compared with is 500. *)
Lemma zero_threshold_does_not_compress :
  threshold (plainCompression (Some 0%Z)) = Some 0%Z
  /\ option_map (@length N) (JSON_stringify value7) = Some 7%nat
  /\ createUrl None (compressingCore acceptAll (Some 0%Z)) value7 = Ok (lit "/p?a=1").
Proof.
  repeat split.
Qed.

(** ** The key tokenizer *)

Lemma takeWhile_dropWhile {A} (f : A -> bool) l : takeWhile f l ++ dropWhile f l = l.
Proof.
  induction l as [|a l IH]; simpl; [reflexivity|].
  destruct (f a); simpl; [rewrite IH|]; reflexivity.
Qed.

Lemma dropWhile_length {A} (f : A -> bool) l : (length (dropWhile f l) <= length l)%nat.
Proof.
  induction l as [|a l IH]; simpl; [lia|]. destruct (f a); simpl; lia.
Qed.

Lemma forallb_takeWhile {A} (f : A -> bool) l : forallb f (takeWhile f l) = true.
Proof.
  induction l as [|a l IH]; simpl; [reflexivity|].
  destruct (f a) eqn:E; simpl; [rewrite E; exact IH | reflexivity].
Qed.

Lemma filter_all {A} (f : A -> bool) l : forallb f l = true -> filter f l = l.
Proof.
  induction l as [|a l IH]; simpl; [reflexivity|].
  destruct (f a); simpl; [intro H; rewrite IH; auto | discriminate].
Qed.

Lemma filter_takeWhile {A} (f : A -> bool) l : filter f (takeWhile f l) = takeWhile f l.
Proof. apply filter_all, forallb_takeWhile. Qed.

Lemma filter_split {A} (f : A -> bool) l :
  filter f l = takeWhile f l ++ filter f (dropWhile f l).
Proof.
  rewrite <- (takeWhile_dropWhile f l) at 1.
  rewrite filter_app, filter_takeWhile. reflexivity.
Qed.


Lemma matchFrom_shape fuel : forall s,
  Forall segmentShape (matchFrom fuel s).
Proof.
  induction fuel as [|fuel IH]; intro s; simpl; [constructor|].
  destruct s as [|c rest]; [constructor|].
  destruct (notBracket c) eqn:Ec.
  - constructor; [|apply IH]. left. simpl. rewrite Ec. split; [discriminate|].
    simpl. rewrite Ec. apply forallb_takeWhile.
  - destruct (c =? 91); [|apply IH].
    destruct (dropWhile notBracket rest) as [|d after]; [apply IH|].
    destruct d as [|p]; [apply IH|].
    do 7 (destruct p as [p|p|]; try apply IH).
    constructor; [|apply IH]. right.
    exists (takeWhile notBracket rest). split; [apply forallb_takeWhile | reflexivity].
Qed.

Lemma matchFrom_clean fuel : forall s, (length s <= fuel)%nat ->
  concat (map cleanSegment (matchFrom fuel s)) = filter notBracket s.
Proof.
  induction fuel as [|fuel IH]; intros s Hlen.
  - destruct s; [reflexivity | simpl in Hlen; lia].
  - destruct s as [|c rest]; [reflexivity|]. simpl in Hlen.
    cbn [matchFrom].
    destruct (notBracket c) eqn:Ec.
    + cbn [map concat]. rewrite IH.
      * unfold cleanSegment. rewrite filter_takeWhile.
        symmetry. apply filter_split.
      * simpl. rewrite Ec. pose proof (dropWhile_length notBracket rest). lia.
    + assert (Hskip : filter notBracket (c :: rest) = filter notBracket rest).
      { simpl. rewrite Ec. reflexivity. }
      rewrite Hskip.
      assert (Hrest : concat (map cleanSegment (matchFrom fuel rest))
                      = filter notBracket rest) by (apply IH; lia).
      destruct (c =? 91); [|exact Hrest].
      destruct (dropWhile notBracket rest) as [|d after] eqn:Ed; [exact Hrest|].
      destruct (d =? 93) eqn:E93.
      * apply N.eqb_eq in E93; subst d.
        cbn [map concat]. rewrite IH.
        -- rewrite (filter_split notBracket rest), Ed.
           unfold cleanSegment. simpl. rewrite filter_app, filter_takeWhile.
           simpl. rewrite app_nil_r. reflexivity.
        -- pose proof (dropWhile_length notBracket rest) as Hd.
           rewrite Ed in Hd. simpl in Hd. lia.
      * assert (Hd : match d with 93 => False | _ => True end).
        { destruct d as [|p]; [exact I|].
          do 7 (destruct p as [p|p|]; try exact I). discriminate. }
        destruct d as [|p]; [exact Hrest|].
        do 7 (destruct p as [p|p|]; try exact Hrest). contradiction.
Qed.

Lemma matchFrom_fuel f1 : forall f2 s,
  (length s <= f1)%nat -> (length s <= f2)%nat -> matchFrom f1 s = matchFrom f2 s.
Proof.
  induction f1 as [|f1 IH]; intros f2 s H1 H2.
  - destruct s; [|simpl in H1; lia]. destruct f2; reflexivity.
  - destruct f2 as [|f2]; [destruct s; [reflexivity | simpl in H2; lia]|].
    destruct s as [|c rest]; [reflexivity|]. simpl in H1, H2.
    cbn [matchFrom].
    assert (Hrest : matchFrom f1 rest = matchFrom f2 rest) by (apply IH; lia).
    destruct (notBracket c) eqn:Ec.
    + f_equal. apply IH; simpl; rewrite Ec;
        pose proof (dropWhile_length notBracket rest); lia.
    + destruct (c =? 91); [|exact Hrest].
      destruct (dropWhile notBracket rest) as [|d after] eqn:Ed; [exact Hrest|].
      assert (Hafter : matchFrom f1 after = matchFrom f2 after).
      { pose proof (dropWhile_length notBracket rest) as Hd.
        rewrite Ed in Hd. simpl in Hd. apply IH; lia. }
      rewrite Hafter, Hrest. reflexivity.
Qed.

Lemma matchSegments_fuel fuel s :
  (length s <= fuel)%nat -> matchFrom fuel s = matchSegments s.
Proof. intro H. unfold matchSegments. apply matchFrom_fuel; [exact H | lia]. Qed.

Lemma run_then_rest run rest :
  forallb notBracket run = true -> endsRun rest = true ->
  takeWhile notBracket (run ++ rest) = run /\ dropWhile notBracket (run ++ rest) = rest.
Proof.
  intros Hrun Hrest. induction run as [|c run IH]; cbn [app takeWhile dropWhile].
  - destruct rest as [|d rest]; [split; reflexivity|].
    cbn [endsRun] in Hrest. cbn [takeWhile dropWhile].
    destruct (notBracket d); [discriminate | split; reflexivity].
  - cbn [forallb] in Hrun. apply andb_true_iff in Hrun. destruct Hrun as [Hc Hrun].
    rewrite Hc. destruct (IH Hrun) as [Ht Hd]. rewrite Ht, Hd. split; reflexivity.
Qed.

(** A bare run ends where a bracket stands. *)
Lemma matchSegments_run run rest :
  nonEmpty run = true -> forallb notBracket run = true -> endsRun rest = true ->
  matchSegments (run ++ rest) = run :: matchSegments rest.
Proof.
  intros Hne Hrun Hrest. destruct (run_then_rest run rest Hrun Hrest) as [Ht Hd].
  destruct run as [|c run]; [discriminate|].
  unfold matchSegments at 1. cbn [app length matchFrom].
  cbn [forallb] in Hrun. apply andb_true_iff in Hrun. destruct Hrun as [Hc _].
  rewrite Hc. cbn [app] in Ht, Hd. rewrite Ht, Hd.
  rewrite matchSegments_fuel; [reflexivity|]. rewrite length_app. lia.
Qed.

(** A closing bracket outside a group is skipped. *)
Lemma matchSegments_stray_close rest :
  matchSegments (93 :: rest) = matchSegments rest.
Proof. reflexivity. Qed.

(** An opening bracket without its closing one is skipped. *)
Lemma matchSegments_stray_open run rest :
  forallb notBracket run = true -> leavesOpen rest = true ->
  matchSegments (91 :: run ++ rest) = matchSegments (run ++ rest).
Proof.
  intros Hrun Hrest.
  assert (Hends : endsRun rest = true).
  { destruct rest as [|c rest]; [reflexivity|]. cbn [leavesOpen endsRun] in *.
    apply N.eqb_eq in Hrest. subst c. reflexivity. }
  destruct (run_then_rest run rest Hrun Hends) as [_ Hd].
  unfold matchSegments at 1. cbn [length matchFrom].
  replace (notBracket 91) with false by reflexivity.
  replace (91 =? 91) with true by reflexivity.
  rewrite Hd.
  assert (Hgo : matchFrom (length (run ++ rest)) (run ++ rest)
                = matchSegments (run ++ rest)) by reflexivity.
  destruct rest as [|c rest]; [exact Hgo|].
  cbn [leavesOpen] in Hrest. apply N.eqb_eq in Hrest. subst c. exact Hgo.
Qed.

(** An opening bracket, a run and a closing bracket make a group. *)
Lemma matchSegments_group run rest :
  forallb notBracket run = true ->
  matchSegments (91 :: run ++ 93 :: rest) = (91 :: run ++ [93]) :: matchSegments rest.
Proof.
  intro Hrun. destruct (run_then_rest run (93 :: rest) Hrun eq_refl) as [Ht Hd].
  unfold matchSegments at 1. cbn [length matchFrom].
  replace (notBracket 91) with false by reflexivity.
  replace (91 =? 91) with true by reflexivity.
  rewrite Hd, Ht. rewrite matchSegments_fuel; [reflexivity|].
  rewrite length_app. simpl. lia.
Qed.

(** C9 (as amended): tokenizing a key never fails and gives bare runs and
    bracket groups only. A bare run ends where a bracket stands; a closing
    bracket outside a group is skipped, and so is an opening bracket whose
    run is followed by the end of the key or by another opening bracket:
    the tokenizing goes on behind the bracket, which is part of no segment.
    An opening bracket, a run and a closing bracket make a group. So the
    segments, brackets removed, hold the non-bracket characters of the key
    in order and nothing else. *)
Theorem stray_brackets_are_skipped :
  (forall key,
     Forall segmentShape (matchSegments key)
     /\ concat (map cleanSegment (matchSegments key)) = filter notBracket key
     /\ Forall (fun seg => forallb notBracket (cleanSegment seg) = true)
               (matchSegments key))
  /\ matchSegments [] = []
  /\ (forall run rest,
        nonEmpty run = true -> forallb notBracket run = true -> endsRun rest = true ->
        matchSegments (run ++ rest) = run :: matchSegments rest)
  /\ (forall rest, matchSegments (93 :: rest) = matchSegments rest)
  /\ (forall run rest,
        forallb notBracket run = true -> leavesOpen rest = true ->
        matchSegments (91 :: run ++ rest) = matchSegments (run ++ rest))
  /\ (forall run rest,
        forallb notBracket run = true ->
        matchSegments (91 :: run ++ 93 :: rest)
        = (91 :: run ++ [93]) :: matchSegments rest).
Proof.
  split; [|split; [reflexivity|]; split; [exact matchSegments_run|];
           split; [exact matchSegments_stray_close|];
           split; [exact matchSegments_stray_open | exact matchSegments_group]].
  intro key. unfold matchSegments. split; [apply matchFrom_shape|].
  split; [apply matchFrom_clean; lia|].
  apply Forall_forall. intros seg _. unfold cleanSegment.
  apply forallb_forall. intros x Hx. apply filter_In in Hx. tauto.
Qed.

Lemma stray_brackets_are_skipped_witness :
  matchSegments (lit "a]b") = lit "a" :: matchSegments (lit "]b")
  /\ matchSegments (lit "]b") = matchSegments (lit "b")
  /\ matchSegments (lit "[a[b]") = matchSegments (lit "a[b]").
Proof.
  destruct stray_brackets_are_skipped as (_ & _ & Hrun & Hclose & Hopen & _).
  split; [|split].
  - exact (Hrun (lit "a") (lit "]b") eq_refl eq_refl eq_refl).
  - exact (Hclose (lit "b")).
  - exact (Hopen (lit "a") (lit "[b]") eq_refl eq_refl).
Defined.

(** C9 (counterexample): the key [a]b] is read as the path [a], [b]; the
    bracket is no character of any key. *)
Lemma stray_bracket_is_not_literal :
  matchSegments (lit "a]b") = [lit "a"; lit "b"]
  /\ queryStringToObject (lit "a]b=1")
     = Ok (VObj [(lit "a", VObj [(lit "b", VStr (lit "1"))])])
  /\ queryStringToObject (lit "a]b=1") <> Ok (VObj [(lit "a]b", VStr (lit "1"))]).
Proof.
  repeat split; try reflexivity. discriminate.
Qed.

(** ** Decimal strings and Number *)

Ltac bool_to_prop :=
  repeat match goal with
         | H : _ && _ = true |- _ => apply andb_true_iff in H; destruct H
         | H : _ || _ = false |- _ => apply orb_false_iff in H; destruct H
         | H : (_ <=? _) = true |- _ => apply N.leb_le in H
         | H : (_ <=? _) = false |- _ => apply N.leb_gt in H
         | H : (_ <? _) = true |- _ => apply N.ltb_lt in H
         | H : (_ <? _) = false |- _ => apply N.ltb_ge in H
         | H : (_ =? _) = true |- _ => apply N.eqb_eq in H
         | H : (_ =? _) = false |- _ => apply N.eqb_neq in H
         end.

Lemma digitsOfUint_digits d : forallb isDigit (digitsOfUint d) = true.
Proof. induction d; simpl; auto. Qed.

Lemma uintOfDigits_digitsOfUint d : uintOfDigits (digitsOfUint d) = Some d.
Proof. induction d; simpl; try rewrite IHd; reflexivity. Qed.

Lemma digitsOfUint_nil d : digitsOfUint d = [] -> d = Decimal.Nil.
Proof. destruct d; simpl; congruence. Qed.

Lemma decimal_digits n : forallb isDigit (decimal n) = true.
Proof. apply digitsOfUint_digits. Qed.

Lemma decimal_nonEmpty n : nonEmpty (decimal n) = true.
Proof.
  unfold decimal. destruct (digitsOfUint (N.to_uint n)) eqn:E; [|reflexivity].
  apply digitsOfUint_nil in E. destruct n as [|p]; [discriminate|].
  exfalso. exact (DecimalPos.Unsigned.to_uint_nonnil p E).
Qed.

(** [String(n)] is the array index [n], up to the largest index. *)
Lemma arrayIndex_decimal n : n < 4294967295 -> arrayIndex (decimal n) = Some n.
Proof.
  intro Hn. unfold arrayIndex, decimal at 1.
  rewrite uintOfDigits_digitsOfUint, DecimalN.Unsigned.of_to.
  fold (decimal n). rewrite str_eqb_refl.
  apply N.ltb_lt in Hn. rewrite Hn. reflexivity.
Qed.

Lemma digit_not_whiteSpace c : isDigit c = true -> isWhiteSpace c = false.
Proof.
  unfold isDigit, isWhiteSpace. intro H. bool_to_prop.
  simpl existsb.
  repeat match goal with
         | |- context [c =? ?k] =>
             let E := fresh in destruct (c =? k) eqn:E; [bool_to_prop; lia|]
         end.
  simpl. destruct (8192 <=? c) eqn:E; [bool_to_prop; lia | reflexivity].
Qed.

Lemma dropWhile_whiteSpace_digits s :
  forallb isDigit s = true -> dropWhile isWhiteSpace s = s.
Proof.
  destruct s as [|c rest]; simpl; [reflexivity|]. intro H. bool_to_prop.
  rewrite digit_not_whiteSpace by assumption. reflexivity.
Qed.

Lemma forallb_rev {A} (f : A -> bool) l : forallb f l = true -> forallb f (rev l) = true.
Proof.
  rewrite !forallb_forall. intros H x Hx. apply H, in_rev, Hx.
Qed.

Lemma trim_digits s : forallb isDigit s = true -> trim s = s.
Proof.
  intro H. unfold trim. rewrite (dropWhile_whiteSpace_digits s H).
  rewrite (dropWhile_whiteSpace_digits (rev s) (forallb_rev _ _ H)).
  apply rev_involutive.
Qed.

Lemma takeWhile_all {A} (f : A -> bool) l : forallb f l = true -> takeWhile f l = l.
Proof.
  induction l as [|a l IH]; simpl; [reflexivity|].
  destruct (f a); simpl; [intro H; rewrite IH; auto | discriminate].
Qed.

Lemma dropWhile_all {A} (f : A -> bool) l : forallb f l = true -> dropWhile f l = [].
Proof.
  induction l as [|a l IH]; simpl; [reflexivity|].
  destruct (f a); simpl; [exact IH | discriminate].
Qed.

(** A string of digits is numeric. *)
Lemma isNumeric_digits s : isNonNegativeInteger s = true -> isNumeric s = true.
Proof.
  unfold isNonNegativeInteger. intro H. apply andb_true_iff in H. destruct H as [Hne Hd].
  unfold isNumeric. rewrite (trim_digits s Hd).
  destruct s as [|c rest]; [reflexivity|].
  apply orb_true_iff. right.
  assert (Hs : stripSign (c :: rest) = c :: rest).
  { simpl in Hd. apply andb_true_iff in Hd. destruct Hd as [Hc _].
    unfold isDigit in Hc. simpl.
    destruct (c =? 43) eqn:E1; [bool_to_prop; lia|].
    destruct (c =? 45) eqn:E2; [bool_to_prop; lia|]. reflexivity. }
  rewrite Hs. unfold isUnsignedDecimal. apply orb_true_iff. right.
  rewrite (dropWhile_all _ _ Hd), (takeWhile_all _ _ Hd). reflexivity.
Qed.

Lemma isNumeric_decimal n : isNumeric (decimal n) = true.
Proof.
  apply isNumeric_digits. unfold isNonNegativeInteger.
  rewrite decimal_nonEmpty, decimal_digits. reflexivity.
Qed.

(** ** Creating containers *)

Lemma nth_setNth i v elems : nth i (setNth i v elems) VUndef = v.
Proof.
  revert elems. induction i as [|i IH]; intros [|e rest]; simpl; auto.
Qed.

Lemma setNth_setNth i v w elems : setNth i v (setNth i w elems) = setNth i v elems.
Proof.
  revert elems. induction i as [|i IH]; intros [|e rest]; simpl; auto;
    rewrite IH; reflexivity.
Qed.

Lemma update_update k v w props : update k v (update k w props) = update k v props.
Proof.
  induction props as [|[k0 v0] rest IH]; simpl; [reflexivity|].
  destruct (str_eqb k k0) eqn:E; simpl; rewrite E; [reflexivity|].
  rewrite IH. reflexivity.
Qed.

Lemma update_insertNew k v w props :
  assoc k props = None -> update k v (insertNew k w props) = insertNew k v props.
Proof.
  induction props as [|[k0 v0] rest IH]; simpl; intro Hn.
  - rewrite str_eqb_refl. reflexivity.
  - destruct (str_eqb k k0) eqn:E; [discriminate|]. specialize (IH Hn).
    destruct (arrayIndex k) as [i|], (arrayIndex k0) as [i0|];
      try destruct (i <? i0); simpl; rewrite ?str_eqb_refl, ?E, ?IH; reflexivity.
Qed.

Lemma define_define k v w props : define k v (define k w props) = define k v props.
Proof.
  unfold define at 1. rewrite assoc_define, str_eqb_refl.
  unfold define. destruct (assoc k props) eqn:E.
  - apply update_update.
  - apply update_insertNew; exact E.
Qed.

Lemma update_define k v w props : update k v (define k w props) = define k v props.
Proof.
  unfold define. destruct (assoc k props) eqn:E.
  - apply update_update.
  - apply update_insertNew; exact E.
Qed.

Lemma mem_protoKey : mem protoKey objectPrototype = true.
Proof. reflexivity. Qed.

Lemma inherited_protoKey v : inherited v protoKey = true.
Proof. unfold inherited. rewrite mem_protoKey. reflexivity. Qed.

(** Storing a fresh child where the read found nothing truthy, and reading
    it back. *)
Lemma setProp_fresh cur k existing fresh :
  holdsAt cur k -> getProp cur k = Ok existing ->
  setProp cur k fresh = Ok (withChild cur k fresh)
  /\ getProp (withChild cur k fresh) k = Ok fresh.
Proof.
  intros Hh Hg. destruct cur as [| | | | |props|elems props]; try contradiction;
    simpl in *.
  - destruct (assoc k props) eqn:E.
    + unfold define. rewrite E. split; [reflexivity|].
      rewrite assoc_update, str_eqb_refl, E. reflexivity.
    + destruct (str_eqb k protoKey) eqn:Ep.
      * apply str_eqb_eq in Ep; subst k.
        rewrite inherited_protoKey in Hg. discriminate.
      * unfold define. rewrite E. split; [reflexivity|].
        rewrite assoc_insertNew by exact E. rewrite str_eqb_refl. reflexivity.
  - destruct (arrayIndex k) as [i|] eqn:Ei.
    + split; [reflexivity|]. simpl. rewrite Ei, nth_setNth. reflexivity.
    + rewrite (str_eqb_neq _ _ Hh) in *.
      destruct (assoc k props) eqn:E.
      * unfold define. rewrite E. split; [reflexivity|]. simpl.
        rewrite Ei, (str_eqb_neq _ _ Hh), assoc_update, str_eqb_refl, E. reflexivity.
      * destruct (str_eqb k protoKey) eqn:Ep.
        -- apply str_eqb_eq in Ep; subst k.
           rewrite inherited_protoKey in Hg. discriminate.
        -- unfold define. rewrite E. split; [reflexivity|]. simpl.
           rewrite Ei, (str_eqb_neq _ _ Hh), assoc_insertNew by exact E.
           rewrite str_eqb_refl. reflexivity.
Qed.

Lemma putChild_withChild cur k fresh child :
  putChild (withChild cur k fresh) k child = withChild cur k child.
Proof.
  destruct cur as [| | | | |props|elems props]; simpl; try reflexivity.
  - rewrite update_define. reflexivity.
  - destruct (arrayIndex k) as [i|] eqn:Ei; simpl; rewrite Ei.
    + rewrite setNth_setNth. reflexivity.
    + rewrite update_define. reflexivity.
Qed.

(** Writing back into a child that was read as truthy. *)
Lemma putChild_existing cur k existing child :
  holdsAt cur k -> getProp cur k = Ok existing -> truthy existing = true ->
  putChild cur k child = withChild cur k child.
Proof.
  intros Hh Hg Ht. destruct cur as [| | | | |props|elems props]; try contradiction;
    simpl in *.
  - unfold define. destruct (assoc k props) eqn:E; [reflexivity|].
    destruct (inherited (VObj props) k); [discriminate|].
    inversion Hg; subst. discriminate.
  - destruct (arrayIndex k) as [i|]; [reflexivity|].
    rewrite (str_eqb_neq _ _ Hh) in Hg.
    unfold define. destruct (assoc k props) eqn:E; [reflexivity|].
    destruct (inherited (VArr elems props) k); [discriminate|].
    inversion Hg; subst. discriminate.
Qed.

Lemma assignSegments_unfold keySegment nextSegment rest value cur :
  assignSegments (keySegment :: nextSegment :: rest) value cur
  = (existing <- getProp cur (cleanSegment keySegment) ;;
     if truthy existing then
       child <- assignSegments (nextSegment :: rest) value existing ;;
       Ok (putChild cur (cleanSegment keySegment) child)
     else
       level <- setProp cur (cleanSegment keySegment)
                  (newContainer (cleanSegment nextSegment)) ;;
       created <- getProp level (cleanSegment keySegment) ;;
       child <- assignSegments (nextSegment :: rest) value created ;;
       Ok (putChild level (cleanSegment keySegment) child)).
Proof. reflexivity. Qed.

(** One step of the walk at a container: the child found is kept when it is
    truthy, and a container is created otherwise. *)
Lemma assignSegments_step cur keySegment nextSegment rest value existing :
  holdsAt cur (cleanSegment keySegment) ->
  getProp cur (cleanSegment keySegment) = Ok existing ->
  assignSegments (keySegment :: nextSegment :: rest) value cur
  = (child <- assignSegments (nextSegment :: rest) value
               (if truthy existing then existing
                else newContainer (cleanSegment nextSegment)) ;;
     Ok (withChild cur (cleanSegment keySegment) child)).
Proof.
  intros Hh Hg. rewrite assignSegments_unfold, Hg. cbn [bind].
  destruct (truthy existing) eqn:Ht.
  - destruct (assignSegments (nextSegment :: rest) value existing);
      cbn [bind]; try reflexivity.
    rewrite (putChild_existing _ _ _ _ Hh Hg Ht). reflexivity.
  - destruct (setProp_fresh cur _ existing
                (newContainer (cleanSegment nextSegment)) Hh Hg) as [Hs Hr].
    rewrite Hs. cbn [bind]. rewrite Hr. cbn [bind].
    destruct (assignSegments (nextSegment :: rest) value
                (newContainer (cleanSegment nextSegment))); cbn [bind];
      try reflexivity.
    rewrite putChild_withChild. reflexivity.
Qed.

(** C5 (as amended): at an object, or at an array under a key other than
    [length], a container is created only where the read finds nothing
    truthy, and the one created is an array exactly when [Number] of the
    next segment is not [NaN], as it is for every non-negative integer;
    the two examples of the specification decode as stated. *)
Theorem container_created_by_lookahead :
  (forall cur keySegment nextSegment rest value existing,
      holdsAt cur (cleanSegment keySegment) ->
      getProp cur (cleanSegment keySegment) = Ok existing ->
      assignSegments (keySegment :: nextSegment :: rest) value cur
      = (child <- assignSegments (nextSegment :: rest) value
                   (if truthy existing then existing
                    else if isNumeric (cleanSegment nextSegment)
                         then VArr [] [] else VObj []) ;;
         Ok (withChild cur (cleanSegment keySegment) child)))
  /\ (forall s, isNonNegativeInteger s = true -> isNumeric s = true)
  /\ queryStringToObject (lit "filters[0][key]=a&filters[0][value]=b")
     = Ok (VObj [(lit "filters",
                  VArr [VObj [(lit "key", VStr (lit "a"));
                              (lit "value", VStr (lit "b"))]] [])])
  /\ queryStringToObject (lit "user[name]=a")
     = Ok (VObj [(lit "user", VObj [(lit "name", VStr (lit "a"))])]).
Proof.
  split; [|split; [exact isNumeric_digits | split; reflexivity]].
  intros. rewrite (assignSegments_step _ _ _ _ _ existing) by assumption.
  unfold newContainer. reflexivity.
Qed.

Lemma container_created_by_lookahead_witness :
  assignSegments [lit "filters"; lit "[0]"; lit "[key]"] (VStr (lit "a")) (VObj [])
  = Ok (VObj [(lit "filters", VArr [VObj [(lit "key", VStr (lit "a"))]] [])])
  /\ assignSegments [lit "filters"; lit "[0]"; lit "[value]"] (VStr (lit "b"))
       (VObj [(lit "filters", VArr [VObj [(lit "key", VStr (lit "a"))]] [])])
     = Ok (VObj [(lit "filters",
                  VArr [VObj [(lit "key", VStr (lit "a"));
                              (lit "value", VStr (lit "b"))]] [])]).
Proof.
  split.
  - rewrite (proj1 container_created_by_lookahead (VObj []) (lit "filters")
               (lit "[0]") [lit "[key]"] (VStr (lit "a")) VUndef I eq_refl).
    reflexivity.
  - rewrite (proj1 container_created_by_lookahead
               (VObj [(lit "filters", VArr [VObj [(lit "key", VStr (lit "a"))]] [])])
               (lit "filters") (lit "[0]") [lit "[value]"] (VStr (lit "b"))
               (VArr [VObj [(lit "key", VStr (lit "a"))]] []) I eq_refl).
    reflexivity.
Defined.

(** C5 (counterexample): the segment [-1] is no non-negative integer, and
    neither is the empty segment, yet the container created before each is
    an array; and a container is created at [a] on the second encounter of
    that path, where the first left the empty string. *)
Lemma array_created_before_non_integer_segment :
  isNonNegativeInteger (lit "-1") = false
  /\ isNonNegativeInteger [] = false
  /\ queryStringToObject (lit "a[-1]=x&b[]=y")
     = Ok (VObj [(lit "a", VArr [] [(lit "-1", VStr (lit "x"))]);
                 (lit "b", VArr [] [([], VStr (lit "y"))])])
  /\ queryStringToObject (lit "a=&a[b]=1")
     = Ok (VObj [(lit "a", VObj [(lit "b", VStr (lit "1"))])]).
Proof.
  repeat split.
Qed.

(** ** Percent-encoding round trip *)

Ltac Zify.zify_post_hook ::= Z.to_euclidean_division_equations.

(** Decide the comparisons of the goal by arithmetic. *)
Ltac n_cases :=
  repeat match goal with
         | |- context [?a <=? ?b] => destruct (N.leb_spec a b); try lia
         | |- context [?a <? ?b] => destruct (N.ltb_spec a b); try lia
         | |- context [?a =? ?b] => destruct (N.eqb_spec a b); try lia
         end.

Lemma hexVal_hexDigit d : d < 16 -> hexVal (hexDigit d) = Some d.
Proof.
  intro H. unfold hexVal, hexDigit. n_cases; cbn [andb]; f_equal; lia.
Qed.

Lemma hexOctet_pct b rest : b < 256 -> hexOctet (pct b ++ rest) = Some (b, rest).
Proof.
  intro H. unfold pct. cbn [app hexOctet].
  rewrite !hexVal_hexDigit by lia. do 2 f_equal. lia.
Qed.

Lemma hexOctets_pct bs rest :
  Forall (fun b => b < 256) bs ->
  hexOctets (length bs) (concat (map pct bs) ++ rest) = Some (bs, rest).
Proof.
  induction 1 as [|b bs Hb _ IH]; [reflexivity|].
  cbn [length map concat hexOctets]. rewrite <- app_assoc.
  rewrite hexOctet_pct by exact Hb. rewrite IH. reflexivity.
Qed.

Lemma hexOctet_length s b rest :
  hexOctet s = Some (b, rest) -> (length rest < length s)%nat.
Proof.
  unfold hexOctet. intro H.
  repeat match type of H with
         | context [match ?x with _ => _ end] => destruct x; try discriminate
         end.
  inversion H; subst. simpl. lia.
Qed.

Lemma hexOctets_length n : forall s bs rest,
  hexOctets n s = Some (bs, rest) -> (length rest <= length s)%nat.
Proof.
  induction n as [|n IH]; simpl; intros s bs rest H.
  - inversion H; subst. lia.
  - destruct (hexOctet s) as [[b r]|] eqn:E; [|discriminate].
    destruct (hexOctets n r) as [[bs' r']|] eqn:E'; [|discriminate].
    inversion H; subst. apply hexOctet_length in E. apply IH in E'. lia.
Qed.

(** With fuel for every code unit, the result does not depend on it. *)
Lemma decodeFrom_fuel f1 : forall f2 s,
  (length s <= f1)%nat -> (length s <= f2)%nat -> decodeFrom f1 s = decodeFrom f2 s.
Proof.
  induction f1 as [|f1 IH]; intros f2 s H1 H2.
  - destruct s; [|simpl in H1; lia]. destruct f2; reflexivity.
  - destruct f2 as [|f2]; [destruct s; [reflexivity | simpl in H2; lia]|].
    destruct s as [|c rest]; [reflexivity|]. simpl in H1, H2.
    cbn [decodeFrom]. destruct (c =? 37).
    + destruct (hexOctet (c :: rest)) as [[b rest1]|] eqn:E; [|reflexivity].
      apply hexOctet_length in E. simpl in E.
      destruct (leadingOnes b) as [|[|n]].
      * rewrite (IH f2 rest1) by lia. reflexivity.
      * reflexivity.
      * destruct (Nat.ltb 3 (S n)); [reflexivity|].
        destruct (hexOctets (S n) rest1) as [[bs rest2]|] eqn:E2; [|reflexivity].
        apply hexOctets_length in E2.
        destruct (utf8Value (b :: bs)); [|reflexivity].
        rewrite (IH f2 rest2) by lia. reflexivity.
    + rewrite (IH f2 rest) by lia. reflexivity.
Qed.

Lemma decodeFrom_pct f b X :
  b < 256 ->
  decodeFrom (S f) (pct b ++ X)
  = match leadingOnes b with
    | O => r <- decodeFrom f X ;; Ok (b :: r)
    | S O => Throw URIError
    | S n =>
        if Nat.ltb 3 n then Throw URIError
        else match hexOctets n X with
             | None => Throw URIError
             | Some (bs, rest2) =>
                 match utf8Value (b :: bs) with
                 | None => Throw URIError
                 | Some cp => r <- decodeFrom f rest2 ;; Ok (utf16Encode cp ++ r)
                 end
             end
    end.
Proof.
  intro Hb. pose proof (hexOctet_pct b X Hb) as Hh.
  unfold pct in *. cbn [app] in *. cbn [decodeFrom].
  rewrite N.eqb_refl, Hh. reflexivity.
Qed.

Lemma utf8Encode_bytes cp :
  cp < 0x110000 -> Forall (fun b => b < 256) (utf8Encode cp).
Proof.
  intro H. unfold utf8Encode. n_cases; repeat constructor; lia.
Qed.

Lemma utf8Encode_lead cp :
  isScalarValue cp -> 0x80 <= cp ->
  exists b0 bs,
    utf8Encode cp = b0 :: bs
    /\ leadingOnes b0 = S (length bs)
    /\ (1 <= length bs <= 3)%nat
    /\ utf8Value (b0 :: bs) = Some cp.
Proof.
  intros [Hmax Hsur] Hmin. unfold utf8Encode.
  destruct (N.ltb_spec cp 0x80); [lia|].
  destruct (N.ltb_spec cp 0x800); [|destruct (N.ltb_spec cp 0x10000)];
    eexists; eexists; (split; [reflexivity|]);
    (split; [unfold leadingOnes; n_cases; reflexivity|]);
    (split; [simpl; lia|]);
    unfold utf8Value, isCont; n_cases; cbn [andb negb]; f_equal; lia.
Qed.

(** The escapes of one scalar value decode to it. *)
Lemma decodeFrom_scalar f cp X :
  isScalarValue cp ->
  decodeFrom (S f) (concat (map pct (utf8Encode cp)) ++ X)
  = (r <- decodeFrom f X ;; Ok (utf16Encode cp ++ r)).
Proof.
  intros Hs. destruct (N.ltb_spec cp 0x80) as [Hlt|Hge].
  - unfold utf8Encode. destruct (N.ltb_spec cp 0x80); [|lia].
    cbn [map concat]. rewrite app_nil_r.
    rewrite decodeFrom_pct by lia.
    unfold leadingOnes. destruct (N.ltb_spec cp 0x80); [|lia].
    unfold utf16Encode. destruct (N.ltb_spec cp 0x10000); [|lia]. reflexivity.
  - pose proof (utf8Encode_bytes cp (proj1 Hs)) as Hb.
    destruct (utf8Encode_lead cp Hs Hge) as (b0 & bs & He & Hl & Hn & Hv).
    rewrite He in *. inversion Hb as [|? ? Hb0 Hbs]; subst.
    cbn [map concat]. rewrite <- app_assoc.
    rewrite decodeFrom_pct by exact Hb0. rewrite Hl.
    destruct (length bs) as [|n] eqn:En; [lia|].
    replace (Nat.ltb 3 (S n)) with false
      by (symmetry; apply Nat.ltb_ge; lia).
    rewrite <- En, (hexOctets_pct bs X Hbs), Hv. reflexivity.
Qed.

Lemma decodeURIComponent_plain c Y :
  c <> 37 ->
  decodeURIComponent (c :: Y) = (r <- decodeURIComponent Y ;; Ok (c :: r)).
Proof.
  intro H. unfold decodeURIComponent. cbn [length decodeFrom].
  destruct (N.eqb_spec c 37); [contradiction | reflexivity].
Qed.

Lemma decodeURIComponent_scalar cp X :
  isScalarValue cp ->
  decodeURIComponent (concat (map pct (utf8Encode cp)) ++ X)
  = (r <- decodeURIComponent X ;; Ok (utf16Encode cp ++ r)).
Proof.
  intro Hs. unfold decodeURIComponent.
  destruct (length (concat (map pct (utf8Encode cp)) ++ X)) as [|f] eqn:El.
  - exfalso. unfold utf8Encode in El.
    destruct (cp <? 128), (cp <? 2048), (cp <? 65536); discriminate.
  - rewrite decodeFrom_scalar by exact Hs.
    rewrite (decodeFrom_fuel f (length X) X); [reflexivity | | lia].
    rewrite length_app in El.
    unfold utf8Encode in El.
    destruct (cp <? 128), (cp <? 2048), (cp <? 65536); simpl in El; lia.
Qed.

Lemma uriChar_pct b : b < 256 -> Forall (fun c => uriChar c = true) (pct b).
Proof.
  intro H. unfold pct.
  assert (Hd : forall d, d < 16 -> uriChar (hexDigit d) = true).
  { intros d Hd. unfold uriChar, uriUnreserved, isAlnum, hexDigit.
    n_cases; reflexivity. }
  repeat constructor; try (apply Hd; lia).
Qed.

Lemma uriChar_escapes cp :
  cp < 0x110000 ->
  Forall (fun c => uriChar c = true) (concat (map pct (utf8Encode cp))).
Proof.
  intro H. pose proof (utf8Encode_bytes cp H) as Hb.
  induction Hb as [|b bs Hb0 _ IH]; [constructor|].
  cbn [map concat]. apply Forall_app. split; [apply uriChar_pct; exact Hb0 | exact IH].
Qed.

Lemma unreserved_ascii c : uriUnreserved c = true -> c < 128 /\ c <> 37.
Proof.
  unfold uriUnreserved, isAlnum. cbn [existsb]. intro H.
  split.
  - destruct (N.ltb_spec c 128); [assumption|]. exfalso. revert H.
    n_cases; discriminate.
  - intro; subst c. discriminate.
Qed.

(** [decodeURIComponent] undoes [encodeURIComponent], also in front of
    more text. *)
Lemma uri_roundtrip n : forall s,
  (length s <= n)%nat -> wellFormed s = true ->
  exists e,
    encodeURIComponent s = Ok e
    /\ Forall (fun c => uriChar c = true) e
    /\ forall X, decodeURIComponent (e ++ X)
                 = (r <- decodeURIComponent X ;; Ok (s ++ r)).
Proof.
  induction n as [|n IH]; intros s Hlen Hwf.
  - destruct s; [|simpl in Hlen; lia]. exists []. repeat split; [constructor|].
    intro X. simpl. destruct (decodeURIComponent X); reflexivity.
  - destruct s as [|c rest].
    { exists []. repeat split; [constructor|].
      intro X. simpl. destruct (decodeURIComponent X); reflexivity. }
    unfold wellFormed in Hwf. apply andb_true_iff in Hwf. destruct Hwf as [Hcu Hwf].
    cbn [codeUnits forallb] in Hcu. apply andb_true_iff in Hcu.
    destruct Hcu as [Hc Hcu]. apply N.ltb_lt in Hc.
    simpl in Hlen. cbn [encodeURIComponent isWellFormed] in *.
    destruct (uriUnreserved c) eqn:Eu.
    + destruct (unreserved_ascii c Eu) as [Hascii H37].
      assert (Hns : isTrailSurrogate c = false /\ isLeadSurrogate c = false).
      { unfold isTrailSurrogate, isLeadSurrogate. split; n_cases; reflexivity. }
      destruct Hns as [Ht Hl]. rewrite Ht, Hl in Hwf.
      destruct (IH rest) as (e & He & Hch & Hdec).
      * lia.
      * unfold wellFormed. fold (codeUnits rest) in Hcu. rewrite Hcu, Hwf. reflexivity.
      * exists (c :: e). rewrite He. repeat split.
        -- constructor; [unfold uriChar; rewrite Eu; reflexivity | exact Hch].
        -- intro X. cbn [app]. rewrite decodeURIComponent_plain by exact H37.
           rewrite Hdec. destruct (decodeURIComponent X); reflexivity.
    + destruct (isTrailSurrogate c) eqn:Et; [discriminate|].
      destruct (isLeadSurrogate c) eqn:El.
      * destruct rest as [|d rest']; [discriminate|].
        apply andb_true_iff in Hwf. destruct Hwf as [Hd Hwf]. rewrite Hd.
        cbn [forallb] in Hcu. apply andb_true_iff in Hcu. destruct Hcu as [_ Hcu].
        destruct (IH rest') as (e & He & Hch & Hdec).
        -- simpl in Hlen. lia.
        -- unfold wellFormed, codeUnits. rewrite Hcu, Hwf. reflexivity.
        -- unfold isLeadSurrogate in El. unfold isTrailSurrogate in Hd.
           bool_to_prop.
           set (cp := (c - 55296) * 1024 + (d - 56320) + 65536) in *.
           assert (Hs : isScalarValue cp) by (unfold isScalarValue, cp; lia).
           eexists. rewrite He. cbn [bind]. split; [reflexivity|]. split.
           ++ apply Forall_app. split; [apply uriChar_escapes; apply Hs | exact Hch].
           ++ intro X. rewrite <- app_assoc, decodeURIComponent_scalar by exact Hs.
              rewrite Hdec. destruct (decodeURIComponent X); [|reflexivity..].
              cbn [bind]. f_equal.
              unfold utf16Encode. destruct (N.ltb_spec cp 65536); [unfold cp in *; lia|].
              cbn [app]. f_equal; [|f_equal]; unfold cp; lia.
      * destruct (IH rest) as (e & He & Hch & Hdec).
        -- lia.
        -- unfold wellFormed. fold (codeUnits rest) in Hcu. rewrite Hcu, Hwf. reflexivity.
        -- unfold isLeadSurrogate in El. unfold isTrailSurrogate in Et.
           assert (Hs : isScalarValue c).
           { unfold isScalarValue. split; [lia|].
             destruct (N.leb_spec 55296 c), (N.leb_spec c 56319),
               (N.leb_spec 56320 c), (N.leb_spec c 57343);
               simpl in El, Et; try discriminate; lia. }
           eexists. rewrite He. cbn [bind]. split; [reflexivity|]. split.
           ++ apply Forall_app. split; [apply uriChar_escapes; apply Hs | exact Hch].
           ++ intro X. rewrite <- app_assoc, decodeURIComponent_scalar by exact Hs.
              rewrite Hdec. destruct (decodeURIComponent X); [|reflexivity..].
              cbn [bind]. f_equal.
              unfold utf16Encode. destruct (N.ltb_spec c 65536); [reflexivity | lia].
Qed.

(** ** Splitting and joining *)

Lemma split_nonEmpty sep s : split sep s <> [].
Proof.
  destruct s as [|c rest]; simpl; [discriminate|].
  destruct (c =? sep); [discriminate|]. destruct (split sep rest); discriminate.
Qed.

Lemma split_app sep a b :
  split sep (a ++ sep :: b) = split sep a ++ split sep b.
Proof.
  induction a as [|c a IH]; simpl.
  - rewrite N.eqb_refl. reflexivity.
  - destruct (c =? sep); [rewrite IH; reflexivity|].
    rewrite IH. pose proof (split_nonEmpty sep a) as Hne.
    destruct (split sep a); [contradiction | reflexivity].
Qed.

Lemma split_none sep a :
  Forall (fun c => c <> sep) a -> split sep a = [a].
Proof.
  induction 1 as [|c a Hc _ IH]; simpl; [reflexivity|].
  destruct (N.eqb_spec c sep); [contradiction|]. rewrite IH. reflexivity.
Qed.

Lemma pairsOf_join parts :
  filter nonEmpty (split 38 (join [38] parts)) = pairsOf parts.
Proof.
  unfold pairsOf. induction parts as [|p rest IH]; [reflexivity|].
  assert (Hj : rest <> [] -> join [38] (p :: rest) = p ++ 38 :: join [38] rest).
  { destruct rest; [congruence | reflexivity]. }
  destruct rest as [|p' rest'] eqn:Er.
  - simpl. rewrite app_nil_r. reflexivity.
  - rewrite <- Er in *. rewrite Hj by (subst rest; discriminate).
    rewrite split_app, filter_app, IH.
    cbn [map concat]. rewrite !filter_app. reflexivity.
Qed.

Lemma pairsOf_app a b : pairsOf (a ++ b) = pairsOf a ++ pairsOf b.
Proof.
  unfold pairsOf. rewrite map_app, concat_app, filter_app. reflexivity.
Qed.

Lemma pairsOf_single q :
  nonEmpty q = true -> Forall (fun c => c <> 38) q -> pairsOf [q] = [q].
Proof.
  intros Hne Hq. unfold pairsOf. cbn [map concat].
  rewrite split_none by exact Hq. simpl. rewrite Hne. reflexivity.
Qed.

Lemma pairsOf_nested nested :
  pairsOf (if nonEmpty (join [38] nested) then [join [38] nested] else [])
  = pairsOf nested.
Proof.
  rewrite <- (pairsOf_join nested).
  destruct (join [38] nested) eqn:E; [reflexivity|].
  cbn [nonEmpty]. unfold pairsOf. cbn [map concat]. rewrite app_nil_r. reflexivity.
Qed.

Lemma decodePairs_app a b obj :
  decodePairs (a ++ b) obj = (obj' <- decodePairs a obj ;; decodePairs b obj').
Proof.
  revert obj. induction a as [|q a IH]; intro obj; [reflexivity|].
  cbn [app decodePairs]. destruct (decodePair q obj); cbn [bind]; auto.
Qed.

Lemma assignAll_app a b cur :
  assignAll (a ++ b) cur = (cur' <- assignAll a cur ;; assignAll b cur').
Proof.
  revert cur. induction a as [|l a IH]; intro cur; [reflexivity|].
  cbn [app assignAll]. destruct (assignSegments _ _ cur); cbn [bind]; auto.
Qed.

(** ** Tokenizing a path key *)

Lemma takeWhile_app_stop {A} (f : A -> bool) a c rest :
  forallb f a = true -> f c = false ->
  takeWhile f (a ++ c :: rest) = a /\ dropWhile f (a ++ c :: rest) = c :: rest.
Proof.
  intros Ha Hc. induction a as [|x a IH]; simpl.
  - rewrite Hc. split; reflexivity.
  - simpl in Ha. apply andb_true_iff in Ha. destruct Ha as [Hx Ha].
    rewrite Hx. destruct (IH Ha) as [IH1 IH2]. rewrite IH1, IH2. split; reflexivity.
Qed.

Lemma matchFrom_groups ks : forall fuel,
  Forall (fun k => forallb notBracket k = true) ks ->
  (length (concat (map segmentOf ks)) <= fuel)%nat ->
  matchFrom fuel (concat (map segmentOf ks)) = map segmentOf ks.
Proof.
  induction ks as [|k ks IH]; intros fuel Hks Hlen.
  - destruct fuel; reflexivity.
  - inversion Hks as [|? ? Hk Hks']; subst.
    cbn [map concat] in *. unfold segmentOf at 1 in Hlen. unfold segmentOf at 1.
    cbn [app] in *. rewrite <- app_assoc in *. cbn [app] in *.
    destruct fuel as [|fuel]; [simpl in Hlen; lia|].
    cbn [matchFrom]. change (notBracket 91) with false. cbv iota.
    change (91 =? 91) with true. cbv iota.
    destruct (takeWhile_app_stop notBracket k 93 (concat (map segmentOf ks)) Hk eq_refl)
      as [Ht Hd].
    rewrite Hd, Ht. f_equal.
    apply IH; [exact Hks'|].
    simpl in Hlen. rewrite length_app in Hlen. simpl in Hlen. lia.
Qed.

(** The key of a path is tokenized into the first key and one bracket group
    per further key. *)
Lemma matchSegments_pathKey k0 ks :
  forallb notBracket k0 = true -> nonEmpty k0 = true ->
  Forall (fun k => forallb notBracket k = true) ks ->
  matchSegments (pathKey (k0 :: ks)) = k0 :: map segmentOf ks.
Proof.
  intros Hk0 Hne Hks. unfold matchSegments, pathKey.
  destruct k0 as [|c k0']; [discriminate|].
  cbn [app length matchFrom].
  pose proof Hk0 as Hk0'. simpl in Hk0'. apply andb_true_iff in Hk0'.
  destruct Hk0' as [Hc _]. rewrite Hc.
  assert (Hsplit : takeWhile notBracket (c :: k0' ++ concat (map segmentOf ks)) = c :: k0'
                   /\ dropWhile notBracket (c :: k0' ++ concat (map segmentOf ks))
                      = concat (map segmentOf ks)).
  { destruct ks as [|k ks'].
    - cbn [map concat]. rewrite app_nil_r.
      rewrite (takeWhile_all _ _ Hk0), (dropWhile_all _ _ Hk0). split; reflexivity.
    - cbn [map concat].
      assert (Hseg : segmentOf k ++ concat (map segmentOf ks')
                     = 91 :: (k ++ 93 :: concat (map segmentOf ks'))).
      { unfold segmentOf. cbn [app]. rewrite <- app_assoc. reflexivity. }
      rewrite Hseg.
      exact (takeWhile_app_stop notBracket (c :: k0') 91 _ Hk0 eq_refl). }
  destruct Hsplit as [Ht Hd]. rewrite Ht, Hd. f_equal.
  apply matchFrom_groups; [exact Hks|]. rewrite length_app. lia.
Qed.

Lemma cleanSegment_segmentOf k :
  forallb notBracket k = true -> cleanSegment (segmentOf k) = k.
Proof.
  intro H. unfold cleanSegment, segmentOf. cbn [app filter].
  change (notBracket 91) with false. cbv iota.
  rewrite filter_app. cbn [filter]. change (notBracket 93) with false. cbv iota.
  rewrite app_nil_r. apply filter_all, H.
Qed.

Lemma cleanSegment_plain k : forallb notBracket k = true -> cleanSegment k = k.
Proof. apply filter_all. Qed.

(** The walk reads its segments only with their brackets removed. *)
Lemma assignSegments_clean segs : forall value cur,
  assignSegments segs value cur = assignSegments (map cleanSegment segs) value cur.
Proof.
  assert (Hidem : forall seg, cleanSegment (cleanSegment seg) = cleanSegment seg).
  { intro seg. apply filter_all. apply forallb_forall.
    intros x Hx. apply filter_In in Hx. tauto. }
  induction segs as [|seg rest IH]; intros value cur; [reflexivity|].
  destruct rest as [|next rest'].
  - cbn [map assignSegments]. rewrite Hidem. reflexivity.
  - change (map cleanSegment (seg :: next :: rest'))
      with (cleanSegment seg :: cleanSegment next :: map cleanSegment rest').
    rewrite !assignSegments_unfold, !Hidem.
    destruct (getProp cur (cleanSegment seg)); cbn [bind]; try reflexivity.
    destruct (truthy a).
    + rewrite IH. reflexivity.
    + destruct (setProp cur (cleanSegment seg) _); cbn [bind]; try reflexivity.
      destruct (getProp a0 (cleanSegment seg)); cbn [bind]; try reflexivity.
      rewrite IH. reflexivity.
Qed.

Lemma assignSegments_path k0 ks value cur :
  forallb notBracket k0 = true ->
  Forall (fun k => forallb notBracket k = true) ks ->
  assignSegments (k0 :: map segmentOf ks) value cur
  = assignSegments (k0 :: ks) value cur.
Proof.
  intros Hk0 Hks. rewrite assignSegments_clean. f_equal.
  cbn [map]. rewrite (cleanSegment_plain k0 Hk0). f_equal.
  induction Hks as [|k ks Hk _ IH]; [reflexivity|].
  cbn [map]. rewrite (cleanSegment_segmentOf k Hk), IH. reflexivity.
Qed.

(** ** Well-formed strings *)

Lemma isWellFormed_app n : forall a,
  (length a <= n)%nat -> isWellFormed a = true ->
  forall b, isWellFormed b = true -> isWellFormed (a ++ b) = true.
Proof.
  induction n as [|n IH]; intros a Hlen Ha b Hb.
  - destruct a; [exact Hb | simpl in Hlen; lia].
  - destruct a as [|c rest]; [exact Hb|]. simpl in Hlen.
    cbn [app isWellFormed] in *.
    destruct (isTrailSurrogate c); [discriminate|].
    destruct (isLeadSurrogate c).
    + destruct rest as [|d rest']; [discriminate|]. cbn [app].
      apply andb_true_iff in Ha. destruct Ha as [Hd Ha]. rewrite Hd.
      apply IH; [simpl in Hlen; lia | exact Ha | exact Hb].
    + apply IH; [lia | exact Ha | exact Hb].
Qed.

Lemma wellFormed_app a b :
  wellFormed a = true -> wellFormed b = true -> wellFormed (a ++ b) = true.
Proof.
  unfold wellFormed, codeUnits. intros Ha Hb.
  apply andb_true_iff in Ha. apply andb_true_iff in Hb.
  destruct Ha as [Ha1 Ha2], Hb as [Hb1 Hb2].
  rewrite forallb_app, Ha1, Hb1. cbn [andb].
  exact (isWellFormed_app (length a) a (le_n _) Ha2 b Hb2).
Qed.

Lemma wellFormed_below s :
  Forall (fun c => c < 0xD800) s -> wellFormed s = true.
Proof.
  induction 1 as [|c s Hc _ IH]; [reflexivity|].
  unfold wellFormed in *. apply andb_true_iff in IH. destruct IH as [IH1 IH2].
  cbn [codeUnits forallb isWellFormed]. fold (codeUnits s). rewrite IH1.
  unfold isTrailSurrogate, isLeadSurrogate.
  destruct (N.ltb_spec c 65536); [|lia].
  destruct (N.leb_spec 56320 c); [lia|].
  destruct (N.leb_spec 55296 c); [lia|]. exact IH2.
Qed.

Lemma wellFormed_decimal i : wellFormed (decimal i) = true.
Proof.
  apply wellFormed_below. pose proof (decimal_digits i) as H.
  rewrite forallb_forall in H. apply Forall_forall. intros c Hc.
  specialize (H c Hc). unfold isDigit in H. bool_to_prop. lia.
Qed.

Lemma keyChars_decimal i : keyChars (decimal i) = true.
Proof.
  unfold keyChars. rewrite wellFormed_decimal, decimal_nonEmpty.
  cbn [andb]. rewrite andb_true_r. apply forallb_forall. intros c Hc.
  pose proof (decimal_digits i) as H. rewrite forallb_forall in H.
  specialize (H c Hc). unfold isDigit in H. unfold notBracket. bool_to_prop.
  destruct (N.eqb_spec c 91); [lia|]. destruct (N.eqb_spec c 93); [lia|]. reflexivity.
Qed.

Lemma wellFormed_segmentOf k : wellFormed k = true -> wellFormed (segmentOf k) = true.
Proof.
  intro H. unfold segmentOf.
  apply wellFormed_app; [reflexivity|]. apply wellFormed_app; [exact H | reflexivity].
Qed.

Lemma wellFormed_pathKey path :
  Forall (fun k => keyChars k = true) path -> wellFormed (pathKey path) = true.
Proof.
  intro H. destruct path as [|k0 ks]; [reflexivity|].
  inversion H as [|? ? Hk0 Hks]; subst. cbn [pathKey].
  apply wellFormed_app.
  - unfold keyChars in Hk0. apply andb_true_iff in Hk0. destruct Hk0 as [Hk0 _].
    apply andb_true_iff in Hk0. tauto.
  - clear H Hk0. induction Hks as [|k ks Hk _ IH]; [reflexivity|].
    cbn [map concat]. apply wellFormed_app; [|exact IH].
    apply wellFormed_segmentOf.
    unfold keyChars in Hk. apply andb_true_iff in Hk. destruct Hk as [Hk _].
    apply andb_true_iff in Hk. tauto.
Qed.

(** ** Decoding what was encoded for one leaf *)

Lemma uriChar_not c : uriChar c = true -> c <> 38 /\ c <> 61 /\ c <> 63.
Proof.
  intro H. repeat split; intro; subst c; discriminate.
Qed.

Lemma uri_roundtrip_whole s :
  wellFormed s = true ->
  exists e,
    encodeURIComponent s = Ok e
    /\ Forall (fun c => uriChar c = true) e
    /\ (forall X, decodeURIComponent (e ++ X)
                  = (r <- decodeURIComponent X ;; Ok (s ++ r)))
    /\ decodeURIComponent e = Ok s.
Proof.
  intro Hwf. destruct (uri_roundtrip (length s) s (le_n _) Hwf) as (e & He & Hch & Hdec).
  exists e. repeat split; try assumption.
  specialize (Hdec []). rewrite !app_nil_r in Hdec.
  rewrite Hdec. simpl. rewrite app_nil_r. reflexivity.
Qed.

Lemma decodeURIComponent_literal X :
  Forall (fun c => c <> 37) X -> decodeURIComponent X = Ok X.
Proof.
  induction 1 as [|c X Hc _ IH]; [reflexivity|].
  rewrite decodeURIComponent_plain by exact Hc. rewrite IH. reflexivity.
Qed.

Lemma pathKey_snoc path k :
  path <> [] -> pathKey (path ++ [k]) = pathKey path ++ segmentOf k.
Proof.
  destruct path as [|k0 ks]; [congruence|]. intros _.
  cbn [app pathKey]. rewrite map_app, concat_app. cbn [map concat].
  rewrite app_nil_r, app_assoc. reflexivity.
Qed.

Lemma keyChars_parts k :
  keyChars k = true ->
  wellFormed k = true /\ forallb notBracket k = true /\ nonEmpty k = true.
Proof.
  unfold keyChars. intro H. apply andb_true_iff in H. destruct H as [H H3].
  apply andb_true_iff in H. tauto.
Qed.

Lemma keyChars_notBracket path :
  Forall (fun k => keyChars k = true) path ->
  Forall (fun k => forallb notBracket k = true) path.
Proof.
  apply Forall_impl. intros k Hk. apply keyChars_parts in Hk. tauto.
Qed.

(** A pair whose two sides decode to the key of a path and to a string is
    read as the assignment of the string along the path. *)
Lemma decodePair_path L ev path s obj :
  Forall (fun c => c <> 61) L -> Forall (fun c => c <> 61) ev ->
  decodeURIComponent L = Ok (pathKey path) ->
  decodeURIComponent ev = Ok s ->
  path <> [] -> Forall (fun k => keyChars k = true) path ->
  decodePair (L ++ 61 :: ev) obj = assignSegments path (VStr s) obj.
Proof.
  intros HL Hev HdL Hdev Hne Hpath.
  destruct path as [|k0 ks]; [congruence|].
  inversion Hpath as [|? ? Hk0 Hks]; subst.
  apply keyChars_parts in Hk0. destruct Hk0 as (_ & Hnb & Hne0).
  apply keyChars_notBracket in Hks.
  unfold decodePair. rewrite split_app, (split_none 61 L HL), (split_none 61 ev Hev).
  cbn [app mapM]. rewrite HdL, Hdev. cbn [bind hd].
  assert (Hk : nonEmpty (pathKey (k0 :: ks)) = true).
  { destruct k0; [discriminate | reflexivity]. }
  rewrite Hk. cbn [negb].
  rewrite (matchSegments_pathKey k0 ks Hnb Hne0 Hks).
  apply assignSegments_path; assumption.
Qed.

Lemma Forall_uriChar_not e :
  Forall (fun c => uriChar c = true) e ->
  Forall (fun c => c <> 38) e /\ Forall (fun c => c <> 61) e
  /\ Forall (fun c => c <> 63) e.
Proof.
  intro H. repeat split; eapply Forall_impl; try exact H;
    intros c Hc; apply uriChar_not in Hc; tauto.
Qed.

Lemma decimal_chars i :
  Forall (fun c => c <> 37 /\ c <> 38 /\ c <> 61 /\ c <> 63) (decimal i).
Proof.
  pose proof (decimal_digits i) as H. rewrite forallb_forall in H.
  apply Forall_forall. intros c Hc. specialize (H c Hc).
  unfold isDigit in H. bool_to_prop. lia.
Qed.

(** The part [objectToQueryString] pushes for a scalar under a mapping key
    decodes to the assignment of its string. *)
Lemma encodeScalar_decodes path v :
  path <> [] -> Forall (fun k => keyChars k = true) path ->
  wellFormed (toString v) = true ->
  exists q,
    encodeScalar (pathKey path) v = Ok q
    /\ pairsOf [q] = [q]
    /\ Forall (fun c => c <> 63) q
    /\ forall obj, decodePair q obj = assignSegments path (VStr (toString v)) obj.
Proof.
  intros Hne Hpath Hwv. pose proof (wellFormed_pathKey path Hpath) as Hwk.
  destruct (uri_roundtrip_whole _ Hwk) as (ek & Hek & Hck & _ & Hdk).
  destruct (uri_roundtrip_whole _ Hwv) as (ev & Hev & Hcv & _ & Hdv).
  destruct (Forall_uriChar_not ek Hck) as (Hk38 & Hk61 & Hk63).
  destruct (Forall_uriChar_not ev Hcv) as (Hv38 & Hv61 & Hv63).
  exists (ek ++ [61] ++ ev). unfold encodeScalar. rewrite Hek, Hev. cbn [bind].
  split; [reflexivity|]. split; [|split].
  - apply pairsOf_single.
    + destruct ek; reflexivity.
    + apply Forall_app. split; [exact Hk38|]. constructor; [discriminate | exact Hv38].
  - apply Forall_app. split; [exact Hk63|]. constructor; [discriminate | exact Hv63].
  - intro obj. apply decodePair_path; assumption.
Qed.

(** The part pushed for a scalar element of an array decodes likewise, its
    index being the last key of the path. *)
Lemma encodeItem_decodes path i v :
  path <> [] -> Forall (fun k => keyChars k = true) path ->
  wellFormed (toString v) = true ->
  exists q,
    encodeItem (pathKey path) i v = Ok q
    /\ pairsOf [q] = [q]
    /\ Forall (fun c => c <> 63) q
    /\ forall obj, decodePair q obj
                   = assignSegments (path ++ [decimal i]) (VStr (toString v)) obj.
Proof.
  intros Hne Hpath Hwv. pose proof (wellFormed_pathKey path Hpath) as Hwk.
  destruct (uri_roundtrip_whole _ Hwk) as (ek & Hek & Hck & HdX & _).
  destruct (uri_roundtrip_whole _ Hwv) as (ev & Hev & Hcv & _ & Hdv).
  destruct (Forall_uriChar_not ek Hck) as (Hk38 & Hk61 & Hk63).
  destruct (Forall_uriChar_not ev Hcv) as (Hv38 & Hv61 & Hv63).
  pose proof (decimal_chars i) as Hdig.
  assert (Hseg : Forall (fun c => c <> 37 /\ c <> 38 /\ c <> 61 /\ c <> 63)
                   (segmentOf (decimal i))).
  { unfold segmentOf. cbn [app]. constructor; [repeat split; discriminate|].
    apply Forall_app. split; [exact Hdig|].
    constructor; [repeat split; discriminate | constructor]. }
  exists ((ek ++ segmentOf (decimal i)) ++ 61 :: ev).
  unfold encodeItem. rewrite Hek, Hev. cbn [bind]. split.
  { f_equal. unfold segmentOf. rewrite <- !app_assoc. reflexivity. }
  split; [|split].
  - apply pairsOf_single.
    + destruct ek; reflexivity.
    + apply Forall_app. split; [apply Forall_app; split; [exact Hk38|]|].
      * eapply Forall_impl; [|exact Hseg]. intros c Hc; cbv beta in *; tauto.
      * constructor; [discriminate | exact Hv38].
  - apply Forall_app. split; [apply Forall_app; split; [exact Hk63|]|].
    + eapply Forall_impl; [|exact Hseg]. intros c Hc; cbv beta in *; tauto.
    + constructor; [discriminate | exact Hv63].
  - intro obj. apply decodePair_path; try assumption.
    + apply Forall_app. split; [exact Hk61|].
      eapply Forall_impl; [|exact Hseg]. intros c Hc; cbv beta in *; tauto.
    + rewrite HdX, decodeURIComponent_literal.
      * cbn [bind]. rewrite pathKey_snoc by exact Hne. reflexivity.
      * eapply Forall_impl; [|exact Hseg]. intros c Hc; cbv beta in *; tauto.
    + destruct path; discriminate.
    + apply Forall_app. split; [exact Hpath|]. constructor; [|constructor].
      apply keyChars_decimal.
Qed.


(** ** What the encoder writes decodes to the leaves *)

Lemma decodesTo_nil : decodesTo [] [].
Proof. split; [constructor | reflexivity]. Qed.

Lemma decodesTo_app a b la lb :
  decodesTo a la -> decodesTo b lb -> decodesTo (a ++ b) (la ++ lb).
Proof.
  intros [Ha1 Ha2] [Hb1 Hb2]. split.
  - apply Forall_app. split; assumption.
  - intro obj. rewrite pairsOf_app, decodePairs_app, assignAll_app, Ha2.
    destruct (assignAll la obj); cbn [bind]; auto.
Qed.

Lemma join_chars (Q : N -> Prop) sep parts :
  Forall Q sep -> Forall (Forall Q) parts -> Forall Q (join sep parts).
Proof.
  intros Hsep. induction 1 as [|p rest Hp Hrest IH]; [constructor|].
  destruct rest as [|p' rest']; [exact Hp|].
  change (join sep (p :: p' :: rest')) with (p ++ sep ++ join sep (p' :: rest')).
  apply Forall_app. split; [exact Hp|]. apply Forall_app. split; [exact Hsep | exact IH].
Qed.

Lemma pairsOf_joined nested : pairsOf [join [38] nested] = pairsOf nested.
Proof.
  rewrite <- (pairsOf_join nested). unfold pairsOf. cbn [map concat].
  rewrite app_nil_r. reflexivity.
Qed.

Lemma decodesTo_joined nested ls :
  decodesTo nested ls -> decodesTo [join [38] nested] ls.
Proof.
  intros [H1 H2]. split.
  - constructor; [|constructor]. apply join_chars; [|exact H1].
    constructor; [discriminate | constructor].
  - intro obj. rewrite pairsOf_joined. apply H2.
Qed.

Lemma decodesTo_nested nested ls :
  decodesTo nested ls ->
  decodesTo (if nonEmpty (join [38] nested) then [join [38] nested] else []) ls.
Proof.
  intros H. pose proof (decodesTo_joined nested ls H) as [J1 J2].
  destruct H as [H1 H2]. split.
  - destruct (nonEmpty (join [38] nested)); [exact J1 | constructor].
  - intro obj. rewrite pairsOf_nested. apply H2.
Qed.

Lemma decodesTo_one q l :
  pairsOf [q] = [q] -> Forall (fun c => c <> 63) q ->
  (forall obj, decodePair q obj = assignSegments (fst l) (VStr (snd l)) obj) ->
  decodesTo [q] [l].
Proof.
  intros Hp Hq Hd. split; [constructor; [exact Hq | constructor]|].
  intro obj. rewrite Hp. cbn [decodePairs assignAll]. rewrite Hd.
  destruct (assignSegments (fst l) (VStr (snd l)) obj); reflexivity.
Qed.

Lemma fullKeyOf_pathKey path k :
  Forall (fun k => keyChars k = true) path ->
  fullKeyOf (pathKey path) k = pathKey (path ++ [k]).
Proof.
  intro H. destruct path as [|k0 ks].
  - cbn. rewrite app_nil_r. reflexivity.
  - rewrite pathKey_snoc by discriminate.
    inversion H as [|? ? Hk0 _]; subst. apply keyChars_parts in Hk0.
    destruct Hk0 as (_ & _ & Hne). unfold fullKeyOf.
    assert (Hn : nonEmpty (pathKey (k0 :: ks)) = true).
    { destruct k0; [discriminate | reflexivity]. }
    rewrite Hn. reflexivity.
Qed.

Lemma bracketed_pathKey path k :
  path <> [] -> bracketed (pathKey path) k = pathKey (path ++ [k]).
Proof.
  intro H. rewrite pathKey_snoc by exact H. reflexivity.
Qed.

Lemma below_snoc path k ls :
  map (below (path ++ [k])) ls = map (below path) (map (under k) ls).
Proof.
  rewrite map_map. apply map_ext. intros [p x]. unfold below, under. cbn [fst snd].
  rewrite <- app_assoc. reflexivity.
Qed.

Lemma rootKey_keyChars k v : rootKey k v = true -> keyChars k = true.
Proof.
  unfold rootKey. intro H. apply andb_true_iff in H. destruct H as [H _].
  apply andb_true_iff in H. tauto.
Qed.

Lemma nestedKey_rootKey k v : nestedKey k v = true -> rootKey k v = true.
Proof.
  unfold nestedKey. intro H. apply andb_true_iff in H. tauto.
Qed.

Lemma supportedEntries_cons keyOk k v rest :
  supportedEntries keyOk supported ((k, v) :: rest) = true ->
  keyOk k v = true /\ supported v = true /\ ~ In k (map fst rest)
  /\ Forall (fun k' => before k k' = true) (map fst rest)
  /\ supportedEntries keyOk supported rest = true.
Proof.
  cbn [supportedEntries]. intro H.
  apply andb_true_iff in H. destruct H as [H H5].
  apply andb_true_iff in H. destruct H as [H H4].
  apply andb_true_iff in H. destruct H as [H H3].
  apply andb_true_iff in H. destruct H as [H1 H2].
  repeat split; try assumption.
  - apply negb_true_iff in H3. unfold mem in H3. intro Hin.
    assert (existsb (str_eqb k) (map fst rest) = true); [|congruence].
    apply existsb_exists. exists k. split; [exact Hin|].
    unfold str_eqb. destruct (list_eq_dec N.eq_dec k k); congruence.
  - apply Forall_forall. rewrite forallb_forall in H4. exact H4.
Qed.


Lemma entries_encode keyOk props :
  (forall k v, keyOk k v = true -> keyChars k = true) ->
  Forall (fun kv => encodesTo (snd kv)) props ->
  supportedEntries keyOk supported props = true ->
  forall path, Forall (fun k => keyChars k = true) path ->
    exists parts,
      entriesParts props (pathKey path) = Ok parts
      /\ decodesTo parts (map (below path) (entryLeaves leaves props)).
Proof.
  intro HkeyOk.
  induction 1 as [|[k v] rest Hv _ IH]; intros Hsup path Hpath.
  - exists []. split; [reflexivity | apply decodesTo_nil].
  - apply supportedEntries_cons in Hsup. destruct Hsup as (Hk & Hsv & _ & _ & Hrest).
    destruct (IH Hrest path Hpath) as (more & Hmore & Dmore).
    cbn [snd] in Hv. destruct (Hv Hsv) as [Hentry _].
    destruct (Hentry (path ++ [k])) as (pushed & Hpushed & Dpushed).
    { destruct path; discriminate. }
    { apply Forall_app. split; [exact Hpath|].
      constructor; [exact (HkeyOk k v Hk) | constructor]. }
    exists (pushed ++ more). split.
    + unfold entriesParts in *. cbn [entriesPartsWith].
      rewrite fullKeyOf_pathKey by exact Hpath. rewrite Hpushed. cbn [bind].
      rewrite Hmore. reflexivity.
    + cbn [entryLeaves]. rewrite map_app, <- below_snoc.
      apply decodesTo_app; assumption.
Qed.

Lemma indexed_encode elems :
  Forall encodesTo elems -> forallb supported elems = true ->
  forall path i, path <> [] -> Forall (fun k => keyChars k = true) path ->
    exists parts,
      indexedParts elems (pathKey path) i = Ok parts
      /\ decodesTo parts (map (below path) (itemLeaves leaves elems i)).
Proof.
  induction 1 as [|v rest Hv _ IH]; intros Hsup path i Hne Hpath.
  - exists []. split; [reflexivity | apply decodesTo_nil].
  - cbn [forallb] in Hsup. apply andb_true_iff in Hsup. destruct Hsup as [Hsv Hrest].
    destruct (IH Hrest path (i + 1) Hne Hpath) as (more & Hmore & Dmore).
    destruct (Hv Hsv) as [Hentry _].
    destruct (Hentry (path ++ [decimal i])) as (pushed & Hpushed & Dpushed).
    { destruct path; discriminate. }
    { apply Forall_app. split; [exact Hpath|].
      constructor; [apply keyChars_decimal | constructor]. }
    exists (pushed ++ more). split.
    + unfold indexedParts in *. cbn [indexedPartsWith].
      rewrite fullKeyOf_pathKey by exact Hpath. rewrite Hpushed. cbn [bind].
      rewrite Hmore. reflexivity.
    + cbn [itemLeaves]. rewrite map_app, <- below_snoc.
      apply decodesTo_app; assumption.
Qed.

Lemma supported_array elems props :
  supported (VArr elems props) = true ->
  nonEmpty elems = true /\ forallb supported elems = true /\ props = []
  /\ N.of_nat (length elems) <= 4294967295.
Proof.
  cbn [supported]. intro H.
  apply andb_true_iff in H. destruct H as [H H4].
  apply andb_true_iff in H. destruct H as [H H3].
  apply andb_true_iff in H. destruct H as [H1 H2].
  repeat split; try assumption.
  - destruct props; [reflexivity | discriminate].
  - apply N.leb_le. exact H4.
Qed.

Lemma supported_object props :
  supported (VObj props) = true ->
  nonEmpty props = true /\ supportedEntries nestedKey supported props = true.
Proof. cbn [supported]. intro H. apply andb_true_iff in H. exact H. Qed.

Lemma items_encode elems :
  Forall encodesTo elems -> forallb supported elems = true ->
  forall path i, path <> [] -> Forall (fun k => keyChars k = true) path ->
    exists parts,
      itemsParts elems (pathKey path) i = Ok parts
      /\ decodesTo parts (map (below path) (itemLeaves leaves elems i)).
Proof.
  induction 1 as [|v rest Hv _ IH]; intros Hsup path i Hne Hpath.
  - exists []. split; [reflexivity | apply decodesTo_nil].
  - cbn [forallb] in Hsup. apply andb_true_iff in Hsup. destruct Hsup as [Hsv Hrest].
    destruct (IH Hrest path (i + 1) Hne Hpath) as (more & Hmore & Dmore).
    assert (Hpath' : Forall (fun k => keyChars k = true) (path ++ [decimal i])).
    { apply Forall_app. split; [exact Hpath|].
      constructor; [apply keyChars_decimal | constructor]. }
    assert (Hne' : path ++ [decimal i] <> []) by (destruct path; discriminate).
    assert (Hitem : exists pushed,
               match v with
               | VObj props =>
                   nested <- entriesPartsWith entryParts props
                               (bracketed (pathKey path) (decimal i)) ;;
                   Ok [join [38] nested]
               | VArr elems' props =>
                   indexed <- indexedPartsWith entryParts elems'
                                (bracketed (pathKey path) (decimal i)) 0 ;;
                   named <- entriesPartsWith entryParts props
                              (bracketed (pathKey path) (decimal i)) ;;
                   Ok [join [38] (indexed ++ named)]
               | VNull | VUndef => Ok []
               | _ => part <- encodeItem (pathKey path) i v ;; Ok [part]
               end = Ok pushed
               /\ decodesTo pushed (map (below path) (map (under (decimal i)) (leaves v)))).
    { rewrite <- below_snoc, (bracketed_pathKey path (decimal i) Hne).
      destruct v as [| | b | repr | str | props | elems' props]; try discriminate.
      - destruct (encodeItem_decodes path i (VBool b) Hne Hpath) as (q & Hq & Hp & H63 & Hd).
        { destruct b; reflexivity. }
        exists [q]. rewrite Hq. split; [reflexivity|].
        cbn [leaves map]. apply decodesTo_one; try assumption.
        intro obj. unfold below. cbn [fst snd]. rewrite app_nil_r. apply Hd.
      - destruct (encodeItem_decodes path i (VNum repr) Hne Hpath Hsv)
          as (q & Hq & Hp & H63 & Hd).
        exists [q]. rewrite Hq. split; [reflexivity|].
        cbn [leaves map]. apply decodesTo_one; try assumption.
        intro obj. unfold below. cbn [fst snd]. rewrite app_nil_r. apply Hd.
      - destruct (encodeItem_decodes path i (VStr str) Hne Hpath Hsv)
          as (q & Hq & Hp & H63 & Hd).
        exists [q]. rewrite Hq. split; [reflexivity|].
        cbn [leaves map]. apply decodesTo_one; try assumption.
        intro obj. unfold below. cbn [fst snd]. rewrite app_nil_r. apply Hd.
      - destruct (Hv Hsv) as [_ Hobj].
        destruct (Hobj eq_refl (path ++ [decimal i]) Hne' Hpath') as (nested & Hn & Dn).
        cbn [queryPartsOf] in Hn. unfold entriesParts in Hn.
        exists [join [38] nested]. rewrite Hn. split; [reflexivity|].
        apply decodesTo_joined. exact Dn.
      - destruct (Hv Hsv) as [_ Hobj].
        destruct (Hobj eq_refl (path ++ [decimal i]) Hne' Hpath') as (parts & Hn & Dn).
        cbn [queryPartsOf] in Hn. unfold entriesParts, indexedParts in Hn.
        destruct (indexedPartsWith entryParts elems' (pathKey (path ++ [decimal i])) 0)
          as [indexed| |]; cbn [bind] in *; try discriminate.
        destruct (entriesPartsWith entryParts props (pathKey (path ++ [decimal i])))
          as [named| |]; cbn [bind] in *; try discriminate.
        inversion Hn; subst parts.
        exists [join [38] (indexed ++ named)]. split; [reflexivity|].
        apply decodesTo_joined. exact Dn. }
    destruct Hitem as (pushed & Hpushed & Dpushed).
    exists (pushed ++ more). split.
    + unfold itemsParts in *. cbn [itemsPartsWith].
      rewrite Hpushed. cbn [bind]. rewrite Hmore. reflexivity.
    + cbn [itemLeaves]. rewrite map_app. apply decodesTo_app; assumption.
Qed.

Lemma value_encodes v : encodesTo v.
Proof.
  induction v as [| | b | repr | str | props IH | elems props IHe IHp]
    using jsvalue_nested_ind; intro Hsup; try discriminate.
  - split; [|discriminate]. intros path Hne Hpath.
    destruct (encodeScalar_decodes path (VBool b) Hne Hpath) as (q & Hq & Hp & H63 & Hd).
    { destruct b; reflexivity. }
    exists [q]. cbn [entryParts]. rewrite Hq. split; [reflexivity|].
    cbn [leaves map]. apply decodesTo_one; try assumption.
    intro obj. unfold below. cbn [fst snd]. rewrite app_nil_r. apply Hd.
  - split; [|discriminate]. intros path Hne Hpath.
    destruct (encodeScalar_decodes path (VNum repr) Hne Hpath Hsup)
      as (q & Hq & Hp & H63 & Hd).
    exists [q]. cbn [entryParts]. rewrite Hq. split; [reflexivity|].
    cbn [leaves map]. apply decodesTo_one; try assumption.
    intro obj. unfold below. cbn [fst snd]. rewrite app_nil_r. apply Hd.
  - split; [|discriminate]. intros path Hne Hpath.
    destruct (encodeScalar_decodes path (VStr str) Hne Hpath Hsup)
      as (q & Hq & Hp & H63 & Hd).
    exists [q]. cbn [entryParts]. rewrite Hq. split; [reflexivity|].
    cbn [leaves map]. apply decodesTo_one; try assumption.
    intro obj. unfold below. cbn [fst snd]. rewrite app_nil_r. apply Hd.
  - destruct (supported_object props Hsup) as [_ Hentries].
    assert (Hboth : forall path, Forall (fun k => keyChars k = true) path ->
              exists parts,
                entriesParts props (pathKey path) = Ok parts
                /\ decodesTo parts (map (below path) (entryLeaves leaves props))).
    { apply (entries_encode nestedKey); try assumption.
      intros k0 v0 Hk0. exact (rootKey_keyChars k0 v0 (nestedKey_rootKey k0 v0 Hk0)). }
    split.
    + intros path Hne Hpath. destruct (Hboth path Hpath) as (nested & Hn & Dn).
      eexists. cbn [entryParts]. unfold entriesParts in Hn. rewrite Hn. cbn [bind].
      split; [reflexivity|]. apply decodesTo_nested. exact Dn.
    + intros _ path Hne Hpath. exact (Hboth path Hpath).
  - destruct (supported_array elems props Hsup) as (_ & Helems & Hprops & _).
    subst props. split.
    + intros path Hne Hpath.
      exact (items_encode elems IHe Helems path 0 Hne Hpath).
    + intros _ path Hne Hpath.
      destruct (indexed_encode elems IHe Helems path 0 Hne Hpath) as (parts & Hp & Dp).
      exists parts. cbn [queryPartsOf]. rewrite Hp.
      unfold entriesParts. cbn [entriesPartsWith bind].
      rewrite app_nil_r. split; [reflexivity | exact Dp].
Qed.

(** ** Assigning the leaves rebuilds the tree *)

Lemma setProp_container cur k v cur' :
  isContainer cur = true -> setProp cur k v = Ok cur' -> isContainer cur' = true.
Proof.
  destruct cur as [| | | | |props|elems props]; try discriminate; intros _; simpl.
  - destruct (assoc k props); [intro H; inversion H; reflexivity|].
    destruct (str_eqb k protoKey); [destruct (ignoredAsPrototype v)|];
      intro H; inversion H; reflexivity.
  - destruct (arrayIndex k); [intro H; inversion H; reflexivity|].
    destruct (str_eqb k lengthKey); [discriminate|].
    destruct (assoc k props); [intro H; inversion H; reflexivity|].
    destruct (str_eqb k protoKey); [destruct (ignoredAsPrototype v)|];
      intro H; inversion H; reflexivity.
Qed.

Lemma putChild_container cur k child :
  isContainer cur = true -> isContainer (putChild cur k child) = true.
Proof.
  destruct cur; try discriminate; intros _; simpl; [reflexivity|].
  destruct (arrayIndex k); reflexivity.
Qed.

Lemma withChild_container cur k child :
  isContainer cur = true -> isContainer (withChild cur k child) = true.
Proof.
  destruct cur; try discriminate; intros _; simpl; [reflexivity|].
  destruct (arrayIndex k); reflexivity.
Qed.

(** The walk turns a container into a container. *)
Lemma assignSegments_container seg rest value cur cur' :
  isContainer cur = true ->
  assignSegments (seg :: rest) value cur = Ok cur' -> isContainer cur' = true.
Proof.
  intro Hc. destruct rest as [|next rest'].
  - cbn [assignSegments]. apply setProp_container; exact Hc.
  - rewrite assignSegments_unfold.
    destruct (getProp cur (cleanSegment seg)) as [existing| |]; cbn [bind];
      try discriminate.
    destruct (truthy existing).
    + destruct (assignSegments (next :: rest') value existing); cbn [bind];
        try discriminate.
      intro H; inversion H; subst. apply putChild_container; exact Hc.
    + destruct (setProp cur (cleanSegment seg) _) as [level| |] eqn:Es; cbn [bind];
        try discriminate.
      destruct (getProp level (cleanSegment seg)); cbn [bind]; try discriminate.
      destruct (assignSegments (next :: rest') value a); cbn [bind]; try discriminate.
      intro H; inversion H; subst. apply putChild_container.
      exact (setProp_container _ _ _ _ Hc Es).
Qed.

Lemma assignAll_container ls : forall cur cur',
  Forall (fun l => fst l <> []) ls ->
  isContainer cur = true -> assignAll ls cur = Ok cur' -> isContainer cur' = true.
Proof.
  induction ls as [|l ls IH]; intros cur cur' Hls Hc; cbn [assignAll].
  - intro H; inversion H; subst; exact Hc.
  - inversion Hls as [|? ? Hl Hls']; subst.
    destruct (fst l) as [|seg rest] eqn:El; [congruence|].
    destruct (assignSegments (seg :: rest) (VStr (snd l)) cur) as [c| |] eqn:E;
      cbn [bind]; try discriminate.
    apply IH; [exact Hls'|]. exact (assignSegments_container _ _ _ _ _ Hc E).
Qed.

Lemma withChild_withChild cur k a b :
  withChild (withChild cur k a) k b = withChild cur k b.
Proof.
  destruct cur as [| | | | |props|elems props]; simpl; try reflexivity.
  - rewrite define_define. reflexivity.
  - destruct (arrayIndex k) eqn:E; simpl; rewrite E.
    + rewrite setNth_setNth. reflexivity.
    + rewrite define_define. reflexivity.
Qed.

Lemma holdsAt_withChild cur k c : holdsAt cur k -> holdsAt (withChild cur k c) k.
Proof.
  destruct cur; simpl; auto. destruct (arrayIndex k); simpl; auto.
Qed.

Lemma truthy_container c : isContainer c = true -> truthy c = true.
Proof. destruct c; try discriminate; reflexivity. Qed.

(** Leaves under [k], where [k] already holds the container [c]: they are
    assigned inside [c]. *)
Lemma assignAll_inside ls : forall cur k existing c,
  holdsAt cur k -> cleanSegment k = k -> getProp cur k = Ok existing ->
  isContainer c = true ->
  Forall (fun l => fst l <> []) ls ->
  assignAll (map (under k) ls) (withChild cur k c)
  = (c' <- assignAll ls c ;; Ok (withChild cur k c')).
Proof.
  induction ls as [|l ls IH]; intros cur k existing c Hh Hk Hg Hc Hls; [reflexivity|].
  inversion Hls as [|? ? Hl Hls']; subst.
  cbn [map assignAll].
  change (snd (under k l)) with (snd l). change (fst (under k l)) with (k :: fst l).
  destruct (fst l) as [|k1 p] eqn:El; [congruence|].
  destruct (setProp_fresh cur k existing c Hh Hg) as [_ Hread].
  rewrite (assignSegments_step (withChild cur k c) k k1 p _ c);
    [| rewrite Hk; apply holdsAt_withChild; exact Hh | rewrite Hk; exact Hread].
  rewrite (truthy_container c Hc), Hk.
  destruct (assignSegments (k1 :: p) (VStr (snd l)) c) as [c1| |] eqn:E1; cbn [bind];
    try reflexivity.
  rewrite withChild_withChild.
  apply (IH cur k existing c1 Hh Hk Hg); [|exact Hls'].
  exact (assignSegments_container _ _ _ _ _ Hc E1).
Qed.

(** Leaves under [k], where [k] holds nothing truthy: the container is
    created for the first of them, and all are assigned inside it. *)
Lemma assignAll_under l ls cur k existing k1 p :
  holdsAt cur k -> cleanSegment k = k -> getProp cur k = Ok existing ->
  truthy existing = false ->
  fst l = k1 :: p -> Forall (fun l => fst l <> []) ls ->
  assignAll (map (under k) (l :: ls)) cur
  = (c <- assignAll (l :: ls) (newContainer (cleanSegment k1)) ;;
     Ok (withChild cur k c)).
Proof.
  intros Hh Hk Hg Ht El Hls.
  cbn [map assignAll].
  change (snd (under k l)) with (snd l). change (fst (under k l)) with (k :: fst l).
  rewrite El.
  rewrite (assignSegments_step cur k k1 p _ existing);
    [| rewrite Hk; exact Hh | rewrite Hk; exact Hg].
  rewrite Ht, Hk.
  destruct (assignSegments (k1 :: p) (VStr (snd l)) (newContainer (cleanSegment k1)))
    as [c1| |] eqn:E1; cbn [bind]; try reflexivity.
  apply (assignAll_inside ls cur k existing c1 Hh Hk Hg); [|exact Hls].
  refine (assignSegments_container _ _ _ _ _ _ E1).
  unfold newContainer. destruct (isNumeric (cleanSegment k1)); reflexivity.
Qed.

Lemma under_paths k ls : Forall (fun l => fst l <> []) (map (under k) ls).
Proof.
  apply Forall_forall. intros l Hl. apply in_map_iff in Hl.
  destruct Hl as (l0 & <- & _). discriminate.
Qed.

Lemma entryLeaves_paths props : Forall (fun l => fst l <> []) (entryLeaves leaves props).
Proof.
  induction props as [|[k v] rest IH]; [constructor|].
  cbn [entryLeaves]. apply Forall_app. split; [apply under_paths | exact IH].
Qed.

Lemma itemLeaves_paths elems : forall i,
  Forall (fun l => fst l <> []) (itemLeaves leaves elems i).
Proof.
  induction elems as [|v rest IH]; intro i; [constructor|].
  cbn [itemLeaves]. apply Forall_app. split; [apply under_paths | apply IH].
Qed.

(** A supported value has a first leaf. *)
Lemma supported_leaves v :
  supported v = true -> exists l ls, leaves v = l :: ls.
Proof.
  induction v as [| | b | repr | str | props IH | elems props IHe IHp]
    using jsvalue_nested_ind; intro Hsup; try discriminate;
    try (eexists; eexists; reflexivity).
  - destruct (supported_object props Hsup) as [Hne Hentries].
    destruct props as [|[k v] rest]; [discriminate|].
    inversion IH as [|? ? Hv _]; subst.
    apply supportedEntries_cons in Hentries. destruct Hentries as (_ & Hsv & _).
    cbn [snd] in Hv.
    destruct (Hv Hsv) as (l & ls & Hl). cbn [leaves entryLeaves]. rewrite Hl.
    eexists; eexists; reflexivity.
  - destruct (supported_array elems props Hsup) as (Hne & Helems & _).
    destruct elems as [|v rest]; [discriminate|].
    inversion IHe as [|? ? Hv _]; subst. cbn [forallb] in Helems.
    apply andb_true_iff in Helems. destruct Helems as [Hsv _].
    destruct (Hv Hsv) as (l & ls & Hl). cbn [leaves itemLeaves]. rewrite Hl.
    eexists; eexists; reflexivity.
Qed.

Lemma insertNew_append k v props :
  arrayIndex k = None -> insertNew k v props = props ++ [(k, v)].
Proof.
  intro Hk. induction props as [|[k0 v0] rest IH]; simpl; [reflexivity|].
  rewrite Hk, IH. reflexivity.
Qed.

Lemma arrayIndex_numeric k n : arrayIndex k = Some n -> isNumeric k = true.
Proof.
  unfold arrayIndex. destruct (uintOfDigits k) as [d|]; [|discriminate].
  destruct (str_eqb (decimal (N.of_uint d)) k) eqn:E; [|discriminate].
  apply str_eqb_eq in E. intros _. rewrite <- E. apply isNumeric_decimal.
Qed.

Lemma rootKey_parts k v :
  rootKey k v = true ->
  cleanSegment k = k /\ k <> protoKey
  /\ (isContainer v = true -> mem k objectPrototype = false).
Proof.
  unfold rootKey. intro H. apply andb_true_iff in H. destruct H as [H Hproto].
  apply andb_true_iff in H. destruct H as [Hkc Hne].
  apply negb_true_iff in Hne.
  apply keyChars_parts in Hkc. destruct Hkc as (_ & Hnb & _).
  repeat split.
  - apply cleanSegment_plain; exact Hnb.
  - intro; subst k. rewrite str_eqb_refl in Hne. discriminate.
  - intro Hc. rewrite Hc in Hproto. cbn [negb orb] in Hproto.
    apply negb_true_iff in Hproto. exact Hproto.
Qed.

Lemma nestedKey_not_numeric k v : nestedKey k v = true -> isNumeric k = false.
Proof.
  unfold nestedKey. intro H. apply andb_true_iff in H. destruct H as [_ H].
  apply negb_true_iff in H. exact H.
Qed.

(** A key that may come after all the keys there is inserted at the end. *)
Lemma insertNew_ordered k v props :
  Forall (fun k' => before k' k = true) (map fst props) ->
  insertNew k v props = props ++ [(k, v)].
Proof.
  induction props as [|[k0 v0] rest IH]; intro H; [reflexivity|].
  cbn [map fst] in H. inversion H as [|? ? Hb Hrest]; subst.
  cbn [insertNew app]. unfold before in Hb.
  destruct (arrayIndex k) as [i|], (arrayIndex k0) as [i0|]; try discriminate.
  - apply N.ltb_lt in Hb. destruct (N.ltb_spec i i0); [lia|].
    rewrite (IH Hrest). reflexivity.
  - rewrite (IH Hrest). reflexivity.
  - rewrite (IH Hrest). reflexivity.
Qed.

Lemma setNth_length v acc : setNth (length acc) v acc = acc ++ [v].
Proof. induction acc as [|a acc IH]; simpl; [|rewrite IH]; reflexivity. Qed.

Lemma decimal_not_length i : decimal i <> lengthKey.
Proof.
  intro H. pose proof (decimal_digits i) as Hd. rewrite H in Hd. discriminate.
Qed.

Lemma assoc_app k a b :
  assoc k (a ++ b) = match assoc k a with Some v => Some v | None => assoc k b end.
Proof.
  induction a as [|[k0 v0] a IH]; simpl; [reflexivity|].
  destruct (str_eqb k k0); [reflexivity | exact IH].
Qed.

Lemma mem_false_In k l : mem k l = false -> ~ In k l.
Proof.
  unfold mem. intros H Hin. assert (existsb (str_eqb k) l = true); [|congruence].
  apply existsb_exists. exists k. split; [exact Hin | apply str_eqb_refl].
Qed.

(** The entries of a mapping are rebuilt after those already there. *)
Lemma entries_rebuild keyOk props :
  (forall k v, keyOk k v = true -> rootKey k v = true) ->
  Forall (fun kv => rebuilds (snd kv)) props ->
  supportedEntries keyOk supported props = true ->
  forall acc,
    (forall k, In k (map fst props) -> assoc k acc = None) ->
    (forall k' k, In k' (map fst acc) -> In k (map fst props) -> before k' k = true) ->
    assignAll (entryLeaves leaves props) (VObj acc)
    = Ok (VObj (acc ++ normalizeEntries normalize props)).
Proof.
  intro HkeyOk.
  induction 1 as [|[k v] rest Hv _ IH]; intros Hsup acc Hfresh Hord.
  - cbn. rewrite app_nil_r. reflexivity.
  - apply supportedEntries_cons in Hsup.
    destruct Hsup as (Hk & Hsv & Hdistinct & Hbefore & Hrest).
    destruct (rootKey_parts k v (HkeyOk k v Hk)) as (Hclean & Hnp & Hproto).
    assert (Hnone : assoc k acc = None) by (apply Hfresh; left; reflexivity).
    assert (Hins : forall x, insertNew k x acc = acc ++ [(k, x)]).
    { intro x. apply insertNew_ordered. apply Forall_forall. intros k' Hk'.
      apply Hord; [exact Hk' | left; reflexivity]. }
    cbn [entryLeaves normalizeEntries]. rewrite assignAll_app.
    cbn [snd] in Hv. rewrite (Hv Hsv (VObj acc) k I Hclean).
    + cbn [bind withChild]. unfold define. rewrite Hnone, Hins.
      rewrite (IH Hrest).
      * rewrite <- app_assoc. reflexivity.
      * intros k' Hin. rewrite assoc_app, (Hfresh k' (or_intror Hin)).
        cbn [assoc]. rewrite str_eqb_neq; [reflexivity|].
        intro; subst k'. contradiction.
      * intros k' k'' Hin' Hin''. rewrite map_app in Hin'.
        apply in_app_or in Hin'. destruct Hin' as [Hin'|Hin'].
        -- apply Hord; [exact Hin' | right; exact Hin''].
        -- cbn in Hin'. destruct Hin' as [<-|[]].
           rewrite Forall_forall in Hbefore. apply Hbefore. exact Hin''.
    + destruct (isContainer v) eqn:Ec.
      * cbn [getProp]. rewrite Hnone. unfold inherited.
        rewrite (Hproto eq_refl). reflexivity.
      * cbn [setProp withChild]. unfold define. rewrite Hnone.
        rewrite (str_eqb_neq k protoKey Hnp). reflexivity.
Qed.

(** The elements of a sequence are rebuilt after those already there. *)
Lemma items_rebuild elems :
  Forall rebuilds elems -> forallb supported elems = true ->
  forall acc,
    N.of_nat (length acc + length elems) <= 4294967295 ->
    assignAll (itemLeaves leaves elems (N.of_nat (length acc))) (VArr acc [])
    = Ok (VArr (acc ++ map normalize elems) []).
Proof.
  induction 1 as [|v rest Hv _ IH]; intros Hsup acc Hbound.
  - cbn. rewrite app_nil_r. reflexivity.
  - cbn [forallb] in Hsup. apply andb_true_iff in Hsup. destruct Hsup as [Hsv Hrest].
    cbn [length] in Hbound.
    assert (Hidx : arrayIndex (decimal (N.of_nat (length acc)))
                   = Some (N.of_nat (length acc))) by (apply arrayIndex_decimal; lia).
    cbn [itemLeaves map]. rewrite assignAll_app.
    rewrite (Hv Hsv (VArr acc []) (decimal (N.of_nat (length acc)))).
    + cbn [bind withChild]. rewrite Hidx, Nat2N.id, setNth_length.
      replace (N.of_nat (length acc) + 1) with (N.of_nat (length (acc ++ [normalize v])))
        by (rewrite length_app; simpl; lia).
      rewrite (IH Hrest).
      * rewrite <- app_assoc. reflexivity.
      * rewrite length_app. simpl. lia.
    + cbn [holdsAt]. apply decimal_not_length.
    + pose proof (keyChars_decimal (N.of_nat (length acc))) as Hkc.
      apply keyChars_parts in Hkc. apply cleanSegment_plain. tauto.
    + destruct (isContainer v).
      * cbn [getProp]. rewrite Hidx, Nat2N.id. rewrite nth_overflow by lia. reflexivity.
      * cbn [setProp withChild]. rewrite Hidx. reflexivity.
Qed.

Lemma first_entry_leaf k1 v1 rest :
  supported v1 = true ->
  exists l ls p,
    entryLeaves leaves ((k1, v1) :: rest) = l :: ls /\ fst l = k1 :: p.
Proof.
  intro Hsv. destruct (supported_leaves v1 Hsv) as (l1 & ls1 & Hl).
  cbn [entryLeaves]. rewrite Hl. cbn [map app].
  eexists; eexists; eexists. split; reflexivity.
Qed.

Lemma first_item_leaf v rest i :
  supported v = true ->
  exists l ls p,
    itemLeaves leaves (v :: rest) i = l :: ls /\ fst l = decimal i :: p.
Proof.
  intro Hsv. destruct (supported_leaves v Hsv) as (l1 & ls1 & Hl).
  cbn [itemLeaves]. rewrite Hl. cbn [map app].
  eexists; eexists; eexists. split; reflexivity.
Qed.

Lemma value_rebuilds v : rebuilds v.
Proof.
  induction v as [| | b | repr | str | props IH | elems props IHe IHp]
    using jsvalue_nested_ind; intros Hsup cur k Hh Hk Hg; try discriminate.
  - cbn [leaves map assignAll under fst snd normalize assignSegments isContainer] in *.
    rewrite Hk, Hg. reflexivity.
  - cbn [leaves map assignAll under fst snd normalize assignSegments isContainer] in *.
    rewrite Hk, Hg. reflexivity.
  - cbn [leaves map assignAll under fst snd normalize assignSegments isContainer] in *.
    rewrite Hk, Hg. reflexivity.
  - cbn [isContainer] in Hg.
    destruct (supported_object props Hsup) as [Hne Hentries].
    pose proof (entryLeaves_paths props) as Hpaths.
    pose proof (entries_rebuild nestedKey props nestedKey_rootKey IH Hentries []
                  (fun _ _ => eq_refl) (fun _ _ (H : In _ []) _ => match H with end))
      as Hbuild.
    destruct props as [|[k1 v1] rest]; [discriminate|].
    destruct (supportedEntries_cons _ _ _ _ Hentries) as (Hk1 & Hsv & _).
    destruct (first_entry_leaf k1 v1 rest Hsv) as (l & ls & p & Hl & Hp).
    cbn [leaves normalize]. rewrite Hl in *.
    inversion Hpaths as [|? ? _ Hls]; subst.
    rewrite (assignAll_under l ls cur k VUndef k1 p Hh Hk Hg eq_refl Hp Hls).
    destruct (rootKey_parts k1 v1 (nestedKey_rootKey k1 v1 Hk1)) as (Hclean & _).
    unfold newContainer.
    rewrite Hclean, (nestedKey_not_numeric k1 v1 Hk1), Hbuild. reflexivity.
  - cbn [isContainer] in Hg.
    destruct (supported_array elems props Hsup) as (Hne & Helems & Hprops & Hbound).
    subst props.
    pose proof (itemLeaves_paths elems 0) as Hpaths.
    pose proof (items_rebuild elems IHe Helems [] Hbound) as Hbuild.
    destruct elems as [|v1 rest]; [discriminate|].
    pose proof Helems as Hfirst. cbn [forallb] in Hfirst.
    apply andb_true_iff in Hfirst. destruct Hfirst as [Hsv _].
    destruct (first_item_leaf v1 rest 0 Hsv) as (l & ls & p & Hl & Hp).
    cbn [leaves normalize length N.of_nat] in *. rewrite Hl in *.
    inversion Hpaths as [|? ? _ Hls]; subst.
    rewrite (assignAll_under l ls cur k VUndef (decimal 0) p Hh Hk Hg eq_refl Hp Hls).
    unfold newContainer.
    replace (cleanSegment (decimal 0)) with (decimal 0) by reflexivity.
    rewrite isNumeric_decimal, Hbuild. reflexivity.
Qed.

(** ** The round trip *)

Lemma map_below_nil ls : map (below []) ls = ls.
Proof.
  rewrite <- (map_id ls) at 2. apply map_ext. intros [p x]. reflexivity.
Qed.

(** Decoding a query string without [?] is decoding its pairs. *)
Lemma queryStringToObject_joined parts :
  Forall (Forall (fun c => c <> 63)) parts ->
  queryStringToObject (join [38] parts) = decodePairs (pairsOf parts) (VObj []).
Proof.
  intro H63. rewrite <- pairsOf_join.
  assert (Hs : Forall (fun c => c <> 63) (join [38] parts)).
  { apply join_chars; [|exact H63]. constructor; [discriminate | constructor]. }
  unfold queryStringToObject. destruct (join [38] parts) as [|c rest] eqn:E.
  - reflexivity.
  - inversion Hs as [|? ? Hc _]; subst.
    cbn [nonEmpty negb orb].
    rewrite (str_eqb_neq (c :: rest) (lit "?")) by (intro Heq; inversion Heq; congruence).
    destruct c as [|pc]; [reflexivity|].
    do 6 (destruct pc as [pc|pc|]; try reflexivity).
    congruence.
Qed.

(** C1 (as amended): for a mapping whose nested values are well-formed
    strings, numbers, booleans, non-empty mappings and non-empty sequences
    without other properties, and whose mapping keys are well formed, not
    empty, without brackets, not [__proto__], no property of
    [Object.prototype] where they hold a container and, below the root,
    not numeric, [objectToQueryString] returns a query string, and
    [queryStringToObject] reads it back as the mapping with every scalar
    replaced by its string form. *)
Theorem decode_encode_roundtrip :
  forall m,
    supportedMapping m = true ->
    exists queryString,
      objectToQueryString m [] = Ok queryString
      /\ queryStringToObject queryString = Ok (normalize m).
Proof.
  intros m Hm. destruct m as [| | | | |props|]; try discriminate.
  cbn [supportedMapping] in Hm.
  assert (IHe : Forall (fun kv => encodesTo (snd kv)) props)
    by (apply Forall_forall; intros kv _; apply value_encodes).
  assert (IHr : Forall (fun kv => rebuilds (snd kv)) props)
    by (apply Forall_forall; intros kv _; apply value_rebuilds).
  destruct (entries_encode rootKey props rootKey_keyChars IHe Hm [] (Forall_nil _))
    as (parts & Hparts & H63 & Hdec).
  exists (join [38] parts). split.
  - unfold objectToQueryString. cbn [queryPartsOf pathKey] in *. rewrite Hparts.
    reflexivity.
  - rewrite (queryStringToObject_joined parts H63), Hdec, map_below_nil.
    rewrite (entries_rebuild rootKey props (fun _ _ H => H) IHr Hm []
               (fun _ _ => eq_refl) (fun _ _ (H : In _ []) _ => match H with end)).
    reflexivity.
Qed.

Lemma decode_encode_roundtrip_witness :
  exists queryString,
    objectToQueryString exampleTree [] = Ok queryString
    /\ queryStringToObject queryString = Ok (normalize exampleTree).
Proof.
  apply decode_encode_roundtrip. reflexivity.
Defined.

(** C1 (counterexample): a [null] is not encoded, so it is not read back;
    neither is an empty mapping; and a mapping with the key [1] is read
    back as a sequence. *)
Lemma null_lost_in_roundtrip :
  (queryString <- objectToQueryString (VObj [(lit "a", VNull)]) [] ;;
   queryStringToObject queryString) = Ok (VObj [])
  /\ normalize (VObj [(lit "a", VNull)]) <> VObj []
  /\ (queryString <- objectToQueryString (VObj [(lit "a", VObj [])]) [] ;;
      queryStringToObject queryString) = Ok (VObj [])
  /\ (queryString <-
        objectToQueryString (VObj [(lit "a", VObj [(lit "1", VStr (lit "x"))])]) [] ;;
      queryStringToObject queryString)
     = Ok (VObj [(lit "a", VArr [VUndef; VStr (lit "x")] [])]).
Proof.
  repeat split. discriminate.
Qed.

(** * Further properties *)

(** ** DataCompressor *)

(** X1: [hasCompressedData] answers [true] exactly when [getCompressedData]
    returns a string, whatever the URL and the parameter name. *)
Theorem has_exactly_when_get_returns :
  forall url paramName,
    hasCompressedData url paramName = true
    <-> exists compressed, getCompressedData url paramName = Some compressed.
Proof.
  intros url paramName. unfold hasCompressedData, getCompressedData, searchParams_has.
  induction (URLSearchParams (searchOf url)) as [|[n v] l IH].
  - cbn. split; [discriminate | intros [c Hc]; discriminate].
  - cbn [existsb searchParams_get fst].
    destruct (str_eqb n (usv paramName)).
    + split; [intros _; exists v; reflexivity | reflexivity].
    + exact IH.
Qed.

(** ** Entries that hold nothing *)

Lemma bind_ret {A} (c : completion A) : (x <- c ;; Ok x) = c.
Proof. destruct c; reflexivity. Qed.

Lemma entriesParts_withoutNullish props prefix :
  entriesParts (withoutNullish props) prefix = entriesParts props prefix.
Proof.
  unfold entriesParts, withoutNullish.
  induction props as [|[k v] rest IH]; [reflexivity|].
  cbn [filter snd].
  destruct v; cbn [isNullish negb entriesPartsWith]; rewrite ?IH; try reflexivity;
    cbn [entryParts bind app]; symmetry; apply bind_ret.
Qed.

(** X2: the entries of a mapping whose value is [null] or [undefined] leave
    no trace in the query string: the mapping without them is encoded to
    the same result, under any prefix. *)
Theorem nullish_entries_are_not_encoded :
  forall props prefix,
    objectToQueryString (VObj (withoutNullish props)) prefix
    = objectToQueryString (VObj props) prefix.
Proof.
  intros props prefix. unfold objectToQueryString. cbn [queryPartsOf].
  rewrite entriesParts_withoutNullish. reflexivity.
Qed.

(** ** The compressed read path *)

(** X3: when [hasCompressedData] finds the marker parameter in the query
    string, [parseQueryParams] returns a value whatever [decompress] and
    [JSON.parse] return or throw: the validated merge over the defaults of
    what [JSON.parse] returns for the text [decompress] returns for the
    value [getCompressedData] returns, where that value is not empty and
    both succeed; and the defaults in every other case. *)
Theorem compressed_read_always_returns :
  forall JSON_parse this co queryString,
    compressionOptions this = Some co ->
    comp_hasCompressedData (dataCompressor this) queryString (req_paramName co) = true ->
    (forall s, req_decompress co s <> Beyond) ->
    (forall s, JSON_parse s <> Beyond) ->
    let withDefaults := applyDefaultValues this (VObj []) in
    parseQueryParams JSON_parse this queryString
    = Ok (match comp_getCompressedData (dataCompressor this) queryString
                  (req_paramName co) with
          | Some compressed =>
              if nonEmpty compressed then
                match (decompressed <- req_decompress co compressed ;;
                       JSON_parse decompressed) with
                | Ok parsed => validated this (spread withDefaults parsed)
                | _ => withDefaults
                end
              else withDefaults
          | None => withDefaults
          end).
Proof.
  intros JSON_parse this co q Hco Hhas Hd Hp withDefaults.
  unfold parseQueryParams, parseCompressedParams. rewrite Hco, Hhas.
  fold withDefaults.
  destruct (comp_getCompressedData (dataCompressor this) q (req_paramName co))
    as [compressed|]; [|reflexivity].
  destruct (nonEmpty compressed); [|reflexivity].
  destruct (req_decompress co compressed) as [decompressed|e|] eqn:Ed;
    [|reflexivity|exfalso; exact (Hd _ Ed)].
  cbn [bind].
  destruct (JSON_parse decompressed) as [parsed|e|] eqn:Ep;
    [reflexivity|reflexivity|exfalso; exact (Hp _ Ep)].
Qed.

Lemma compressed_read_always_returns_witness :
  parseQueryParams JSON_parse_examples (compressingCore acceptAll None)
    (lit "?qs=%7B%22a%22%3A%229%22%7D")
  = Ok (VObj [(lit "a", VStr (lit "9")); (lit "b", VNum (lit "3"))])
  /\ parseQueryParams JSON_parse_examples (compressingCore acceptAll None) (lit "?qs=!")
     = Ok (VObj defaultsA2B3).
Proof.
  assert (Hd : forall s, decompress (plainCompression None) s <> Beyond).
  { intro s. unfold plainCompression. cbn [decompress].
    destruct (str_eqb s (lit "!")); discriminate. }
  assert (Hp : forall s, JSON_parse_examples s <> Beyond).
  { intro s. unfold JSON_parse_examples.
    destruct (str_eqb s (lit "{}")); [discriminate|].
    destruct (str_eqb s jsonA9); discriminate. }
  split.
  - exact (eq_trans
             (compressed_read_always_returns JSON_parse_examples
                (compressingCore acceptAll None) _ (lit "?qs=%7B%22a%22%3A%229%22%7D")
                eq_refl eq_refl Hd Hp)
             eq_refl).
  - exact (eq_trans
             (compressed_read_always_returns JSON_parse_examples
                (compressingCore acceptAll None) _ (lit "?qs=!")
                eq_refl eq_refl Hd Hp)
             eq_refl).
Defined.

(** ** The host *)

Lemma hasCompressedData_empty paramName : hasCompressedData [] paramName = false.
Proof. reflexivity. Qed.

(** X4: with the [DataCompressor] of the package, [hasCompressed] tells
    which path [parseQueryParams] takes on the query string
    [getQueryParams] returns; without a [window] it is the plain one, on
    the empty string. *)
Theorem hasCompressed_tells_the_read_path :
  forall JSON_parse window this,
    dataCompressor this = DataCompressor ->
    let withDefaults := applyDefaultValues this (VObj []) in
    paramsFromLocation JSON_parse window this
    = if hasCompressed window this
      then parseCompressedParams JSON_parse this (getQueryParams window) withDefaults
      else parsedSerializedParams this (getQueryParams window) withDefaults.
Proof.
  intros JSON_parse window this Hdc withDefaults.
  unfold paramsFromLocation, parseQueryParams, hasCompressed, getQueryParams.
  destruct (compressionOptions this) as [co|]; [|reflexivity].
  destruct window as [w|]; [reflexivity|].
  rewrite Hdc. cbn [comp_hasCompressedData DataCompressor].
  rewrite hasCompressedData_empty. reflexivity.
Qed.

Lemma hasCompressed_tells_the_read_path_witness :
  let this := compressingCore acceptAll None in
  let window := Some {| loc_pathname := lit "/p"; loc_search := lit "?qs=!" |} in
  let withDefaults := applyDefaultValues this (VObj []) in
  paramsFromLocation JSON_parse_examples window this
  = if hasCompressed window this
    then parseCompressedParams JSON_parse_examples this (getQueryParams window) withDefaults
    else parsedSerializedParams this (getQueryParams window) withDefaults.
Proof.
  exact (hasCompressed_tells_the_read_path JSON_parse_examples
           (Some {| loc_pathname := lit "/p"; loc_search := lit "?qs=!" |})
           (compressingCore acceptAll None) eq_refl).
Defined.

(** ** Keys of a merge *)

Lemma assoc_None_In k (l : list (jsstring * jsvalue)) :
  assoc k l = None <-> ~ In k (map fst l).
Proof.
  induction l as [|[k' v] l IH]; cbn [assoc map fst In]; [tauto|].
  destruct (str_eqb k k') eqn:E.
  - apply str_eqb_eq in E. subst. split; [discriminate | tauto].
  - rewrite IH. split; [|tauto].
    intros H [Heq|Hin]; [|tauto]. subst. rewrite str_eqb_refl in E. discriminate.
Qed.

Lemma mem_keys k (l : list (jsstring * jsvalue)) :
  mem k (map fst l) = match assoc k l with Some _ => true | None => false end.
Proof.
  unfold mem. induction l as [|[k' v] l IH]; cbn [assoc map fst existsb]; [reflexivity|].
  destruct (str_eqb k k'); [reflexivity | exact IH].
Qed.

Lemma keys_update k v props : map fst (update k v props) = map fst props.
Proof.
  induction props as [|[k' v'] rest IH]; cbn [update map fst]; [reflexivity|].
  destruct (str_eqb k k'); cbn [map fst]; [reflexivity | rewrite IH; reflexivity].
Qed.

Lemma In_insertNew x k v props :
  In x (map fst (insertNew k v props)) <-> x = k \/ In x (map fst props).
Proof.
  induction props as [|[k' v'] rest IH]; cbn [insertNew map fst In].
  - intuition.
  - destruct (arrayIndex k) as [i|]; [destruct (arrayIndex k') as [i'|];
      [destruct (i <? i')|]|]; cbn [map fst In]; rewrite ?IH; intuition.
Qed.

Lemma NoDup_insertNew k v props :
  ~ In k (map fst props) -> NoDup (map fst props) ->
  NoDup (map fst (insertNew k v props)).
Proof.
  induction props as [|[k' v'] rest IH]; cbn [insertNew map fst]; intros Hk Hnd.
  - constructor; [tauto | constructor].
  - cbn [In] in Hk. inversion Hnd as [|? ? Hk' Hrest]; subst.
    assert (Hgoal2 : NoDup (k' :: map fst (insertNew k v rest))).
    { constructor; [rewrite In_insertNew; intuition | apply IH; tauto]. }
    assert (Hgoal1 : NoDup (k :: k' :: map fst rest)).
    { constructor; [cbn [In]; tauto | exact Hnd]. }
    destruct (arrayIndex k) as [i|]; [destruct (arrayIndex k') as [i'|];
      [destruct (i <? i')|]|]; cbn [map fst]; assumption.
Qed.

Lemma NoDup_define k v props :
  distinctKeys props -> distinctKeys (define k v props).
Proof.
  unfold distinctKeys, define. intro Hnd. destruct (assoc k props) eqn:E.
  - rewrite keys_update. exact Hnd.
  - apply NoDup_insertNew; [apply assoc_None_In; exact E | exact Hnd].
Qed.

Lemma In_define x k v props :
  In x (map fst (define k v props)) -> x = k \/ In x (map fst props).
Proof.
  unfold define. destruct (assoc k props).
  - rewrite keys_update. tauto.
  - rewrite In_insertNew. tauto.
Qed.

Lemma copyInto_keys target source :
  distinctKeys target ->
  distinctKeys (copyInto target source)
  /\ forall x, In x (map fst (copyInto target source)) ->
               In x (map fst target) \/ In x (map fst (ownEntries source)).
Proof.
  unfold copyInto. generalize (ownEntries source) as entries.
  intro entries. revert target.
  induction entries as [|[k v] rest IH]; intros target Hnd; cbn [fold_left fst snd].
  - split; [exact Hnd | tauto].
  - destruct (IH (define k v target) (NoDup_define k v target Hnd)) as [H1 H2].
    split; [exact H1|]. intros x Hx. destruct (H2 x Hx) as [Hin|Hin].
    + destruct (In_define _ _ _ _ Hin) as [->|Hin']; [right; left; reflexivity | tauto].
    + right. right. exact Hin.
Qed.

Lemma assoc_copy k m :
  distinctKeys m -> assoc k (copyInto [] (VObj m)) = assoc k m.
Proof.
  intro Hnd. unfold copyInto. cbn [ownEntries].
  rewrite assoc_fold_define, (assoc_rev_NoDup k m Hnd).
  destruct (assoc k m); reflexivity.
Qed.

(** ** The update of the parameters *)

Lemma fillDefaults_lookup d : forall keys acc,
  Forall (fun k => assoc k acc <> None /\ mem k objectPrototype = false) keys ->
  exists acc',
    fillDefaults keys (VObj d) (VObj acc) = Ok (VObj acc')
    /\ forall k, assoc k acc'
                 = if mem k keys then filled d k (assoc k acc) else assoc k acc.
Proof.
  induction keys as [|key rest IH]; intros acc Hkeys.
  - exists acc. split; reflexivity.
  - inversion Hkeys as [|? ? [Hown Hplain] Hrest]; subst.
    assert (Hadd : forall k, mem k (key :: rest) = str_eqb k key || mem k rest)
      by reflexivity.
    assert (Hskip : filled d key (assoc key acc) = assoc key acc ->
                    exists acc',
                      fillDefaults rest (VObj d) (VObj acc) = Ok (VObj acc')
                      /\ forall k, assoc k acc'
                                   = if mem k (key :: rest)
                                     then filled d k (assoc k acc) else assoc k acc).
    { intro Hsame. destruct (IH acc Hrest) as (acc' & Hrun & Hlaw).
      exists acc'. split; [exact Hrun|]. intro k. rewrite Hlaw, Hadd.
      destruct (str_eqb k key) eqn:E; [|reflexivity].
      apply str_eqb_eq in E. subst k. cbn [orb].
      destruct (mem key rest); [reflexivity | symmetry; exact Hsame]. }
    cbn [fillDefaults hasProperty bind].
    unfold inherited. rewrite Hplain. cbn [orb getProp].
    destruct (assoc key acc) as [current|] eqn:Ecur; [clear Hown|congruence].
    destruct (assoc key d) as [dv|] eqn:Ed.
    + cbn [bind]. destruct (isUndefined current) eqn:Eu.
      * destruct current; try discriminate. cbn [bind].
        destruct (isUndefined dv) eqn:Edv.
        -- cbn [negb]. apply Hskip. cbn [filled]. rewrite Ed.
           destruct dv; try discriminate. reflexivity.
        -- cbn [negb setProp]. rewrite Ecur. cbn [bind].
           destruct (IH (update key dv acc)) as (acc' & Hrun & Hlaw).
           { eapply Forall_impl; [|exact Hrest]. cbn beta. intros k [Hk Hp].
             split; [|exact Hp]. rewrite assoc_update.
             destruct (str_eqb k key); [|exact Hk].
             destruct (assoc k acc); [discriminate | congruence]. }
           exists acc'. split; [exact Hrun|]. intro k.
           rewrite Hlaw, Hadd, assoc_update.
           destruct (str_eqb k key) eqn:E; [|reflexivity].
           apply str_eqb_eq in E. subst k. rewrite Ecur. cbn [orb option_map filled].
           rewrite Ed. destruct (mem key rest); [|reflexivity].
           destruct dv; try discriminate; reflexivity.
      * apply Hskip. destruct current; try discriminate; reflexivity.
    + cbn [bind]. apply Hskip. cbn [filled].
      destruct current; try reflexivity. rewrite Ed. reflexivity.
Qed.

Lemma fillDefaults_object defaults : forall keys acc fp,
  fillDefaults keys defaults (VObj acc) = Ok fp -> exists acc', fp = VObj acc'.
Proof.
  induction keys as [|key rest IH]; intros acc fp H; cbn [fillDefaults] in H.
  - inversion H. eauto.
  - destruct (hasProperty defaults key) as [[]| |]; cbn [bind] in H;
      try discriminate; [|eauto].
    destruct (getProp (VObj acc) key) as [current| |]; cbn [bind] in H;
      try discriminate.
    destruct (isUndefined current); [|eauto].
    destruct (getProp defaults key) as [dv| |]; cbn [bind] in H; try discriminate.
    destruct (negb (isUndefined dv)); [|eauto].
    destruct (setProp (VObj acc) key dv) as [next| |] eqn:Es; cbn [bind] in H;
      try discriminate.
    cbn [setProp] in Es. destruct (assoc key acc).
    + inversion Es; subst. eauto.
    + destruct (str_eqb key protoKey).
      * destruct (ignoredAsPrototype dv); [|discriminate]. inversion Es; subst. eauto.
      * inversion Es; subst. eauto.
Qed.

Lemma finalParamsOf_object this newParams prev fp :
  finalParamsOf this newParams prev = Ok fp -> exists props, fp = VObj props.
Proof.
  unfold finalParamsOf. intro H.
  destruct (updatedParamsRaw newParams (structuredClone prev)) as [raw| |];
    cbn [bind] in H; try discriminate.
  exact (fillDefaults_object _ _ _ _ H).
Qed.

(** What [validateDeserializedParams] returns carries the verdict and the
    data of the validator. *)
Lemma validateDeserializedParams_verdict this params :
  let result := validator this
                  (spread (defaultsOrEmpty this)
                          (if truthy params then params else VObj []))
                  deserialized in
  success (validateDeserializedParams this params) = success result
  /\ data (validateDeserializedParams this params) = data result.
Proof.
  unfold validateDeserializedParams, structuredClone. cbv zeta.
  set (r := validator this _ deserialized).
  destruct (success r) eqn:Es; cbn [andb]; [|auto].
  destruct (truthy (data r)); cbn [success data]; auto.
Qed.

(** X5: an update the validator rejects changes nothing: the updater
    returns the previous state, and no call is made to change the
    address. *)
Theorem rejected_update_keeps_state :
  forall window navigate this newParams replace prevParams finalParams,
    finalParamsOf this newParams prevParams = Ok finalParams ->
    success (validator this (spread (defaultsOrEmpty this) finalParams) deserialized)
    = false ->
    setQueryParamsUpdater window navigate this newParams replace prevParams
    = Ok (prevParams, []).
Proof.
  intros window navigate this newParams replace prev fp Hfp Hrej.
  unfold setQueryParamsUpdater. rewrite Hfp. cbn [bind].
  destruct (finalParamsOf_object _ _ _ _ Hfp) as [props ->].
  destruct (validateDeserializedParams_verdict this (VObj props)) as [Hs _].
  cbn [truthy] in Hs. rewrite Hs, Hrej. reflexivity.
Qed.

Lemma rejected_update_keeps_state_witness :
  let this := constructor rejectAll plainOptions QueryStringConverter DataCompressor in
  setQueryParamsUpdater None false this
    (UpdateTo (VObj [(lit "a", VStr (lit "1"))])) false (VObj [(lit "b", VStr (lit "2"))])
  = Ok (VObj [(lit "b", VStr (lit "2"))], []).
Proof.
  exact (rejected_update_keeps_state None false
           (constructor rejectAll plainOptions QueryStringConverter DataCompressor)
           (UpdateTo (VObj [(lit "a", VStr (lit "1"))])) false
           (VObj [(lit "b", VStr (lit "2"))])
           (VObj [(lit "b", VStr (lit "2")); (lit "a", VStr (lit "1"))])
           eq_refl eq_refl).
Defined.

(** X6: an update the validator accepts makes the data of the validator
    the next state and publishes the URL [createUrl] builds for it: through
    [navigate] where that option is set, whatever [replace] is; otherwise
    through [replaceState] or [pushState] as [replace] says, where there is
    a [window]; and through nothing without one. *)
Theorem accepted_update_is_published :
  forall window navigate this newParams replace prevParams finalParams url,
    finalParamsOf this newParams prevParams = Ok finalParams ->
    let result :=
      validator this (spread (defaultsOrEmpty this) finalParams) deserialized in
    success result = true ->
    createUrl (option_map loc_pathname window) this (data result) = Ok url ->
    setQueryParamsUpdater window navigate this newParams replace prevParams
    = Ok (data result,
          if navigate then [Navigate url]
          else match window with
               | Some _ => if replace then [ReplaceState url] else [PushState url]
               | None => []
               end).
Proof.
  intros window navigate this newParams replace prev fp url Hfp result Hacc Hurl.
  unfold setQueryParamsUpdater. rewrite Hfp. cbn [bind].
  destruct (finalParamsOf_object _ _ _ _ Hfp) as [props ->].
  destruct (validateDeserializedParams_verdict this (VObj props)) as [Hs Hd].
  cbn [truthy] in Hs, Hd. fold result in Hs, Hd.
  rewrite Hs, Hd, Hacc. cbn [negb]. rewrite Hurl. reflexivity.
Qed.

Lemma accepted_update_is_published_witness :
  let this := constructor acceptAll plainOptions QueryStringConverter DataCompressor in
  let window := Some {| loc_pathname := lit "/p"; loc_search := [] |} in
  setQueryParamsUpdater window false this
    (UpdateTo (VObj [(lit "a", VStr (lit "1"))])) false (VObj [(lit "b", VStr (lit "2"))])
  = Ok (VObj [(lit "b", VStr (lit "2")); (lit "a", VStr (lit "1"))],
        [PushState (lit "/p?b=2&a=1")]).
Proof.
  exact (accepted_update_is_published
           (Some {| loc_pathname := lit "/p"; loc_search := [] |}) false
           (constructor acceptAll plainOptions QueryStringConverter DataCompressor)
           (UpdateTo (VObj [(lit "a", VStr (lit "1"))])) false
           (VObj [(lit "b", VStr (lit "2"))])
           (VObj [(lit "b", VStr (lit "2")); (lit "a", VStr (lit "1"))])
           (lit "/p?b=2&a=1") eq_refl eq_refl eq_refl).
Defined.

Lemma finalParamsOf_merge this p u d :
  defaultValues (options this) = Some (VObj d) ->
  distinctKeys p -> distinctKeys u -> plainKeys p -> plainKeys u ->
  exists fp,
    finalParamsOf this (UpdateTo (VObj u)) (VObj p) = Ok (VObj fp)
    /\ forall k, assoc k fp = filled d k (merged p u k).
Proof.
  intros Hd Hp Hu Hpp Hpu.
  unfold finalParamsOf, updatedParamsRaw, structuredClone, defaultsOrEmpty.
  rewrite Hd. cbn [typeofObject truthy bind].
  unfold spread.
  destruct (copyInto_keys [] (VObj p) (NoDup_nil _)) as [Hn1 Hk1].
  destruct (copyInto_keys (copyInto [] (VObj p)) (VObj u) Hn1) as [Hn2 Hk2].
  set (m := copyInto (copyInto [] (VObj p)) (VObj u)) in *.
  destruct (copyInto_keys [] (VObj m) (NoDup_nil _)) as [Hn3 Hk3].
  assert (Hm : forall k, assoc k m = merged p u k).
  { intro k. exact (ownProperty_spread k p u Hp Hu). }
  destruct (fillDefaults_lookup d (map fst (copyInto [] (VObj m))) (copyInto [] (VObj m)))
    as (fp & Hrun & Hlaw).
  { apply Forall_forall. intros k Hin. split.
    - intro Hnone. apply assoc_None_In in Hnone. exact (Hnone Hin).
    - destruct (Hk3 k Hin) as [[]|Hin3]. cbn [ownEntries] in Hin3.
      unfold plainKeys in *. rewrite Forall_forall in Hpp, Hpu.
      destruct (Hk2 k Hin3) as [Hin2|Hin2]; [|exact (Hpu k Hin2)].
      destruct (Hk1 k Hin2) as [[]|Hin1]. exact (Hpp k Hin1). }
  exists fp. split; [exact Hrun|]. intro k.
  rewrite Hlaw, mem_keys, (assoc_copy k m Hn2), Hm.
  destruct (merged p u k); reflexivity.
Qed.

(** X7: in an update of object by object, a parameter keeps the value of
    the update, else the previous one; where that value is [undefined] and
    the defaults hold the key, it takes the default instead. The keys are
    no names of properties of [Object.prototype]. *)
Theorem undefined_parameters_take_defaults :
  forall this prevParams newParams defaults,
    defaultValues (options this) = Some (VObj defaults) ->
    distinctKeys prevParams -> distinctKeys newParams ->
    plainKeys prevParams -> plainKeys newParams ->
    exists finalParams,
      finalParamsOf this (UpdateTo (VObj newParams)) (VObj prevParams) = Ok finalParams
      /\ forall k,
           ownProperty finalParams k
           = filled defaults k (merged prevParams newParams k).
Proof.
  intros this p u d Hd Hp Hu Hpp Hpu.
  destruct (finalParamsOf_merge this p u d Hd Hp Hu Hpp Hpu) as (fp & Hrun & Hlaw).
  exists (VObj fp). split; [exact Hrun | exact Hlaw].
Qed.

Lemma undefined_parameters_take_defaults_witness :
  exists finalParams,
    finalParamsOf coreA2B3 (UpdateTo (VObj [(lit "a", VUndef); (lit "c", VUndef)]))
      (VObj [(lit "a", VNum (lit "7")); (lit "z", VNull)]) = Ok finalParams
    /\ forall k,
         ownProperty finalParams k
         = filled defaultsA2B3 k
             (merged [(lit "a", VNum (lit "7")); (lit "z", VNull)]
                     [(lit "a", VUndef); (lit "c", VUndef)] k).
Proof.
  apply (undefined_parameters_take_defaults coreA2B3
           [(lit "a", VNum (lit "7")); (lit "z", VNull)]
           [(lit "a", VUndef); (lit "c", VUndef)] defaultsA2B3 eq_refl).
  - distinct_keys.
  - distinct_keys.
  - repeat constructor.
  - repeat constructor.
Defined.



(** ** encodeURIComponent, scalar value by scalar value *)

Lemma not_unreserved cp : 128 <= cp -> uriUnreserved cp = false.
Proof.
  intro H. destruct (uriUnreserved cp) eqn:E; [|reflexivity].
  destruct (unreserved_ascii cp E). lia.
Qed.

Lemma encode_scalars n : forall s,
  (length s <= n)%nat -> wellFormed s = true ->
  encodeURIComponent s = Ok (concat (map escapeOf (scalarValues s)))
  /\ Forall isScalarValue (scalarValues s)
  /\ usv s = s.
Proof.
  unfold usv.
  induction n as [|n IH]; intros s Hlen Hwf.
  - destruct s; [|simpl in Hlen; lia]. repeat split. constructor.
  - destruct s as [|c rest]; [repeat split; constructor|].
    unfold wellFormed in Hwf. apply andb_true_iff in Hwf. destruct Hwf as [Hcu Hwf].
    cbn [codeUnits forallb] in Hcu. apply andb_true_iff in Hcu.
    destruct Hcu as [Hc Hcu]. apply N.ltb_lt in Hc.
    simpl in Hlen. cbn [encodeURIComponent isWellFormed scalarValues] in *.
    destruct (isTrailSurrogate c) eqn:Et; [discriminate|].
    destruct (isLeadSurrogate c) eqn:El.
    + destruct rest as [|d rest']; [discriminate|].
      apply andb_true_iff in Hwf. destruct Hwf as [Hd Hwf]. rewrite Hd.
      cbn [forallb] in Hcu. apply andb_true_iff in Hcu. destruct Hcu as [Hdu Hcu].
      destruct (IH rest') as (He & Hsv & Hu).
      { simpl in Hlen. lia. }
      { unfold wellFormed, codeUnits. rewrite Hcu, Hwf. reflexivity. }
      unfold isLeadSurrogate in El. unfold isTrailSurrogate in Hd. bool_to_prop.
      rewrite (not_unreserved c) by lia.
      set (cp := (c - 55296) * 1024 + (d - 56320) + 65536) in *.
      assert (Hs : isScalarValue cp) by (unfold isScalarValue, cp; lia).
      rewrite He. cbn [bind map concat].
      assert (Hesc : escapeOf cp = concat (map pct (utf8Encode cp))).
      { unfold escapeOf. rewrite (not_unreserved cp) by (unfold cp; lia). reflexivity. }
      rewrite Hesc.
      split; [reflexivity|]. split; [constructor; assumption|].
      rewrite Hu. unfold utf16Encode.
      destruct (N.ltb_spec cp 65536); [unfold cp in *; lia|].
      cbn [app]. f_equal; [|f_equal]; unfold cp; lia.
    + destruct (IH rest) as (He & Hsv & Hu).
      { lia. }
      { unfold wellFormed. fold (codeUnits rest) in Hcu. rewrite Hcu, Hwf. reflexivity. }
      assert (Hs : isScalarValue c).
      { unfold isLeadSurrogate in El. unfold isTrailSurrogate in Et.
        unfold isScalarValue. split; [lia|].
        destruct (N.leb_spec 55296 c), (N.leb_spec c 56319),
          (N.leb_spec 56320 c), (N.leb_spec c 57343);
          simpl in El, Et; try discriminate; lia. }
      assert (Hgoal : (r <- encodeURIComponent rest ;;
                       Ok (escapeOf c ++ r))
                      = Ok (concat (map escapeOf (c :: scalarValues rest)))).
      { rewrite He. reflexivity. }
      split.
      * rewrite <- Hgoal. unfold escapeOf.
        destruct (uriUnreserved c); [|reflexivity].
        destruct (encodeURIComponent rest); reflexivity.
      * split; [constructor; assumption|].
        cbn [map concat]. rewrite Hu. unfold utf16Encode.
        destruct (N.ltb_spec c 65536); [reflexivity | lia].
Qed.

(** ** URLSearchParams on what encodeURIComponent wrote *)

Lemma percentDecode_plain c X :
  c <> 37 -> percentDecode (c :: X) = c :: percentDecode X.
Proof.
  intro H. cbn [percentDecode]. destruct X as [|h1 [|h2 X']]; try reflexivity.
  destruct (N.eqb_spec c 37); [contradiction | reflexivity].
Qed.

Lemma percentDecode_pct b X :
  b < 256 -> percentDecode (pct b ++ X) = b :: percentDecode X.
Proof.
  intro H. unfold pct. cbn [app percentDecode]. rewrite N.eqb_refl.
  rewrite !hexVal_hexDigit by lia. f_equal. lia.
Qed.

Lemma percentDecode_escapes bs X :
  Forall (fun b => b < 256) bs ->
  percentDecode (concat (map pct bs) ++ X) = bs ++ percentDecode X.
Proof.
  induction 1 as [|b bs Hb _ IH]; [reflexivity|].
  cbn [map concat]. rewrite <- app_assoc, percentDecode_pct by exact Hb.
  rewrite IH. reflexivity.
Qed.

Lemma percentDecode_escapeOf cp X :
  isScalarValue cp ->
  percentDecode (escapeOf cp ++ X) = utf8Encode cp ++ percentDecode X.
Proof.
  intros [Hmax _]. unfold escapeOf. destruct (uriUnreserved cp) eqn:E.
  - destruct (unreserved_ascii cp E) as [Ha H37]. cbn [app].
    rewrite percentDecode_plain by exact H37. unfold utf8Encode.
    destruct (N.ltb_spec cp 128); [reflexivity | lia].
  - apply percentDecode_escapes, utf8Encode_bytes. exact Hmax.
Qed.

Lemma utf8Decode_start b rest cp lower upper :
  utf8Decode (b :: rest) 0 cp lower upper
  = if b <? 0x80 then b :: utf8Decode rest 0 0 0x80 0xBF
    else if (0xC2 <=? b) && (b <=? 0xDF) then utf8Decode rest 1 (b - 0xC0) 0x80 0xBF
    else if (0xE0 <=? b) && (b <=? 0xEF) then
      utf8Decode rest 2 (b - 0xE0)
        (if b =? 0xE0 then 0xA0 else 0x80) (if b =? 0xED then 0x9F else 0xBF)
    else if (0xF0 <=? b) && (b <=? 0xF4) then
      utf8Decode rest 3 (b - 0xF0)
        (if b =? 0xF0 then 0x90 else 0x80) (if b =? 0xF4 then 0x8F else 0xBF)
    else 0xFFFD :: utf8Decode rest 0 0 0x80 0xBF.
Proof. reflexivity. Qed.

Lemma utf8Decode_continue b rest n cp lower upper :
  lower <= b <= upper ->
  utf8Decode (b :: rest) (S n) cp lower upper
  = match n with
    | O => (cp * 0x40 + (b - 0x80)) :: utf8Decode rest 0 0 0x80 0xBF
    | _ => utf8Decode rest n (cp * 0x40 + (b - 0x80)) 0x80 0xBF
    end.
Proof.
  intros [Hl Hu]. cbn [utf8Decode].
  destruct (N.leb_spec lower b); [|lia]. destruct (N.leb_spec b upper); [|lia].
  reflexivity.
Qed.

(** The decoder reads the bytes of a scalar value back. *)
Lemma utf8Decode_scalar cp X :
  isScalarValue cp ->
  utf8Decode (utf8Encode cp ++ X) 0 0 0x80 0xBF = cp :: utf8Decode X 0 0 0x80 0xBF.
Proof.
  intros [Hmax Hsur]. unfold utf8Encode.
  destruct (N.ltb_spec cp 0x80) as [H1|H1].
  { cbn [app]. rewrite utf8Decode_start.
    destruct (N.ltb_spec cp 0x80); [reflexivity | lia]. }
  destruct (N.ltb_spec cp 0x800) as [H2|H2].
  { cbn [app]. rewrite utf8Decode_start.
    destruct (N.ltb_spec (192 + cp / 64) 128); [lia|].
    destruct (N.leb_spec 194 (192 + cp / 64)); [|lia].
    destruct (N.leb_spec (192 + cp / 64) 223); [|lia].
    cbn [andb]. rewrite utf8Decode_continue by lia. f_equal. lia. }
  destruct (N.ltb_spec cp 0x10000) as [H3|H3].
  { cbn [app]. rewrite utf8Decode_start.
    destruct (N.ltb_spec (224 + cp / 4096) 128); [lia|].
    destruct (N.leb_spec 194 (224 + cp / 4096)); [|lia].
    destruct (N.leb_spec (224 + cp / 4096) 223); [lia|].
    destruct (N.leb_spec 224 (224 + cp / 4096)); [|lia].
    destruct (N.leb_spec (224 + cp / 4096) 239); [|lia].
    cbn [andb]. rewrite utf8Decode_continue.
    2:{ destruct (N.eqb_spec (224 + cp / 4096) 224);
        destruct (N.eqb_spec (224 + cp / 4096) 237); lia. }
    rewrite utf8Decode_continue by lia. f_equal. lia. }
  cbn [app]. rewrite utf8Decode_start.
  destruct (N.ltb_spec (240 + cp / 262144) 128); [lia|].
  destruct (N.leb_spec 194 (240 + cp / 262144)); [|lia].
  destruct (N.leb_spec (240 + cp / 262144) 223); [lia|].
  destruct (N.leb_spec 224 (240 + cp / 262144)); [|lia].
  destruct (N.leb_spec (240 + cp / 262144) 239); [lia|].
  destruct (N.leb_spec 240 (240 + cp / 262144)); [|lia].
  destruct (N.leb_spec (240 + cp / 262144) 244); [|lia].
  cbn [andb]. rewrite utf8Decode_continue.
  2:{ destruct (N.eqb_spec (240 + cp / 262144) 240);
      destruct (N.eqb_spec (240 + cp / 262144) 244); lia. }
  rewrite utf8Decode_continue by lia.
  rewrite utf8Decode_continue by lia. f_equal. lia.
Qed.

Lemma utf8Decode_scalars l :
  Forall isScalarValue l ->
  utf8Decode (concat (map utf8Encode l)) 0 0 0x80 0xBF = l.
Proof.
  induction 1 as [|cp l Hcp _ IH]; [reflexivity|].
  cbn [map concat]. rewrite utf8Decode_scalar by exact Hcp. rewrite IH. reflexivity.
Qed.

Lemma percentDecode_scalars l :
  Forall isScalarValue l ->
  percentDecode (concat (map escapeOf l)) = concat (map utf8Encode l).
Proof.
  induction 1 as [|cp l Hcp _ IH]; [reflexivity|].
  cbn [map concat]. rewrite percentDecode_escapeOf by exact Hcp.
  rewrite IH. reflexivity.
Qed.

Lemma plusToSpace_plain e : Forall (fun c => c <> 43) e -> plusToSpace e = e.
Proof.
  unfold plusToSpace. induction 1 as [|c e Hc _ IH]; [reflexivity|].
  cbn [map]. rewrite IH. destruct (N.eqb_spec c 43); [contradiction | reflexivity].
Qed.

Lemma uriChar_ascii c : uriChar c = true -> c < 128 /\ c <> 43 /\ c <> 38 /\ c <> 61 /\ c <> 63.
Proof.
  unfold uriChar. intro H. apply orb_true_iff in H. destruct H as [H|H].
  - destruct (unreserved_ascii c H) as [Ha _]. split; [exact Ha|].
    repeat split; intro; subst c; discriminate.
  - apply N.eqb_eq in H. subst c. repeat split; lia.
Qed.

Lemma uriChar_escapeOf cp :
  isScalarValue cp -> Forall (fun c => uriChar c = true) (escapeOf cp).
Proof.
  intros [Hmax _]. unfold escapeOf. destruct (uriUnreserved cp) eqn:E.
  - constructor; [unfold uriChar; rewrite E; reflexivity | constructor].
  - apply uriChar_escapes. exact Hmax.
Qed.

Lemma uriChar_scalars l :
  Forall isScalarValue l -> Forall (fun c => uriChar c = true) (concat (map escapeOf l)).
Proof.
  induction 1 as [|cp l Hcp _ IH]; [constructor|].
  cbn [map concat]. apply Forall_app. split; [apply uriChar_escapeOf; exact Hcp | exact IH].
Qed.

(** The form decoder of [URLSearchParams] undoes [encodeURIComponent]. *)
Lemma formDecode_encoded s e :
  wellFormed s = true -> encodeURIComponent s = Ok e ->
  Forall (fun c => uriChar c = true) e /\ formDecode e = s.
Proof.
  intros Hwf He.
  destruct (encode_scalars (length s) s (le_n _) Hwf) as (He' & Hsv & Hu).
  rewrite He in He'. inversion He' as [Heq]. clear He'.
  split; [apply uriChar_scalars; exact Hsv|].
  unfold formDecode, utf8DecodeString.
  rewrite plusToSpace_plain.
  - rewrite percentDecode_scalars, utf8Decode_scalars by exact Hsv. exact Hu.
  - eapply Forall_impl; [|apply uriChar_scalars; exact Hsv].
    intros c Hc. apply uriChar_ascii in Hc. tauto.
Qed.

(** ASCII text is its own UTF-8. *)
Lemma scalarValues_ascii a : Forall (fun c => c < 128) a -> scalarValues a = a.
Proof.
  induction 1 as [|c a Hc _ IH]; [reflexivity|].
  cbn [scalarValues]. unfold isTrailSurrogate, isLeadSurrogate.
  destruct (N.leb_spec 56320 c); [lia|]. destruct (N.leb_spec 55296 c); [lia|].
  cbn [andb]. rewrite IH. reflexivity.
Qed.

Lemma utf8Bytes_ascii a : Forall (fun c => c < 128) a -> utf8Bytes a = a.
Proof.
  intro H. unfold utf8Bytes. rewrite scalarValues_ascii by exact H.
  induction H as [|c a Hc _ IH]; [reflexivity|].
  cbn [map concat]. rewrite IH. unfold utf8Encode.
  destruct (N.ltb_spec c 128); [reflexivity | lia].
Qed.

Lemma usv_ascii a : Forall (fun c => c < 128) a -> usv a = a.
Proof.
  intro H. unfold usv. rewrite scalarValues_ascii by exact H.
  induction H as [|c a Hc _ IH]; [reflexivity|].
  cbn [map concat]. rewrite IH. unfold utf16Encode.
  destruct (N.ltb_spec c 65536); [reflexivity | lia].
Qed.

Lemma unreserved_chars name :
  forallb uriUnreserved name = true ->
  Forall (fun c => c < 128 /\ c <> 37 /\ c <> 43 /\ c <> 38 /\ c <> 61 /\ c <> 63) name.
Proof.
  intro H. rewrite forallb_forall in H. apply Forall_forall. intros c Hin.
  pose proof (H c Hin) as Hu. destruct (unreserved_ascii c Hu) as [Ha H37].
  assert (Hc : uriChar c = true) by (unfold uriChar; rewrite Hu; reflexivity).
  apply uriChar_ascii in Hc. tauto.
Qed.

Lemma percentDecode_literal a : Forall (fun c => c <> 37) a -> percentDecode a = a.
Proof.
  induction 1 as [|c a Hc _ IH]; [reflexivity|].
  rewrite percentDecode_plain by exact Hc. rewrite IH. reflexivity.
Qed.

Lemma utf8Decode_ascii a :
  Forall (fun c => c < 128) a -> utf8Decode a 0 0 0x80 0xBF = a.
Proof.
  induction 1 as [|c a Hc _ IH]; [reflexivity|].
  rewrite utf8Decode_start. destruct (N.ltb_spec c 128); [|lia]. rewrite IH. reflexivity.
Qed.

Lemma formDecode_unreserved name :
  forallb uriUnreserved name = true -> formDecode name = name.
Proof.
  intro H. apply unreserved_chars in H.
  unfold formDecode, utf8DecodeString.
  rewrite plusToSpace_plain by (eapply Forall_impl; [|exact H]; cbn beta; tauto).
  rewrite percentDecode_literal by (eapply Forall_impl; [|exact H]; cbn beta; tauto).
  rewrite utf8Decode_ascii by (eapply Forall_impl; [|exact H]; cbn beta; tauto).
  assert (Ha : Forall (fun c => c < 128) name)
    by (eapply Forall_impl; [|exact H]; cbn beta; tauto).
  clear H. induction Ha as [|c a Hc _ IH]; [reflexivity|].
  cbn [map concat]. rewrite IH. unfold utf16Encode.
  destruct (N.ltb_spec c 65536); [reflexivity | lia].
Qed.

Lemma searchOf_query basePath query :
  Forall (fun c => c <> 63) basePath -> Forall (fun c => c <> 63) query ->
  searchOf (basePath ++ 63 :: query) = query.
Proof.
  intros Hb Hq. unfold searchOf.
  rewrite existsb_app. cbn [existsb N.eqb Pos.eqb orb]. rewrite orb_true_r.
  rewrite split_app, (split_none 63 basePath Hb), (split_none 63 query Hq).
  reflexivity.
Qed.

(** The one pair of [name=encoded]. *)
Lemma URLSearchParams_marker name s e :
  forallb uriUnreserved name = true ->
  wellFormed s = true -> encodeURIComponent s = Ok e ->
  URLSearchParams (name ++ 61 :: e) = [(name, s)].
Proof.
  intros Hname Hwf He.
  destruct (formDecode_encoded s e Hwf He) as [Hch Hdec].
  pose proof (unreserved_chars name Hname) as Hn.
  assert (Hall : Forall (fun c => c < 128 /\ c <> 38 /\ c <> 63) (name ++ 61 :: e)).
  { apply Forall_app. split.
    - eapply Forall_impl; [|exact Hn]. cbn beta. tauto.
    - constructor; [lia|]. eapply Forall_impl; [|exact Hch].
      intros c Hc. apply uriChar_ascii in Hc. tauto. }
  unfold URLSearchParams.
  assert (Hinit : match name ++ 61 :: e with 63 :: rest => rest | _ => name ++ 61 :: e end
                  = name ++ 61 :: e).
  { destruct (name ++ 61 :: e) as [|c rest] eqn:E; [reflexivity|].
    inversion Hall as [|? ? [_ [_ H63]] _]; subst.
    destruct c as [|pc]; [reflexivity|].
    do 6 (destruct pc as [pc|pc|]; try reflexivity). congruence. }
  rewrite Hinit.
  rewrite utf8Bytes_ascii by (eapply Forall_impl; [|exact Hall]; cbn beta; tauto).
  rewrite split_none by (eapply Forall_impl; [|exact Hall]; cbn beta; tauto).
  cbn [filter]. replace (nonEmpty (name ++ 61 :: e)) with true
    by (destruct name; reflexivity).
  cbn [map]. unfold formPair.
  destruct (takeWhile_app_stop (fun b => negb (b =? 61)) name 61 e) as [Ht Hd].
  { apply forallb_forall. intros c Hin. rewrite Forall_forall in Hn.
    destruct (Hn c Hin) as (_ & _ & _ & _ & H61 & _).
    destruct (N.eqb_spec c 61); [contradiction | reflexivity]. }
  { reflexivity. }
  rewrite Ht, Hd. cbn [tl]. rewrite Hdec, (formDecode_unreserved name Hname).
  reflexivity.
Qed.

(** The marker is found behind any text without [?]. *)
Lemma marker_found name s e prefix :
  forallb uriUnreserved name = true ->
  wellFormed s = true -> encodeURIComponent s = Ok e ->
  Forall (fun c => c <> 63) prefix ->
  hasCompressedData (prefix ++ [63] ++ name ++ [61] ++ e) name = true
  /\ getCompressedData (prefix ++ [63] ++ name ++ [61] ++ e) name = Some s.
Proof.
  intros Hname Hwf He Hprefix.
  destruct (formDecode_encoded s e Hwf He) as [Hch _].
  unfold hasCompressedData, getCompressedData. cbn [app].
  rewrite searchOf_query.
  - rewrite (URLSearchParams_marker _ s e Hname Hwf He).
    unfold searchParams_has. cbn [existsb searchParams_get fst].
    rewrite usv_ascii, str_eqb_refl; [split; reflexivity|].
    eapply Forall_impl; [|exact (unreserved_chars _ Hname)]. cbn beta. tauto.
  - exact Hprefix.
  - apply Forall_app. split.
    + eapply Forall_impl; [|exact (unreserved_chars _ Hname)]. cbn beta. tauto.
    + constructor; [lia|]. eapply Forall_impl; [|exact Hch].
      intros c Hc. apply uriChar_ascii in Hc. tauto.
Qed.

(** X9: the marker parameter [createCompressedUrl] writes is the one
    [DataCompressor] finds: for a parameter name of unreserved characters,
    a base path without [?] and a well-formed compressed text,
    [hasCompressedData] holds of the URL and [getCompressedData] returns
    the compressed text as [compress] gave it. *)
Theorem compressed_marker_is_read_back :
  forall this co params basePath json compressed,
    compressionOptions this = Some co ->
    JSON_stringify params = Some json ->
    req_compress co json = Ok compressed ->
    wellFormed compressed = true ->
    forallb uriUnreserved (req_paramName co) = true ->
    Forall (fun c => c <> 63) basePath ->
    exists url,
      createCompressedUrl this params basePath = Ok url
      /\ hasCompressedData url (req_paramName co) = true
      /\ getCompressedData url (req_paramName co) = Some compressed.
Proof.
  intros this co params basePath json compressed Hco Hjson Hcomp Hwf Hname Hbase.
  destruct (encode_scalars (length compressed) compressed (le_n _) Hwf) as (He & _ & _).
  set (e := concat (map escapeOf (scalarValues compressed))) in *.
  exists (basePath ++ [63] ++ req_paramName co ++ [61] ++ e).
  unfold createCompressedUrl. rewrite Hco, Hjson, Hcomp. cbn [bind]. rewrite He.
  split; [reflexivity|].
  exact (marker_found _ compressed e basePath Hname Hwf He Hbase).
Qed.

Lemma compressed_marker_is_read_back_witness :
  exists url,
    createCompressedUrl (compressingCore acceptAll (Some 10%Z)) value50 (lit "/p") = Ok url
    /\ hasCompressedData url (lit "qs") = true
    /\ getCompressedData url (lit "qs") = JSON_stringify value50.
Proof.
  refine (compressed_marker_is_read_back (compressingCore acceptAll (Some 10%Z)) _
            value50 (lit "/p") _ _ eq_refl eq_refl eq_refl _ eq_refl _).
  - reflexivity.
  - repeat constructor; discriminate.
Defined.

(** ** From createUrl to parseQueryParams *)

(** X10: for a marker name of unreserved characters, a URL [createUrl]
    builds in compressed form is read back: when the JSON text is longer
    than the threshold, [compress] returns a well-formed text that is not
    empty, [decompress] returns a text for it and [JSON.parse] parses that,
    [parseQueryParams] returns the validated merge of the parsed value over
    the defaults, for the query part of the URL alone as for the query
    part behind any text without [?]. *)
Theorem compressed_url_is_parsed_back :
  forall JSON_parse location_pathname this co params json compressed decompressed parsed,
    dataCompressor this = DataCompressor ->
    compressionOptions this = Some co ->
    JSON_stringify params = Some json ->
    (req_threshold co < Z.of_nat (length json))%Z ->
    req_compress co json = Ok compressed ->
    wellFormed compressed = true ->
    nonEmpty compressed = true ->
    req_decompress co compressed = Ok decompressed ->
    JSON_parse decompressed = Ok parsed ->
    forallb uriUnreserved (req_paramName co) = true ->
    exists query,
      createUrl location_pathname this params
      = Ok (resolvedBasePath location_pathname this ++ query)
      /\ forall prefix,
           Forall (fun c => c <> 63) prefix ->
           parseQueryParams JSON_parse this (prefix ++ query)
           = Ok (validated this (spread (applyDefaultValues this (VObj [])) parsed)).
Proof.
  intros JSON_parse location_pathname this co params json compressed decompressed
    parsed Hdc Hco Hjson Hthr Hcomp Hwf Hne Hdec Hparse Hname.
  destruct (encode_scalars (length compressed) compressed (le_n _) Hwf) as (He & _ & _).
  set (e := concat (map escapeOf (scalarValues compressed))) in *.
  exists ([63] ++ req_paramName co ++ [61] ++ e). split.
  - unfold createUrl, stringified, createCompressedUrl. rewrite Hco, Hjson.
    cbn [bind]. apply Z.ltb_lt in Hthr. rewrite Hthr, Hcomp. cbn [bind].
    rewrite He. reflexivity.
  - intros prefix Hprefix.
    destruct (marker_found _ compressed e prefix Hname Hwf He Hprefix) as [Hhas Hget].
    unfold parseQueryParams, parseCompressedParams. rewrite Hco, Hdc.
    cbn [comp_hasCompressedData comp_getCompressedData DataCompressor].
    rewrite Hhas, Hget, Hne, Hdec. cbn [bind]. rewrite Hparse. reflexivity.
Qed.

Lemma compressed_url_is_parsed_back_witness :
  let this := compressingCore acceptAll (Some 5%Z) in
  exists query,
    createUrl None this (VObj [(lit "a", VStr (lit "9"))])
    = Ok (resolvedBasePath None this ++ query)
    /\ forall prefix,
         Forall (fun c => c <> 63) prefix ->
         parseQueryParams JSON_parse_examples this (prefix ++ query)
         = Ok (validated this
                 (spread (applyDefaultValues this (VObj []))
                         (VObj [(lit "a", VStr (lit "9"))]))).
Proof.
  exact (compressed_url_is_parsed_back JSON_parse_examples None
           (compressingCore acceptAll (Some 5%Z)) _
           (VObj [(lit "a", VStr (lit "9"))]) jsonA9 jsonA9 jsonA9
           (VObj [(lit "a", VStr (lit "9"))])
           eq_refl eq_refl eq_refl eq_refl eq_refl eq_refl eq_refl eq_refl eq_refl
           eq_refl).
Defined.

(** What the encoder writes for a supported mapping, and what the decoder
    makes of its pairs. *)
Lemma mapping_parts m :
  supportedMapping m = true ->
  exists parts,
    queryPartsOf m [] = Ok parts
    /\ Forall (Forall (fun c => c <> 63)) parts
    /\ decodePairs (pairsOf parts) (VObj []) = Ok (normalize m).
Proof.
  intro Hm. destruct m as [| | | | |props|]; try discriminate.
  cbn [supportedMapping] in Hm.
  assert (IHe : Forall (fun kv => encodesTo (snd kv)) props)
    by (apply Forall_forall; intros kv _; apply value_encodes).
  assert (IHr : Forall (fun kv => rebuilds (snd kv)) props)
    by (apply Forall_forall; intros kv _; apply value_rebuilds).
  destruct (entries_encode rootKey props rootKey_keyChars IHe Hm [] (Forall_nil _))
    as (parts & Hparts & H63 & Hdec).
  exists parts. cbn [queryPartsOf pathKey] in *.
  split; [exact Hparts|]. split; [exact H63|].
  rewrite Hdec, map_below_nil.
  rewrite (entries_rebuild rootKey props (fun _ _ H => H) IHr Hm []
             (fun _ _ => eq_refl) (fun _ _ (H : In _ []) _ => match H with end)).
  reflexivity.
Qed.

(** The query string behind its [?]. *)
Lemma queryStringToObject_search q :
  q <> [] ->
  queryStringToObject (63 :: q) = decodePairs (filter nonEmpty (split 38 q)) (VObj []).
Proof.
  intro Hq. unfold queryStringToObject. cbn [nonEmpty negb orb].
  rewrite (str_eqb_neq (63 :: q) (lit "?")); [reflexivity|].
  intro H. inversion H. contradiction.
Qed.

Lemma regular_url_read JSON_parse location_pathname this params :
  queryConverter this = QueryStringConverter ->
  supportedMapping params = true ->
  staysPlain this params ->
  exists search queryString,
    objectToQueryString params [] = Ok queryString
    /\ search = (if nonEmpty queryString then [63] ++ queryString else [])
    /\ createUrl location_pathname this params
       = Ok (resolvedBasePath location_pathname this ++ search)
    /\ (markerAbsent this search ->
        parseQueryParams JSON_parse this search
        = Ok (validated this
                (spread (applyDefaultValues this (VObj [])) (normalize params)))).
Proof.
  intros Hqc Hm Hplain.
  destruct (mapping_parts params Hm) as (parts & Hparts & H63 & Hdec).
  set (queryString := join [38] parts).
  exists (if nonEmpty queryString then [63] ++ queryString else []), queryString.
  split; [unfold objectToQueryString; rewrite Hparts; reflexivity|].
  split; [reflexivity|]. split.
  - assert (Hreg : createRegularUrl this params (resolvedBasePath location_pathname this)
                   = Ok (resolvedBasePath location_pathname this
                         ++ (if nonEmpty queryString then [63] ++ queryString else []))).
    { unfold createRegularUrl. rewrite Hqc.
      cbn [conv_objectToQueryString QueryStringConverter].
      unfold objectToQueryString. rewrite Hparts. reflexivity. }
    unfold createUrl, stringified. unfold staysPlain in Hplain.
    destruct (compressionOptions this) as [co|]; [|exact Hreg].
    destruct (JSON_stringify params) as [json|]; [|contradiction].
    cbn [bind]. apply Z.ltb_ge in Hplain. rewrite Hplain. exact Hreg.
  - intro Habsent.
    assert (Hread : queryStringToObject
                      (if nonEmpty queryString then [63] ++ queryString else [])
                    = Ok (normalize params)).
    { rewrite <- Hdec, <- pairsOf_join. fold queryString.
      destruct queryString as [|c rest] eqn:E; [reflexivity|].
      cbn [nonEmpty app]. apply queryStringToObject_search. discriminate. }
    assert (Hplainpath :
              parsedSerializedParams this
                (if nonEmpty queryString then [63] ++ queryString else [])
                (applyDefaultValues this (VObj []))
              = Ok (validated this
                      (spread (applyDefaultValues this (VObj [])) (normalize params)))).
    { unfold parsedSerializedParams. rewrite Hqc.
      cbn [conv_queryStringToObject QueryStringConverter]. rewrite Hread. reflexivity. }
    unfold parseQueryParams. unfold markerAbsent in Habsent.
    destruct (compressionOptions this) as [co|]; [|exact Hplainpath].
    rewrite Habsent. exact Hplainpath.
Qed.

(** X11: a URL [createUrl] builds in regular form for a supported mapping
    is read back: [parseQueryParams], on the query part with its [?] and
    where it does not see the marker parameter in it, returns the validated
    merge over the defaults of the mapping with every scalar as a
    string. *)
Theorem regular_url_is_parsed_back :
  forall JSON_parse location_pathname this params,
    queryConverter this = QueryStringConverter ->
    supportedMapping params = true ->
    staysPlain this params ->
    exists search,
      createUrl location_pathname this params
      = Ok (resolvedBasePath location_pathname this ++ search)
      /\ (markerAbsent this search ->
          parseQueryParams JSON_parse this search
          = Ok (validated this
                  (spread (applyDefaultValues this (VObj [])) (normalize params)))).
Proof.
  intros JSON_parse location_pathname this params Hqc Hm Hplain.
  destruct (regular_url_read JSON_parse location_pathname this params Hqc Hm Hplain)
    as (search & queryString & _ & _ & Hurl & Hread).
  exists search. split; assumption.
Qed.

Lemma regular_url_is_parsed_back_witness :
  let this := constructor acceptAll plainOptions QueryStringConverter DataCompressor in
  exists search,
    createUrl (Some (lit "/list")) this exampleTree
    = Ok (resolvedBasePath (Some (lit "/list")) this ++ search)
    /\ (markerAbsent this search ->
        parseQueryParams JSON_parse_examples this search
        = Ok (validated this
                (spread (applyDefaultValues this (VObj [])) (normalize exampleTree)))).
Proof.
  apply (regular_url_is_parsed_back JSON_parse_examples (Some (lit "/list"))
           (constructor acceptAll plainOptions QueryStringConverter DataCompressor)
           exampleTree eq_refl eq_refl).
  exact I.
Defined.

(** ** Assigning twice along the same key *)

Lemma setProp_twice cur k v1 v2 c :
  ignoredAsPrototype v1 = true ->
  setProp cur k v1 = Ok c -> setProp c k v2 = setProp cur k v2.
Proof.
  intros Hv1 H. destruct cur as [| | | | |props|elems props]; cbn [setProp] in *;
    try discriminate.
  - destruct (str_eqb k protoKey) eqn:E; [|discriminate].
    inversion H; subst. cbn [setProp]. rewrite E. reflexivity.
  - destruct (str_eqb k protoKey) eqn:E; [|discriminate].
    inversion H; subst. cbn [setProp]. rewrite E. reflexivity.
  - destruct (str_eqb k protoKey) eqn:E; [|discriminate].
    inversion H; subst. cbn [setProp]. rewrite E. reflexivity.
  - destruct (assoc k props) eqn:E.
    + inversion H; subst. cbn [setProp]. rewrite assoc_update, str_eqb_refl, E.
      cbn [option_map]. rewrite update_update. reflexivity.
    + destruct (str_eqb k protoKey) eqn:Ep.
      * rewrite Hv1 in H. inversion H; subst. cbn [setProp]. rewrite E, Ep. reflexivity.
      * inversion H; subst. cbn [setProp].
        rewrite (assoc_insertNew k k v1 props E), str_eqb_refl.
        rewrite (update_insertNew k v2 v1 props E). reflexivity.
  - destruct (arrayIndex k) as [i|] eqn:Ei.
    + inversion H; subst. cbn [setProp]. rewrite Ei, setNth_setNth. reflexivity.
    + destruct (str_eqb k lengthKey) eqn:El; [discriminate|].
      destruct (assoc k props) eqn:E.
      * inversion H; subst. cbn [setProp]. rewrite Ei, El, assoc_update, str_eqb_refl, E.
        cbn [option_map]. rewrite update_update. reflexivity.
      * destruct (str_eqb k protoKey) eqn:Ep.
        -- rewrite Hv1 in H. inversion H; subst. cbn [setProp].
           rewrite Ei, El, E, Ep. reflexivity.
        -- inversion H; subst. cbn [setProp]. rewrite Ei, El.
           rewrite (assoc_insertNew k k v1 props E), str_eqb_refl.
           rewrite (update_insertNew k v2 v1 props E). reflexivity.
Qed.

Lemma putChild_twice cur k c1 c2 :
  putChild (putChild cur k c1) k c2 = putChild cur k c2.
Proof.
  destruct cur as [| | | | |props|elems props]; cbn [putChild]; try reflexivity.
  - rewrite update_update. reflexivity.
  - destruct (arrayIndex k) eqn:E; cbn [putChild]; rewrite E.
    + rewrite setNth_setNth. reflexivity.
    + rewrite update_update. reflexivity.
Qed.

Lemma getProp_protoKey_primitive cur existing :
  isContainer cur = false -> getProp cur protoKey = Ok existing -> False.
Proof.
  destruct cur; cbn [isContainer getProp]; discriminate.
Qed.

(** Assigning through a primitive leaves it as it is. *)
Lemma assignSegments_primitive : forall segs value cur c,
  segs <> [] -> isContainer cur = false ->
  assignSegments segs value cur = Ok c -> c = cur.
Proof.
  intros segs value cur c Hne Hprim H.
  destruct segs as [|seg rest]; [contradiction|]. clear Hne.
  assert (Hset : forall k v level, setProp cur k v = Ok level ->
                                   level = cur /\ k = protoKey).
  { intros k v level Hs. destruct cur; cbn [isContainer setProp] in *;
      try discriminate;
      (destruct (str_eqb k protoKey) eqn:E; [|discriminate]);
      apply str_eqb_eq in E; inversion Hs; auto. }
  destruct rest as [|next rest].
  - cbn [assignSegments] in H. apply Hset in H. tauto.
  - rewrite assignSegments_unfold in H.
    destruct (getProp cur (cleanSegment seg)) as [existing| |] eqn:Eg;
      cbn [bind] in H; try discriminate.
    destruct (truthy existing).
    + destruct (assignSegments (next :: rest) value existing); cbn [bind] in H;
        try discriminate.
      inversion H. destruct cur; try discriminate; reflexivity.
    + destruct (setProp cur (cleanSegment seg) (newContainer (cleanSegment next)))
        as [level| |] eqn:Es; cbn [bind] in H; try discriminate.
      destruct (Hset _ _ _ Es) as [-> Hk]. rewrite Hk in *.
      exfalso. exact (getProp_protoKey_primitive cur existing Hprim Eg).
Qed.

Lemma assignSegments_truthy segs value existing child :
  segs <> [] -> truthy existing = true ->
  assignSegments segs value existing = Ok child -> truthy child = true.
Proof.
  intros Hne Ht H. destruct (isContainer existing) eqn:Ec.
  - destruct segs as [|seg rest]; [contradiction|].
    apply truthy_container. exact (assignSegments_container _ _ _ _ _ Ec H).
  - rewrite (assignSegments_primitive segs value existing child Hne Ec H). exact Ht.
Qed.

(** The child put back is the child read. *)
Lemma getProp_putChild cur k existing child :
  getProp cur k = Ok existing -> truthy existing = true ->
  (isContainer existing = false -> child = existing) ->
  getProp (putChild cur k child) k = Ok child.
Proof.
  intros Hg Ht Hsame.
  destruct cur as [| | | | |props|elems props]; cbn [getProp putChild] in *;
    try discriminate.
  - destruct (inherited (VBool b) k); inversion Hg; subst; discriminate.
  - destruct (inherited (VNum repr) k); inversion Hg; subst; discriminate.
  - rewrite Hg. rewrite Hsame; [reflexivity|].
    destruct (arrayIndex k).
    + destruct (nth_error s (N.to_nat n)); inversion Hg; reflexivity.
    + destruct (str_eqb k lengthKey); [inversion Hg; reflexivity|].
      destruct (inherited (VStr s) k); inversion Hg; reflexivity.
  - destruct (assoc k props) as [v|] eqn:E.
    + rewrite assoc_update, str_eqb_refl, E. reflexivity.
    + destruct (inherited (VObj props) k); inversion Hg; subst; discriminate.
  - destruct (arrayIndex k) as [i|] eqn:Ei.
    + cbn [getProp]. rewrite Ei, nth_setNth. reflexivity.
    + cbn [getProp]. rewrite Ei. destruct (str_eqb k lengthKey) eqn:El.
      * rewrite Hsame; [exact Hg | inversion Hg; reflexivity].
      * destruct (assoc k props) as [v|] eqn:E.
        -- rewrite assoc_update, str_eqb_refl, E. reflexivity.
        -- destruct (inherited (VArr elems props) k); inversion Hg; subst; discriminate.
Qed.

(** What is read where a container has just been stored. *)
Lemma getProp_stored cur k fresh level created :
  isContainer fresh = true ->
  setProp cur k fresh = Ok level -> getProp level k = Ok created -> created = fresh.
Proof.
  intros Hf Hs Hg.
  assert (Hni : ignoredAsPrototype fresh = false) by (destruct fresh; try discriminate; reflexivity).
  destruct cur as [| | | | |props|elems props]; cbn [setProp] in Hs; try discriminate.
  - destruct (str_eqb k protoKey) eqn:E; [|discriminate]. apply str_eqb_eq in E.
    inversion Hs; subst. exfalso. revert Hg. apply getProp_protoKey_primitive. reflexivity.
  - destruct (str_eqb k protoKey) eqn:E; [|discriminate]. apply str_eqb_eq in E.
    inversion Hs; subst. exfalso. revert Hg. apply getProp_protoKey_primitive. reflexivity.
  - destruct (str_eqb k protoKey) eqn:E; [|discriminate]. apply str_eqb_eq in E.
    inversion Hs; subst. exfalso. revert Hg. apply getProp_protoKey_primitive. reflexivity.
  - destruct (assoc k props) eqn:E.
    + inversion Hs; subst. cbn [getProp] in Hg.
      rewrite assoc_update, str_eqb_refl, E in Hg. inversion Hg. reflexivity.
    + destruct (str_eqb k protoKey); [rewrite Hni in Hs; discriminate|].
      inversion Hs; subst. cbn [getProp] in Hg.
      rewrite (assoc_insertNew k k fresh props E), str_eqb_refl in Hg.
      inversion Hg. reflexivity.
  - destruct (arrayIndex k) as [i|] eqn:Ei.
    + inversion Hs; subst. cbn [getProp] in Hg. rewrite Ei, nth_setNth in Hg.
      inversion Hg. reflexivity.
    + destruct (str_eqb k lengthKey) eqn:El; [discriminate|].
      destruct (assoc k props) eqn:E.
      * inversion Hs; subst. cbn [getProp] in Hg.
        rewrite Ei, El, assoc_update, str_eqb_refl, E in Hg. inversion Hg. reflexivity.
      * destruct (str_eqb k protoKey); [rewrite Hni in Hs; discriminate|].
        inversion Hs; subst. cbn [getProp] in Hg.
        rewrite Ei, El, (assoc_insertNew k k fresh props E), str_eqb_refl in Hg.
        inversion Hg. reflexivity.
Qed.

Lemma newContainer_container next : isContainer (newContainer next) = true.
Proof. unfold newContainer. destruct (isNumeric next); reflexivity. Qed.

(** After an assignment along [segs], another one along [segs] finds the
    containers of the first and overwrites its value. *)
Lemma assignSegments_twice v1 v2 : forall segs cur c,
  ignoredAsPrototype v1 = true ->
  assignSegments segs v1 cur = Ok c ->
  assignSegments segs v2 c = assignSegments segs v2 cur.
Proof.
  induction segs as [|seg rest IH]; intros cur c Hv1 H.
  - inversion H. reflexivity.
  - destruct rest as [|next rest].
    + cbn [assignSegments] in *. exact (setProp_twice cur _ v1 v2 c Hv1 H).
    + rewrite assignSegments_unfold in H. rewrite !assignSegments_unfold.
      set (k := cleanSegment seg) in *.
      destruct (getProp cur k) as [existing| |] eqn:Eg; cbn [bind] in H;
        try discriminate.
      cbn [bind].
      destruct (truthy existing) eqn:Et.
      * destruct (assignSegments (next :: rest) v1 existing) as [child1| |] eqn:E1;
          cbn [bind] in H; try discriminate.
        inversion H; subst c. clear H.
        assert (Hread : getProp (putChild cur k child1) k = Ok child1).
        { apply (getProp_putChild cur k existing child1 Eg Et).
          intro Hprim. apply (assignSegments_primitive (next :: rest) v1 existing child1); [discriminate | exact Hprim | exact E1]. }
        rewrite Hread. cbn [bind].
        rewrite (assignSegments_truthy (next :: rest) v1 existing child1) by (discriminate || assumption).
        rewrite (IH existing child1 Hv1 E1).
        destruct (assignSegments (next :: rest) v2 existing); cbn [bind];
          rewrite ?putChild_twice; reflexivity.
      * set (fresh := newContainer (cleanSegment next)) in *.
        destruct (setProp cur k fresh) as [level| |] eqn:Es; cbn [bind] in H |- *;
          try discriminate.
        destruct (getProp level k) as [created| |] eqn:Ec; cbn [bind] in H |- *;
          try discriminate.
        destruct (assignSegments (next :: rest) v1 created) as [child1| |] eqn:E1;
          cbn [bind] in H; try discriminate.
        inversion H; subst c. clear H.
        pose proof (getProp_stored cur k fresh level created
                      (newContainer_container _) Es Ec) as Hcreated.
        assert (Htc : truthy created = true).
        { rewrite Hcreated. apply truthy_container, newContainer_container. }
        assert (Hread : getProp (putChild level k child1) k = Ok child1).
        { apply (getProp_putChild level k created child1 Ec Htc).
          intro Hprim. rewrite Hcreated in Hprim. unfold fresh in Hprim.
          rewrite newContainer_container in Hprim. discriminate. }
        rewrite Hread. cbn [bind].
        rewrite (assignSegments_truthy (next :: rest) v1 created child1) by (discriminate || assumption).
        rewrite (IH created child1 Hv1 E1).
        destruct (assignSegments (next :: rest) v2 created); cbn [bind];
          rewrite ?putChild_twice; reflexivity.
Qed.

Lemma mapM_cons {A B} (f : A -> completion B) a l :
  mapM f (a :: l) = (b <- f a ;; bs <- mapM f l ;; Ok (b :: bs)).
Proof. reflexivity. Qed.

(** ** Reads and writes that are followed *)

Ltac absurd_ne :=
  match goal with H : ?x <> ?x |- _ => exfalso; apply H; reflexivity end.

Lemma inherited_names cur k : inherited cur k = true -> mem k inheritedNames = true.
Proof.
  unfold inherited, inheritedNames, mem. rewrite !existsb_app. intro H.
  apply orb_true_iff in H. destruct H as [H|H]; [rewrite H; reflexivity|].
  destruct cur; try discriminate; rewrite H; rewrite ?orb_true_r; reflexivity.
Qed.

Lemma not_inherited cur k : mem k inheritedNames = false -> inherited cur k = false.
Proof.
  intro H. destruct (inherited cur k) eqn:E; [|reflexivity].
  apply inherited_names in E. congruence.
Qed.

Lemma getProp_followed cur k :
  mem k inheritedNames = false -> getProp cur k <> Beyond.
Proof.
  intro H. pose proof (not_inherited cur k H) as Hn.
  destruct cur as [| | | | s |props|elems props]; cbn [getProp]; try discriminate.
  - rewrite Hn. discriminate.
  - rewrite Hn. discriminate.
  - destruct (arrayIndex k); [destruct (nth_error s _); discriminate|].
    destruct (str_eqb k lengthKey); [discriminate|]. rewrite Hn. discriminate.
  - destruct (assoc k props); [discriminate|]. rewrite Hn. discriminate.
  - destruct (arrayIndex k); [discriminate|].
    destruct (str_eqb k lengthKey); [discriminate|].
    destruct (assoc k props); [discriminate|]. rewrite Hn. discriminate.
Qed.

Lemma setProp_followed cur k v :
  str_eqb k lengthKey = false ->
  ignoredAsPrototype v = true \/ mem k inheritedNames = false ->
  setProp cur k v <> Beyond.
Proof.
  intros Hl Hv.
  assert (Hp : str_eqb k protoKey = true -> ignoredAsPrototype v = true).
  { intro E. destruct Hv as [Hv|Hv]; [exact Hv|]. apply str_eqb_eq in E. subst k.
    discriminate. }
  destruct cur as [| | | | s |props|elems props]; cbn [setProp]; try discriminate.
  - destruct (str_eqb k protoKey); discriminate.
  - destruct (str_eqb k protoKey); discriminate.
  - destruct (str_eqb k protoKey); discriminate.
  - destruct (assoc k props); [discriminate|].
    destruct (str_eqb k protoKey); [rewrite Hp by reflexivity|]; discriminate.
  - destruct (arrayIndex k); [discriminate|]. rewrite Hl.
    destruct (assoc k props); [discriminate|].
    destruct (str_eqb k protoKey); [rewrite Hp by reflexivity|]; discriminate.
Qed.

Lemma assignSegments_followed value : forall segs cur,
  ignoredAsPrototype value = true -> followed segs = true ->
  assignSegments segs value cur <> Beyond.
Proof.
  induction segs as [|seg rest IH]; intros cur Hv Hf; [discriminate|].
  cbn [followed] in Hf. apply andb_true_iff in Hf. destruct Hf as [Hl Hf].
  apply negb_true_iff in Hl.
  destruct rest as [|next rest].
  - cbn [assignSegments]. apply setProp_followed; [exact Hl | left; exact Hv].
  - apply andb_true_iff in Hf. destruct Hf as [Hi Hf]. apply negb_true_iff in Hi.
    rewrite assignSegments_unfold. set (k := cleanSegment seg) in *.
    pose proof (getProp_followed cur k Hi) as Hg.
    destruct (getProp cur k) as [existing| |]; cbn [bind]; try discriminate;
      [|absurd_ne].
    destruct (truthy existing).
    + pose proof (IH existing Hv Hf) as Hrec.
      destruct (assignSegments (next :: rest) value existing); cbn [bind];
        try discriminate. absurd_ne.
    + pose proof (setProp_followed cur k (newContainer (cleanSegment next)) Hl
                    (or_intror Hi)) as Hs.
      destruct (setProp cur k (newContainer (cleanSegment next))) as [level| |];
        cbn [bind]; try discriminate; [|absurd_ne].
      pose proof (getProp_followed level k Hi) as Hg'.
      destruct (getProp level k) as [created| |]; cbn [bind]; try discriminate;
        [|absurd_ne].
      pose proof (IH created Hv Hf) as Hrec.
      destruct (assignSegments (next :: rest) value created); cbn [bind];
        try discriminate. absurd_ne.
Qed.

Lemma decodeFrom_returns : forall fuel s, decodeFrom fuel s <> Beyond.
Proof.
  induction fuel as [|fuel IH]; intro s; cbn [decodeFrom]; [discriminate|].
  destruct s as [|c rest]; [discriminate|].
  assert (Hbind : forall s' (f : jsstring -> jsstring),
            (r <- decodeFrom fuel s' ;; Ok (f r)) <> Beyond).
  { intros s' f. pose proof (IH s') as H.
    destruct (decodeFrom fuel s'); cbn [bind]; try discriminate. absurd_ne. }
  destruct (c =? 37); [|apply (Hbind rest (fun r => c :: r))].
  destruct (hexOctet (c :: rest)) as [[b rest1]|]; [|discriminate].
  destruct (leadingOnes b) as [|[|n]]; [apply (Hbind rest1 (fun r => b :: r))
                                       |discriminate|].
  destruct (Nat.ltb 3 (S n)); [discriminate|].
  destruct (hexOctets (S n) rest1) as [[bs rest2]|]; [|discriminate].
  destruct (utf8Value (b :: bs)) as [cp|]; [|discriminate].
  apply (Hbind rest2 (fun r => utf16Encode cp ++ r)).
Qed.

Lemma mapM_decode_returns l : mapM decodeURIComponent l <> Beyond.
Proof.
  induction l as [|a l IH]; [discriminate|]. rewrite mapM_cons.
  assert (Ha : decodeURIComponent a <> Beyond) by apply decodeFrom_returns.
  destruct (decodeURIComponent a); cbn [bind]; try discriminate; [|absurd_ne].
  destruct (mapM decodeURIComponent l); cbn [bind]; try discriminate. absurd_ne.
Qed.

Lemma decodePair_followed pair obj :
  followedPair pair = true -> decodePair pair obj <> Beyond.
Proof.
  unfold followedPair, decodePair. intro Hf.
  pose proof (mapM_decode_returns (split 61 pair)) as Hm.
  destruct (mapM decodeURIComponent (split 61 pair)) as [parts| |]; cbn [bind];
    try discriminate; [|absurd_ne].
  destruct (negb (nonEmpty (hd [] parts))); [discriminate|].
  destruct (matchSegments (hd [] parts)) as [|seg segs] eqn:E; [discriminate|].
  apply assignSegments_followed; [|exact Hf].
  destruct parts as [|? [|? ?]]; reflexivity.
Qed.

Lemma followedPair_same_key pair1 pair2 obj obj1 :
  hd [] (split 61 pair1) = hd [] (split 61 pair2) ->
  followedPair pair1 = true -> decodePair pair1 obj = Ok obj1 ->
  followedPair pair2 = true.
Proof.
  intros Hkey Hf H1. unfold followedPair, decodePair in *.
  destruct (split 61 pair1) as [|k1 t1] eqn:E1; [exfalso; exact (split_nonEmpty _ _ E1)|].
  destruct (split 61 pair2) as [|k2 t2] eqn:E2; [exfalso; exact (split_nonEmpty _ _ E2)|].
  cbn [hd] in Hkey. subst k2. rewrite mapM_cons in *.
  destruct (decodeURIComponent k1) as [key| |]; cbn [bind] in *; try discriminate.
  destruct (mapM decodeURIComponent t1) as [vs1| |]; cbn [bind] in *; try discriminate.
  destruct (mapM decodeURIComponent t2) as [vs2| |]; cbn [bind]; try reflexivity.
  exact Hf.
Qed.

Lemma decodePair_twice pair1 pair2 obj obj1 :
  hd [] (split 61 pair1) = hd [] (split 61 pair2) ->
  decodePair pair1 obj = Ok obj1 ->
  decodePair pair2 obj1 = decodePair pair2 obj.
Proof.
  intros Hkey H1. unfold decodePair in *.
  destruct (split 61 pair1) as [|k1 t1] eqn:E1; [exfalso; exact (split_nonEmpty _ _ E1)|].
  destruct (split 61 pair2) as [|k2 t2] eqn:E2; [exfalso; exact (split_nonEmpty _ _ E2)|].
  cbn [hd] in Hkey. subst k2. rewrite mapM_cons in *.
  destruct (decodeURIComponent k1) as [key| |]; cbn [bind] in *; try discriminate.
  destruct (mapM decodeURIComponent t1) as [vs1| |]; cbn [bind] in H1; try discriminate.
  destruct (mapM decodeURIComponent t2) as [vs2| |]; cbn [bind]; try reflexivity.
  cbn [hd] in *.
  destruct (negb (nonEmpty key)); [inversion H1; reflexivity|].
  destruct (matchSegments key) as [|seg segs]; [inversion H1; reflexivity|].
  refine (assignSegments_twice _ _ (seg :: segs) obj obj1 _ H1).
  destruct vs1; reflexivity.
Qed.

(** X12: when two pairs have the same text before their first [=], and the
    key it decodes to has no segment named [length] and, before its last
    segment, no segment named like a property of a built-in prototype, the
    second pair overwrites the first: decoding the first returns or
    throws, and where it returns, decoding the second after it gives what
    decoding the second alone gives. *)
Theorem later_pair_overwrites_earlier :
  forall pair1 pair2 obj,
    hd [] (split 61 pair1) = hd [] (split 61 pair2) ->
    followedPair pair1 = true ->
    decodePair pair1 obj <> Beyond
    /\ forall obj1,
         decodePair pair1 obj = Ok obj1 ->
         decodePair pair2 obj1 = decodePair pair2 obj
         /\ decodePair pair2 obj <> Beyond.
Proof.
  intros pair1 pair2 obj Hkey Hf. split; [exact (decodePair_followed pair1 obj Hf)|].
  intros obj1 H1. split; [exact (decodePair_twice pair1 pair2 obj obj1 Hkey H1)|].
  apply decodePair_followed.
  exact (followedPair_same_key pair1 pair2 obj obj1 Hkey Hf H1).
Qed.

Lemma later_pair_overwrites_earlier_witness :
  decodePair (lit "a[b]=1") (VObj []) <> Beyond
  /\ forall obj1,
       decodePair (lit "a[b]=1") (VObj []) = Ok obj1 ->
       decodePair (lit "a[b]=2") obj1 = decodePair (lit "a[b]=2") (VObj [])
       /\ decodePair (lit "a[b]=2") (VObj []) <> Beyond.
Proof.
  exact (later_pair_overwrites_earlier (lit "a[b]=1") (lit "a[b]=2") (VObj [])
           eq_refl eq_refl).
Defined.

(** ** The shape of what is decoded *)

Lemma mem_In k l : mem k l = true <-> In k l.
Proof.
  unfold mem. rewrite existsb_exists. split.
  - intros (x & Hin & Heq). apply str_eqb_eq in Heq. subst. exact Hin.
  - intro Hin. exists k. split; [exact Hin | apply str_eqb_refl].
Qed.

Lemma update_absent k v props : assoc k props = None -> update k v props = props.
Proof.
  induction props as [|[k' v'] rest IH]; cbn [assoc update]; [reflexivity|].
  destruct (str_eqb k k'); [discriminate|]. intro H. rewrite IH by exact H. reflexivity.
Qed.

Lemma decodedEntries_assoc k props v :
  decodedEntries decoded props = true -> assoc k props = Some v -> decoded v = true.
Proof.
  induction props as [|[k' v'] rest IH]; cbn [decodedEntries assoc]; [discriminate|].
  intros H Ha. bool_to_prop. destruct (str_eqb k k'); [inversion Ha; subst; assumption|].
  apply IH; assumption.
Qed.

Lemma decodedEntries_update k v props :
  decoded v = true -> decodedEntries decoded props = true ->
  decodedEntries decoded (update k v props) = true.
Proof.
  intro Hv. induction props as [|[k' v'] rest IH]; cbn [decodedEntries update];
    [reflexivity|].
  intro H. bool_to_prop. destruct (str_eqb k k'); cbn [decodedEntries].
  - rewrite Hv. repeat (apply andb_true_iff; split); auto.
  - rewrite IH by assumption. repeat (apply andb_true_iff; split); auto.
Qed.

Lemma decodedEntries_insertNew k v props :
  forallb notBracket k = true -> str_eqb k protoKey = false -> decoded v = true ->
  decodedEntries decoded props = true ->
  decodedEntries decoded (insertNew k v props) = true.
Proof.
  intros Hk Hp Hv. induction props as [|[k' v'] rest IH]; cbn [decodedEntries insertNew].
  - intros _. rewrite Hk, Hp, Hv. reflexivity.
  - intro H.
    assert (Hfront : decodedEntries decoded ((k, v) :: (k', v') :: rest) = true).
    { cbn [decodedEntries]. rewrite Hk, Hp, Hv. exact H. }
    bool_to_prop.
    assert (Hback : decodedEntries decoded ((k', v') :: insertNew k v rest) = true).
    { cbn [decodedEntries]. rewrite IH by assumption.
      repeat (apply andb_true_iff; split); auto. }
    destruct (arrayIndex k) as [i|]; [destruct (arrayIndex k') as [i'|];
      [destruct (i <? i')|]|]; assumption.
Qed.

Lemma decoded_setNth i v elems :
  decoded v = true -> forallb decoded elems = true ->
  forallb decoded (setNth i v elems) = true.
Proof.
  intro Hv. revert elems. induction i as [|i IH]; intros [|e rest] H; cbn [setNth forallb] in *.
  - rewrite Hv. reflexivity.
  - bool_to_prop. rewrite Hv. assumption.
  - cbn [decoded]. apply IH. reflexivity.
  - bool_to_prop. rewrite IH by assumption. rewrite andb_true_r. assumption.
Qed.

Lemma decoded_nth i elems :
  forallb decoded elems = true -> decoded (nth i elems VUndef) = true.
Proof.
  revert elems. induction i as [|i IH]; intros [|e rest] H; cbn [nth forallb] in *;
    try reflexivity; bool_to_prop; auto.
Qed.

Lemma lengthKey_insertNew k v props :
  str_eqb k lengthKey = false ->
  mem lengthKey (map fst props) = false ->
  mem lengthKey (map fst (insertNew k v props)) = false.
Proof.
  intros Hk Hm. destruct (mem lengthKey (map fst (insertNew k v props))) eqn:E;
    [|reflexivity].
  apply mem_In, In_insertNew in E. destruct E as [E|E].
  - subst k. rewrite str_eqb_refl in Hk. discriminate.
  - apply mem_In in E. congruence.
Qed.

Lemma setProp_decoded cur k v c :
  decoded cur = true -> isContainer cur = true ->
  forallb notBracket k = true -> decoded v = true ->
  setProp cur k v = Ok c -> decoded c = true.
Proof.
  intros Hd Hc Hk Hv H.
  destruct cur as [| | | | |props|elems props]; try discriminate;
    cbn [setProp decoded] in *.
  - destruct (assoc k props).
    + inversion H; subst. cbn [decoded]. apply decodedEntries_update; assumption.
    + destruct (str_eqb k protoKey) eqn:Ep.
      * destruct (ignoredAsPrototype v); inversion H; subst. exact Hd.
      * inversion H; subst. cbn [decoded]. apply decodedEntries_insertNew; assumption.
  - bool_to_prop. destruct (arrayIndex k) as [i|].
    + inversion H; subst. cbn [decoded].
      rewrite decoded_setNth by assumption.
      repeat (apply andb_true_iff; split); auto.
    + destruct (str_eqb k lengthKey) eqn:El; [discriminate|].
      destruct (assoc k props).
      * inversion H; subst. cbn [decoded]. rewrite keys_update.
        rewrite decodedEntries_update by assumption.
        repeat (apply andb_true_iff; split); auto.
      * destruct (str_eqb k protoKey) eqn:Ep.
        -- destruct (ignoredAsPrototype v); inversion H; subst. cbn [decoded].
           repeat (apply andb_true_iff; split); auto.
        -- inversion H; subst. cbn [decoded].
           rewrite decodedEntries_insertNew by assumption.
           rewrite lengthKey_insertNew;
             [repeat (apply andb_true_iff; split); auto | exact El |].
           destruct (mem lengthKey (map fst props)); [discriminate | reflexivity].
Qed.

Lemma putChild_decoded cur k child :
  decoded cur = true -> decoded child = true -> decoded (putChild cur k child) = true.
Proof.
  intros Hd Hc. destruct cur as [| | | | |props|elems props]; cbn [putChild]; try exact Hd;
    cbn [decoded] in *.
  - apply decodedEntries_update; assumption.
  - bool_to_prop. destruct (arrayIndex k); cbn [decoded].
    + rewrite decoded_setNth by assumption. repeat (apply andb_true_iff; split); auto.
    + rewrite keys_update, decodedEntries_update by assumption.
      repeat (apply andb_true_iff; split); auto.
Qed.

(** What is read from a decoded container is decoded, but for the length
    of an array, which is a number and is put back to no effect. *)
Lemma getProp_decoded cur k existing :
  decoded cur = true -> isContainer cur = true -> getProp cur k = Ok existing ->
  decoded existing = true
  \/ (isContainer existing = false /\ putChild cur k existing = cur).
Proof.
  intros Hd Hc H.
  destruct cur as [| | | | |props|elems props]; try discriminate;
    cbn [getProp decoded] in *.
  - left. destruct (assoc k props) eqn:E.
    + inversion H; subst. exact (decodedEntries_assoc k props _ Hd E).
    + destruct (inherited (VObj props) k); inversion H. reflexivity.
  - bool_to_prop. destruct (arrayIndex k) as [i|] eqn:Ei.
    + left. inversion H. apply decoded_nth. assumption.
    + destruct (str_eqb k lengthKey) eqn:El.
      * right. inversion H. split; [reflexivity|]. cbn [putChild]. rewrite Ei.
        apply str_eqb_eq in El. subst k. rewrite update_absent; [reflexivity|].
        pose proof (mem_keys lengthKey props) as Hm.
        destruct (assoc lengthKey props); [|reflexivity].
        destruct (mem lengthKey (map fst props)); discriminate.
      * left. destruct (assoc k props) eqn:E.
        -- inversion H; subst. eapply decodedEntries_assoc; eassumption.
        -- destruct (inherited (VArr elems props) k); inversion H. reflexivity.
Qed.

Lemma cleanSegment_notBracket seg : forallb notBracket (cleanSegment seg) = true.
Proof.
  unfold cleanSegment. apply forallb_forall. intros c Hc.
  apply filter_In in Hc. tauto.
Qed.

Lemma newContainer_decoded next : decoded (newContainer next) = true.
Proof. unfold newContainer. destruct (isNumeric next); reflexivity. Qed.

Lemma assignSegments_decoded value : forall segs cur c,
  decoded value = true -> decoded cur = true -> isContainer cur = true ->
  assignSegments segs value cur = Ok c -> decoded c = true.
Proof.
  induction segs as [|seg rest IH]; intros cur c Hv Hd Hc H.
  - inversion H; subst. exact Hd.
  - destruct rest as [|next rest].
    + cbn [assignSegments] in H.
      exact (setProp_decoded cur _ value c Hd Hc (cleanSegment_notBracket seg) Hv H).
    + rewrite assignSegments_unfold in H. set (k := cleanSegment seg) in *.
      destruct (getProp cur k) as [existing| |] eqn:Eg; cbn [bind] in H;
        try discriminate.
      destruct (truthy existing) eqn:Et.
      * destruct (assignSegments (next :: rest) value existing) as [child| |] eqn:E1;
          cbn [bind] in H; try discriminate.
        inversion H; subst c. clear H.
        destruct (isContainer existing) eqn:Ece.
        -- destruct (getProp_decoded cur k existing Hd Hc Eg) as [Hde|[Hp _]];
             [|congruence].
           apply putChild_decoded; [exact Hd|].
           exact (IH existing child Hv Hde Ece E1).
        -- assert (Hsame : child = existing).
           { apply (assignSegments_primitive (next :: rest) value existing child);
               [discriminate | exact Ece | exact E1]. }
           subst child.
           destruct (getProp_decoded cur k existing Hd Hc Eg) as [Hde|[_ Hput]].
           ++ apply putChild_decoded; assumption.
           ++ rewrite Hput. exact Hd.
      * set (fresh := newContainer (cleanSegment next)) in *.
        destruct (setProp cur k fresh) as [level| |] eqn:Es; cbn [bind] in H;
          try discriminate.
        destruct (getProp level k) as [created| |] eqn:Ec; cbn [bind] in H;
          try discriminate.
        destruct (assignSegments (next :: rest) value created) as [child| |] eqn:E1;
          cbn [bind] in H; try discriminate.
        inversion H; subst c. clear H.
        pose proof (getProp_stored cur k fresh level created
                      (newContainer_container _) Es Ec) as Hcreated.
        subst created.
        apply putChild_decoded.
        -- exact (setProp_decoded cur k fresh level Hd Hc (cleanSegment_notBracket seg)
                    (newContainer_decoded _) Es).
        -- exact (IH fresh child Hv (newContainer_decoded _)
                    (newContainer_container _) E1).
Qed.

Lemma assignSegments_object segs value props c :
  assignSegments segs value (VObj props) = Ok c -> exists props', c = VObj props'.
Proof.
  destruct segs as [|seg [|next rest]].
  - intro H. inversion H. eauto.
  - cbn [assignSegments setProp]. destruct (assoc (cleanSegment seg) props).
    + intro H. inversion H. eauto.
    + destruct (str_eqb (cleanSegment seg) protoKey).
      * destruct (ignoredAsPrototype value); intro H; inversion H. eauto.
      * intro H. inversion H. eauto.
  - rewrite assignSegments_unfold. intro H.
    destruct (getProp (VObj props) (cleanSegment seg)) as [existing| |];
      cbn [bind] in H; try discriminate.
    destruct (truthy existing).
    + destruct (assignSegments (next :: rest) value existing); cbn [bind] in H;
        try discriminate.
      inversion H. cbn [putChild]. eauto.
    + destruct (setProp (VObj props) (cleanSegment seg) (newContainer (cleanSegment next)))
        as [level| |] eqn:Es; cbn [bind] in H; try discriminate.
      assert (Hl : exists props', level = VObj props').
      { cbn [setProp] in Es. destruct (assoc (cleanSegment seg) props).
        - inversion Es. eauto.
        - destruct (str_eqb (cleanSegment seg) protoKey).
          + destruct (ignoredAsPrototype _); inversion Es. eauto.
          + inversion Es. eauto. }
      destruct Hl as [props' ->].
      destruct (getProp (VObj props') (cleanSegment seg)) as [created| |];
        cbn [bind] in H; try discriminate.
      destruct (assignSegments (next :: rest) value created); cbn [bind] in H;
        try discriminate.
      inversion H. cbn [putChild]. eauto.
Qed.

Lemma decodePair_decoded pair props c :
  decoded (VObj props) = true -> decodePair pair (VObj props) = Ok c ->
  (exists props', c = VObj props') /\ decoded c = true.
Proof.
  intros Hd H. unfold decodePair in H.
  destruct (mapM decodeURIComponent (split 61 pair)) as [parts| |]; cbn [bind] in H;
    try discriminate.
  destruct (negb (nonEmpty (hd [] parts))); [inversion H; subst; eauto|].
  destruct (matchSegments (hd [] parts)) as [|seg segs]; [inversion H; subst; eauto|].
  split.
  - exact (assignSegments_object _ _ _ _ H).
  - refine (assignSegments_decoded _ (seg :: segs) (VObj props) c _ Hd eq_refl H).
    destruct parts as [|? [|? ?]]; reflexivity.
Qed.

Lemma decodePairs_decoded : forall pairs props c,
  decoded (VObj props) = true -> decodePairs pairs (VObj props) = Ok c ->
  (exists props', c = VObj props') /\ decoded c = true.
Proof.
  induction pairs as [|pair rest IH]; intros props c Hd H; cbn [decodePairs] in H.
  - inversion H; subst. eauto.
  - destruct (decodePair pair (VObj props)) as [next| |] eqn:E; cbn [bind] in H;
      try discriminate.
    destruct (decodePair_decoded pair props next Hd E) as [[props' ->] Hd'].
    exact (IH props' c Hd' H).
Qed.

Lemma decodePairs_followed : forall pairs props,
  decoded (VObj props) = true -> forallb followedPair pairs = true ->
  decodePairs pairs (VObj props) <> Beyond.
Proof.
  induction pairs as [|pair rest IH]; intros props Hd Hf; cbn [decodePairs];
    [discriminate|].
  cbn [forallb] in Hf. apply andb_true_iff in Hf. destruct Hf as [Hp Hrest].
  pose proof (decodePair_followed pair (VObj props) Hp) as Hnb.
  destruct (decodePair pair (VObj props)) as [next| |] eqn:E; cbn [bind];
    try discriminate; [|absurd_ne].
  destruct (decodePair_decoded pair props next Hd E) as [[props' ->] Hd'].
  exact (IH props' Hd' Hrest).
Qed.

Lemma queryStringToObject_pairs queryString :
  queryStringToObject queryString
  = if negb (nonEmpty queryString) || str_eqb queryString (lit "?") then Ok (VObj [])
    else decodePairs (queryPairs queryString) (VObj []).
Proof. reflexivity. Qed.

(** X13: for every query string in which no key has a segment named
    [length] nor, before its last segment, a segment named like a property
    of a built-in prototype, [queryStringToObject] returns or throws, and
    what it returns is an object that holds, at any depth, only strings,
    [undefined], objects and arrays, under keys without brackets and other
    than [__proto__]: no number, boolean or [null] comes out of the
    decoder, and a key that ends in [__proto__] leaves no own property of
    that name. *)
Theorem decoded_leaves_are_strings :
  forall queryString,
    forallb followedPair (queryPairs queryString) = true ->
    queryStringToObject queryString <> Beyond
    /\ forall v,
         queryStringToObject queryString = Ok v ->
         (exists props, v = VObj props) /\ decoded v = true.
Proof.
  intros q Hf. rewrite queryStringToObject_pairs.
  destruct (negb (nonEmpty q) || str_eqb q (lit "?")).
  - split; [discriminate|]. intros v H. inversion H; subst.
    split; [eauto | reflexivity].
  - split; [exact (decodePairs_followed _ [] eq_refl Hf)|].
    intros v H. exact (decodePairs_decoded _ [] v eq_refl H).
Qed.

Lemma decoded_leaves_are_strings_witness :
  queryStringToObject (lit "?n[0]=1&n[2]=true&flag&__proto__=x&o[__proto__]=y") <> Beyond
  /\ forall v,
       queryStringToObject (lit "?n[0]=1&n[2]=true&flag&__proto__=x&o[__proto__]=y")
       = Ok v ->
       (exists props, v = VObj props) /\ decoded v = true.
Proof.
  exact (decoded_leaves_are_strings
           (lit "?n[0]=1&n[2]=true&flag&__proto__=x&o[__proto__]=y") eq_refl).
Defined.

(** ** The characters of a query string *)

Lemma encodeURIComponent_chars n : forall s e,
  (length s <= n)%nat -> codeUnits s = true -> encodeURIComponent s = Ok e ->
  Forall (fun c => uriChar c = true) e.
Proof.
  induction n as [|n IH]; intros s e Hlen Hcu H.
  - destruct s; [|simpl in Hlen; lia]. inversion H. constructor.
  - destruct s as [|c rest]; [inversion H; constructor|].
    cbn [codeUnits forallb] in Hcu. apply andb_true_iff in Hcu.
    destruct Hcu as [Hc Hcu]. apply N.ltb_lt in Hc. fold (codeUnits rest) in Hcu.
    simpl in Hlen. cbn [encodeURIComponent] in H.
    destruct (uriUnreserved c) eqn:Eu.
    + destruct (encodeURIComponent rest) as [r| |] eqn:Er; cbn [bind] in H;
        try discriminate.
      inversion H; subst. constructor.
      * unfold uriChar. rewrite Eu. reflexivity.
      * apply (IH rest r); [lia | exact Hcu | exact Er].
    + destruct (isTrailSurrogate c); [discriminate|].
      destruct (isLeadSurrogate c) eqn:El.
      * destruct rest as [|d rest']; [discriminate|].
        destruct (isTrailSurrogate d) eqn:Ed; [|discriminate].
        destruct (encodeURIComponent rest') as [r| |] eqn:Er; cbn [bind] in H;
          try discriminate.
        inversion H; subst. apply Forall_app. split.
        -- apply uriChar_escapes. unfold isLeadSurrogate in El.
           unfold isTrailSurrogate in Ed. bool_to_prop. lia.
        -- cbn [codeUnits forallb] in Hcu. apply andb_true_iff in Hcu.
           apply (IH rest' r); [simpl in Hlen; lia | tauto | exact Er].
      * destruct (encodeURIComponent rest) as [r| |] eqn:Er; cbn [bind] in H;
          try discriminate.
        inversion H; subst. apply Forall_app. split.
        -- apply uriChar_escapes. lia.
        -- apply (IH rest r); [lia | exact Hcu | exact Er].
Qed.

Lemma queryChar_uriChar e :
  Forall (fun c => uriChar c = true) e -> Forall (fun c => queryChar c = true) e.
Proof.
  apply Forall_impl. intros c H. unfold queryChar. rewrite H. reflexivity.
Qed.

Lemma queryChar_decimal i : Forall (fun c => queryChar c = true) (decimal i).
Proof.
  pose proof (decimal_digits i) as H. rewrite forallb_forall in H.
  apply Forall_forall. intros c Hin. specialize (H c Hin).
  unfold isDigit in H. unfold queryChar, uriChar, uriUnreserved, isAlnum.
  rewrite H. reflexivity.
Qed.

Lemma codeUnits_app a b : codeUnits (a ++ b) = codeUnits a && codeUnits b.
Proof. unfold codeUnits. apply forallb_app. Qed.

Lemma codeUnits_decimal i : codeUnits (decimal i) = true.
Proof.
  pose proof (wellFormed_decimal i) as H. unfold wellFormed in H.
  apply andb_true_iff in H. tauto.
Qed.

Lemma codeUnits_fullKeyOf prefix key :
  codeUnits prefix = true -> codeUnits key = true ->
  codeUnits (fullKeyOf prefix key) = true.
Proof.
  intros Hp Hk. unfold fullKeyOf, bracketed.
  destruct (nonEmpty prefix); [|exact Hk].
  rewrite !codeUnits_app, Hp, Hk. reflexivity.
Qed.

Lemma codeUnits_bracketed prefix key :
  codeUnits prefix = true -> codeUnits key = true ->
  codeUnits (bracketed prefix key) = true.
Proof.
  intros Hp Hk. unfold bracketed. rewrite !codeUnits_app, Hp, Hk. reflexivity.
Qed.

Lemma codeUnits_toString v :
  inCodeUnits v = true -> isContainer v = false -> codeUnits (toString v) = true.
Proof.
  destruct v as [| |[]| | | |]; cbn [inCodeUnits isContainer toString];
    try reflexivity; try discriminate; auto.
Qed.

Lemma encodeScalar_chars k v part :
  codeUnits k = true -> inCodeUnits v = true -> isContainer v = false ->
  encodeScalar k v = Ok part -> Forall (fun c => queryChar c = true) part.
Proof.
  intros Hk Hv Hc H. unfold encodeScalar in H.
  destruct (encodeURIComponent k) as [ek| |] eqn:Ek; cbn [bind] in H; try discriminate.
  destruct (encodeURIComponent (toString v)) as [ev| |] eqn:Ev; cbn [bind] in H;
    try discriminate.
  inversion H; subst.
  apply Forall_app. split.
  - apply queryChar_uriChar. exact (encodeURIComponent_chars _ k ek (le_n _) Hk Ek).
  - constructor; [reflexivity|]. apply queryChar_uriChar.
    exact (encodeURIComponent_chars _ _ ev (le_n _) (codeUnits_toString v Hv Hc) Ev).
Qed.

Lemma encodeItem_chars k i v part :
  codeUnits k = true -> inCodeUnits v = true -> isContainer v = false ->
  encodeItem k i v = Ok part -> Forall (fun c => queryChar c = true) part.
Proof.
  intros Hk Hv Hc H. unfold encodeItem in H.
  destruct (encodeURIComponent k) as [ek| |] eqn:Ek; cbn [bind] in H; try discriminate.
  destruct (encodeURIComponent (toString v)) as [ev| |] eqn:Ev; cbn [bind] in H;
    try discriminate.
  inversion H; subst.
  apply Forall_app. split.
  - apply queryChar_uriChar. exact (encodeURIComponent_chars _ k ek (le_n _) Hk Ek).
  - constructor; [reflexivity|]. apply Forall_app. split; [apply queryChar_decimal|].
    constructor; [reflexivity|]. constructor; [reflexivity|].
    apply queryChar_uriChar.
    exact (encodeURIComponent_chars _ _ ev (le_n _) (codeUnits_toString v Hv Hc) Ev).
Qed.

Lemma safeParts_join parts :
  safeParts parts -> Forall (fun c => queryChar c = true) (join [38] parts).
Proof.
  intro H. apply join_chars; [|exact H]. constructor; [reflexivity | constructor].
Qed.

Lemma entriesParts_safe props :
  Forall (fun kv => encodesSafely (snd kv)) props ->
  entriesInCodeUnits inCodeUnits props = true ->
  forall prefix parts,
    codeUnits prefix = true -> entriesParts props prefix = Ok parts -> safeParts parts.
Proof.
  unfold entriesParts.
  induction 1 as [|[k v] rest Hv _ IH]; intros Ht prefix parts Hp H;
    cbn [entriesPartsWith] in H.
  - inversion H. constructor.
  - cbn [entriesInCodeUnits] in Ht. bool_to_prop. cbn [snd] in Hv.
    destruct (entryParts v (fullKeyOf prefix k)) as [pushed| |] eqn:E1;
      cbn [bind] in H; try discriminate.
    destruct (entriesPartsWith entryParts rest prefix) as [more| |] eqn:E2;
      cbn [bind] in H; try discriminate.
    inversion H; subst. apply Forall_app. split.
    + destruct (Hv ltac:(assumption)) as [Hentry _].
      apply (Hentry (fullKeyOf prefix k) pushed); [|exact E1].
      apply codeUnits_fullKeyOf; assumption.
    + apply (IH ltac:(assumption) prefix more Hp E2).
Qed.

Lemma indexedParts_safe elems :
  Forall encodesSafely elems ->
  forallb inCodeUnits elems = true ->
  forall prefix i parts,
    codeUnits prefix = true -> indexedParts elems prefix i = Ok parts -> safeParts parts.
Proof.
  unfold indexedParts.
  induction 1 as [|v rest Hv _ IH]; intros Ht prefix i parts Hp H;
    cbn [indexedPartsWith] in H.
  - inversion H. constructor.
  - cbn [forallb] in Ht. bool_to_prop.
    destruct (entryParts v (fullKeyOf prefix (decimal i))) as [pushed| |] eqn:E1;
      cbn [bind] in H; try discriminate.
    destruct (indexedPartsWith entryParts rest prefix (i + 1)) as [more| |] eqn:E2;
      cbn [bind] in H; try discriminate.
    inversion H; subst. apply Forall_app. split.
    + destruct (Hv ltac:(assumption)) as [Hentry _].
      apply (Hentry (fullKeyOf prefix (decimal i)) pushed); [|exact E1].
      apply codeUnits_fullKeyOf; [assumption | apply codeUnits_decimal].
    + apply (IH ltac:(assumption) prefix (i + 1) more Hp E2).
Qed.

Lemma itemsParts_safe elems :
  Forall encodesSafely elems ->
  forallb inCodeUnits elems = true ->
  forall fullKey i parts,
    codeUnits fullKey = true -> itemsParts elems fullKey i = Ok parts -> safeParts parts.
Proof.
  unfold itemsParts.
  induction 1 as [|v rest Hv _ IH]; intros Ht fullKey i parts Hk H;
    cbn [itemsPartsWith] in H.
  - inversion H. constructor.
  - cbn [forallb] in Ht. bool_to_prop.
    match type of H with
    | (pushed <- ?first ;; _) = _ =>
        destruct first as [pushed| |] eqn:E1; cbn [bind] in H; try discriminate
    end.
    destruct (itemsPartsWith entryParts rest fullKey (i + 1)) as [more| |] eqn:E2;
      cbn [bind] in H; try discriminate.
    inversion H; subst. apply Forall_app. split;
      [|apply (IH ltac:(assumption) fullKey (i + 1) more Hk E2)].
    assert (Hkey : codeUnits (bracketed fullKey (decimal i)) = true)
      by (apply codeUnits_bracketed; [assumption | apply codeUnits_decimal]).
    destruct (Hv ltac:(assumption)) as [_ Hquery].
    destruct v as [| | | | |props|elems' props].
    + inversion E1. constructor.
    + inversion E1. constructor.
    + destruct (encodeItem fullKey i (VBool b)) as [part| |] eqn:Ei; cbn [bind] in E1;
        try discriminate.
      inversion E1; subst. constructor; [|constructor].
      apply (encodeItem_chars fullKey i (VBool b)); auto.
    + destruct (encodeItem fullKey i (VNum repr)) as [part| |] eqn:Ei; cbn [bind] in E1;
        try discriminate.
      inversion E1; subst. constructor; [|constructor].
      apply (encodeItem_chars fullKey i (VNum repr)); auto.
    + destruct (encodeItem fullKey i (VStr s)) as [part| |] eqn:Ei; cbn [bind] in E1;
        try discriminate.
      inversion E1; subst. constructor; [|constructor].
      apply (encodeItem_chars fullKey i (VStr s)); auto.
    + destruct (entriesPartsWith entryParts props (bracketed fullKey (decimal i)))
        as [nested| |] eqn:En; cbn [bind] in E1; try discriminate.
      inversion E1; subst. constructor; [|constructor].
      apply safeParts_join.
      exact (Hquery (bracketed fullKey (decimal i)) nested Hkey En).
    + destruct (indexedPartsWith entryParts elems' (bracketed fullKey (decimal i)) 0)
        as [indexed| |] eqn:En; cbn [bind] in E1; try discriminate.
      destruct (entriesPartsWith entryParts props (bracketed fullKey (decimal i)))
        as [named| |] eqn:Em; cbn [bind] in E1; try discriminate.
      inversion E1; subst. constructor; [|constructor].
      apply safeParts_join.
      apply (Hquery (bracketed fullKey (decimal i)) (indexed ++ named) Hkey).
      cbn [queryPartsOf]. unfold indexedParts, entriesParts. rewrite En, Em. reflexivity.
Qed.

Lemma charParts_safe s : forall i prefix parts,
  codeUnits s = true -> codeUnits prefix = true ->
  entriesParts (charEntries s i) prefix = Ok parts -> safeParts parts.
Proof.
  unfold entriesParts.
  induction s as [|c rest IH]; intros i prefix parts Hs Hp H;
    cbn [charEntries entriesPartsWith] in H.
  - inversion H. constructor.
  - cbn [codeUnits forallb] in Hs. apply andb_true_iff in Hs. destruct Hs as [Hc Hs].
    cbn [entryParts] in H.
    destruct (encodeScalar (fullKeyOf prefix (decimal i)) (VStr [c])) as [part| |] eqn:E;
      cbn [bind] in H; try discriminate.
    destruct (entriesPartsWith entryParts (charEntries rest (i + 1)) prefix)
      as [more| |] eqn:E2; cbn [bind] in H; try discriminate.
    inversion H; subst. constructor.
    + apply (encodeScalar_chars (fullKeyOf prefix (decimal i)) (VStr [c])); auto.
      * apply codeUnits_fullKeyOf; [exact Hp | apply codeUnits_decimal].
      * cbn [inCodeUnits codeUnits forallb]. rewrite Hc. reflexivity.
    + exact (IH (i + 1) prefix more Hs Hp E2).
Qed.

Lemma value_encodesSafely v : encodesSafely v.
Proof.
  induction v as [| | b | repr | s | props IH | elems props IHe IHp]
    using jsvalue_nested_ind; intro Ht.
  - split; intros k parts Hk H; [inversion H; constructor | discriminate].
  - split; intros k parts Hk H; [inversion H; constructor | discriminate].
  - split; intros k parts Hk H; [|inversion H; constructor].
    cbn [entryParts] in H.
    destruct (encodeScalar k (VBool b)) as [part| |] eqn:E; cbn [bind] in H;
      try discriminate.
    inversion H; subst. constructor; [|constructor].
    apply (encodeScalar_chars k (VBool b)); auto.
  - split; intros k parts Hk H; [|inversion H; constructor].
    cbn [entryParts] in H.
    destruct (encodeScalar k (VNum repr)) as [part| |] eqn:E; cbn [bind] in H;
      try discriminate.
    inversion H; subst. constructor; [|constructor].
    apply (encodeScalar_chars k (VNum repr)); auto.
  - split; intros k parts Hk H.
    + cbn [entryParts] in H.
      destruct (encodeScalar k (VStr s)) as [part| |] eqn:E; cbn [bind] in H;
        try discriminate.
      inversion H; subst. constructor; [|constructor].
      apply (encodeScalar_chars k (VStr s)); auto.
    + cbn [queryPartsOf] in H. exact (charParts_safe s 0 k parts Ht Hk H).
  - cbn [inCodeUnits] in Ht. split; intros k parts Hk H.
    + cbn [entryParts] in H. fold (entriesParts props k) in H.
      destruct (entriesParts props k) as [nested| |] eqn:E; cbn [bind] in H;
        try discriminate.
      pose proof (safeParts_join nested (entriesParts_safe props IH Ht k nested Hk E))
        as Hsafe.
      inversion H; subst. destruct (nonEmpty (join [38] nested)); repeat constructor.
      exact Hsafe.
    + exact (entriesParts_safe props IH Ht k parts Hk H).
  - cbn [inCodeUnits] in Ht. apply andb_true_iff in Ht. destruct Ht as [Hte Htp].
    split; intros k parts Hk H.
    + cbn [entryParts] in H. exact (itemsParts_safe elems IHe Hte k 0 parts Hk H).
    + cbn [queryPartsOf] in H.
      destruct (indexedParts elems k 0) as [indexed| |] eqn:E1; cbn [bind] in H;
        try discriminate.
      destruct (entriesParts props k) as [named| |] eqn:E2; cbn [bind] in H;
        try discriminate.
      inversion H; subst. apply Forall_app. split.
      * exact (indexedParts_safe elems IHe Hte k 0 indexed Hk E1).
      * exact (entriesParts_safe props IHp Htp k named Hk E2).
Qed.

Lemma query_chars_of object prefix queryString :
  inCodeUnits object = true -> codeUnits prefix = true ->
  objectToQueryString object prefix = Ok queryString ->
  Forall (fun c => queryChar c = true) queryString.
Proof.
  intros Ht Hp H. unfold objectToQueryString in H.
  destruct (queryPartsOf object prefix) as [parts| |] eqn:E; cbn [bind] in H;
    try discriminate.
  inversion H; subst. apply safeParts_join.
  destruct (value_encodesSafely object Ht) as [_ Hquery].
  exact (Hquery prefix parts Hp E).
Qed.

(** X14: whatever the value, a query string [objectToQueryString] returns
    is made of the characters [encodeURIComponent] writes and of [&], [=],
    [[] and []]: it holds no [?], no [#], no space and nothing outside
    ASCII. *)
Theorem query_string_is_url_safe :
  forall object prefix queryString,
    inCodeUnits object = true -> codeUnits prefix = true ->
    objectToQueryString object prefix = Ok queryString ->
    Forall (fun c => queryChar c = true) queryString.
Proof.
  intros object prefix queryString. apply query_chars_of.
Qed.

Lemma query_string_is_url_safe_witness :
  Forall (fun c => queryChar c = true) (lit "a%20b[0]=1%262&a%20b%5B1%5D%5Bc%5D=%3F").
Proof.
  exact (query_string_is_url_safe
           (VObj [(lit "a b", VArr [VStr (lit "1&2"); VObj [(lit "c", VStr (lit "?"))]] [])])
           [] _ eq_refl eq_refl eq_refl).
Defined.

(** ** Pairs that are empty, and keys without a value *)

Lemma filter_pairs_doubled x b :
  filter nonEmpty (split 38 (x ++ [38; 38] ++ b))
  = filter nonEmpty (split 38 (x ++ [38] ++ b)).
Proof.
  cbn [app]. rewrite !split_app, !filter_app.
  change (split 38 (38 :: b)) with ([] :: split 38 b). reflexivity.
Qed.

(** X15: an empty pair changes nothing: a query string with [&&] is
    decoded as the one with a single [&] in its place. *)
Theorem empty_pairs_are_ignored :
  forall a b,
    queryStringToObject (a ++ [38; 38] ++ b) = queryStringToObject (a ++ [38] ++ b).
Proof.
  intros a b. unfold queryStringToObject.
  destruct a as [|c a'].
  - cbn [app nonEmpty negb orb].
    rewrite !str_eqb_neq by discriminate.
    exact (f_equal (fun pairs => decodePairs pairs (VObj [])) (filter_pairs_doubled [] b)).
  - cbn [app nonEmpty negb orb].
    rewrite !str_eqb_neq by (destruct a'; discriminate).
    destruct (N.eq_dec c 63) as [->|Hc].
    + exact (f_equal (fun pairs => decodePairs pairs (VObj []))
               (filter_pairs_doubled a' b)).
    + assert (Hkeep : forall rest : jsstring,
                 match c :: rest with 63 :: r => r | _ => c :: rest end = c :: rest).
      { intro rest. destruct c as [|pc]; [reflexivity|].
        do 6 (destruct pc as [pc|pc|]; try reflexivity). congruence. }
      rewrite !Hkeep.
      exact (f_equal (fun pairs => decodePairs pairs (VObj []))
               (filter_pairs_doubled (c :: a') b)).
Qed.


Lemma unreserved_notBracket name :
  forallb uriUnreserved name = true -> forallb notBracket name = true.
Proof.
  intro H. rewrite forallb_forall in *. intros c Hin. specialize (H c Hin).
  destruct (unreserved_ascii c H) as [_ _].
  unfold notBracket. destruct (N.eqb_spec c 91) as [->|]; [discriminate|].
  destruct (N.eqb_spec c 93) as [->|]; [discriminate|]. reflexivity.
Qed.

(** X16: a key of unreserved characters that stands alone in the query
    string, without [=], is stored with the value [undefined]; and the
    object so decoded is encoded to the empty string, not back to the
    key. *)
Theorem bare_key_is_undefined_and_not_encoded_back :
  forall key,
    forallb uriUnreserved key = true -> nonEmpty key = true -> key <> protoKey ->
    queryStringToObject key = Ok (VObj [(key, VUndef)])
    /\ objectToQueryString (VObj [(key, VUndef)]) [] = Ok [].
Proof.
  intros key Hu Hne Hproto. split; [|reflexivity].
  pose proof (unreserved_chars key Hu) as Hch.
  pose proof (unreserved_notBracket key Hu) as Hnb.
  assert (Hread : queryStringToObject key = decodePairs [key] (VObj [])).
  { unfold queryStringToObject. destruct key as [|c rest]; [discriminate|].
    cbn [nonEmpty negb orb].
    inversion Hch as [|? ? (_ & _ & _ & _ & _ & H63) Hrest]; subst.
    rewrite str_eqb_neq by (intro Heq; inversion Heq; congruence).
    assert (Hkeep : match c :: rest with 63 :: r => r | _ => c :: rest end = c :: rest).
    { destruct c as [|pc]; [reflexivity|].
      do 6 (destruct pc as [pc|pc|]; try reflexivity). congruence. }
    rewrite Hkeep, split_none; [reflexivity|].
    eapply Forall_impl; [|exact Hch]. cbn beta. tauto. }
  rewrite Hread. cbn [decodePairs]. unfold decodePair.
  rewrite split_none by (eapply Forall_impl; [|exact Hch]; cbn beta; tauto).
  cbn [mapM].
  rewrite decodeURIComponent_literal
    by (eapply Forall_impl; [|exact Hch]; cbn beta; tauto).
  cbn [bind hd]. rewrite Hne. cbn [negb].
  pose proof (matchSegments_pathKey key [] Hnb Hne (Forall_nil _)) as Hseg.
  cbn [pathKey map concat] in Hseg. rewrite app_nil_r in Hseg. rewrite Hseg.
  cbn [assignSegments]. rewrite (cleanSegment_plain key Hnb).
  cbn [setProp assoc]. rewrite (str_eqb_neq key protoKey Hproto). reflexivity.
Qed.

Lemma bare_key_is_undefined_and_not_encoded_back_witness :
  queryStringToObject (lit "debug") = Ok (VObj [(lit "debug", VUndef)])
  /\ objectToQueryString (VObj [(lit "debug", VUndef)]) [] = Ok [].
Proof.
  apply (bare_key_is_undefined_and_not_encoded_back (lit "debug")).
  - reflexivity.
  - reflexivity.
  - discriminate.
Defined.

(** ** A parameter named like the marker *)



(** ** The state without a window *)

(** X18: without a [window], the state the hook starts from is the
    validated defaults: the query string is empty, no marker is seen in
    it, and nothing is thrown. *)
Theorem state_without_window_is_the_defaults :
  forall JSON_parse this,
    queryConverter this = QueryStringConverter ->
    dataCompressor this = DataCompressor ->
    paramsFromLocation JSON_parse None this
    = Ok (validated this (spread (applyDefaultValues this (VObj [])) (VObj []))).
Proof.
  intros JSON_parse this Hqc Hdc.
  unfold paramsFromLocation, getQueryParams, parseQueryParams.
  assert (Hplain : parsedSerializedParams this [] (applyDefaultValues this (VObj []))
                   = Ok (validated this
                           (spread (applyDefaultValues this (VObj [])) (VObj [])))).
  { unfold parsedSerializedParams. rewrite Hqc. reflexivity. }
  destruct (compressionOptions this) as [co|]; [|exact Hplain].
  rewrite Hdc. cbn [comp_hasCompressedData DataCompressor].
  rewrite hasCompressedData_empty. exact Hplain.
Qed.

Lemma state_without_window_is_the_defaults_witness :
  let this := compressingCore acceptAll None in
  paramsFromLocation JSON_parse_examples None this
  = Ok (validated this (spread (applyDefaultValues this (VObj [])) (VObj []))).
Proof.
  exact (state_without_window_is_the_defaults JSON_parse_examples
           (compressingCore acceptAll None) eq_refl eq_refl).
Defined.

(** ** The names URLSearchParams sees in a regular query string *)

Lemma encodeURIComponent_wellFormed n : forall s e,
  (length s <= n)%nat -> encodeURIComponent s = Ok e -> isWellFormed s = true.
Proof.
  induction n as [|n IH]; intros s e Hlen H.
  - destruct s; [reflexivity | simpl in Hlen; lia].
  - destruct s as [|c rest]; [reflexivity|].
    simpl in Hlen. cbn [encodeURIComponent isWellFormed] in *.
    destruct (uriUnreserved c) eqn:Eu.
    + destruct (unreserved_ascii c Eu) as [Ha _].
      assert (Ht : isTrailSurrogate c = false)
        by (unfold isTrailSurrogate; n_cases; reflexivity).
      assert (Hl : isLeadSurrogate c = false)
        by (unfold isLeadSurrogate; n_cases; reflexivity).
      rewrite Ht, Hl.
      destruct (encodeURIComponent rest) as [r| |] eqn:Er; cbn [bind] in H;
        try discriminate.
      apply (IH rest r); [lia | exact Er].
    + destruct (isTrailSurrogate c); [discriminate|].
      destruct (isLeadSurrogate c).
      * destruct rest as [|d rest']; [discriminate|].
        destruct (isTrailSurrogate d); [|discriminate]. cbn [andb].
        destruct (encodeURIComponent rest') as [r| |] eqn:Er; cbn [bind] in H;
          try discriminate.
        apply (IH rest' r); [simpl in Hlen; lia | exact Er].
      * destruct (encodeURIComponent rest) as [r| |] eqn:Er; cbn [bind] in H;
          try discriminate.
        apply (IH rest r); [lia | exact Er].
Qed.

Lemma percentDecode_scalars_app l X :
  Forall isScalarValue l ->
  percentDecode (concat (map escapeOf l) ++ X) = concat (map utf8Encode l) ++ percentDecode X.
Proof.
  induction 1 as [|cp l Hcp _ IH]; [reflexivity|].
  cbn [map concat]. rewrite <- !app_assoc, percentDecode_escapeOf by exact Hcp.
  rewrite IH. reflexivity.
Qed.

Lemma utf8Decode_scalars_app l Y :
  Forall isScalarValue l ->
  utf8Decode (concat (map utf8Encode l) ++ Y) 0 0 0x80 0xBF
  = l ++ utf8Decode Y 0 0 0x80 0xBF.
Proof.
  induction 1 as [|cp l Hcp _ IH]; [reflexivity|].
  cbn [map concat]. rewrite <- !app_assoc, utf8Decode_scalar by exact Hcp.
  rewrite IH. reflexivity.
Qed.

Lemma utf16_ascii a :
  Forall (fun c => c < 128) a -> concat (map utf16Encode a) = a.
Proof.
  induction 1 as [|c a Hc _ IH]; [reflexivity|].
  cbn [map concat]. rewrite IH. unfold utf16Encode.
  destruct (N.ltb_spec c 65536); [reflexivity | lia].
Qed.

(** The form decoder on an encoded text followed by plain ASCII. *)
Lemma formDecode_encoded_app s e X :
  wellFormed s = true -> encodeURIComponent s = Ok e ->
  Forall (fun c => c < 128 /\ c <> 37 /\ c <> 43) X ->
  formDecode (e ++ X) = s ++ X.
Proof.
  intros Hwf He HX.
  destruct (encode_scalars (length s) s (le_n _) Hwf) as (He' & Hsv & Hu).
  rewrite He in He'. inversion He' as [Heq]. clear He'.
  unfold formDecode, utf8DecodeString.
  rewrite plusToSpace_plain.
  - rewrite percentDecode_scalars_app by exact Hsv.
    rewrite percentDecode_literal by (eapply Forall_impl; [|exact HX]; cbn beta; tauto).
    rewrite utf8Decode_scalars_app by exact Hsv.
    rewrite utf8Decode_ascii by (eapply Forall_impl; [|exact HX]; cbn beta; tauto).
    rewrite map_app, concat_app. unfold usv in Hu. rewrite Hu.
    rewrite utf16_ascii by (eapply Forall_impl; [|exact HX]; cbn beta; tauto).
    reflexivity.
  - apply Forall_app. split.
    + eapply Forall_impl; [|apply uriChar_scalars; exact Hsv].
      intros c Hc. apply uriChar_ascii in Hc. tauto.
    + eapply Forall_impl; [|exact HX]. cbn beta. tauto.
Qed.

Lemma encoded_key k ek :
  codeUnits k = true -> encodeURIComponent k = Ok ek ->
  wellFormed k = true /\ Forall (fun c => uriChar c = true) ek.
Proof.
  intros Hk He. split.
  - unfold wellFormed. rewrite Hk.
    exact (encodeURIComponent_wellFormed _ k ek (le_n _) He).
  - exact (encodeURIComponent_chars _ k ek (le_n _) Hk He).
Qed.

(** The one name of a pair [key=value], with plain ASCII between the
    encoded key and the [=]. *)
Lemma pairNames_one k ek X ev :
  codeUnits k = true -> encodeURIComponent k = Ok ek ->
  Forall (fun c => c < 128 /\ c <> 37 /\ c <> 43 /\ c <> 38 /\ c <> 61) X ->
  Forall (fun c => uriChar c = true) ev ->
  pairNames [ek ++ X ++ [61] ++ ev] = [k ++ X].
Proof.
  intros Hk He HX Hev. destruct (encoded_key k ek Hk He) as [Hwf Hek].
  unfold pairNames. rewrite pairsOf_single.
  - cbn [map]. unfold pairName. rewrite app_assoc.
    destruct (takeWhile_app_stop (fun b => negb (b =? 61)) (ek ++ X) 61 ev) as [Ht _].
    { apply forallb_forall. intros c Hin. apply in_app_or in Hin.
      destruct (N.eqb_spec c 61) as [->|]; [exfalso|reflexivity].
      destruct Hin as [Hin|Hin].
      - rewrite Forall_forall in Hek. apply Hek, uriChar_ascii in Hin. tauto.
      - rewrite Forall_forall in HX. apply HX in Hin. tauto. }
    { reflexivity. }
    cbn [app] in Ht |- *. rewrite Ht.
    rewrite (formDecode_encoded_app k ek X Hwf He); [reflexivity|].
    eapply Forall_impl; [|exact HX]. cbn beta. tauto.
  - destruct ek, X; reflexivity.
  - apply Forall_app. split.
    + eapply Forall_impl; [|exact Hek]. intros c Hc. apply uriChar_ascii in Hc. tauto.
    + apply Forall_app. split.
      * eapply Forall_impl; [|exact HX]. cbn beta. tauto.
      * constructor; [lia|]. eapply Forall_impl; [|exact Hev].
        intros c Hc. apply uriChar_ascii in Hc. tauto.
Qed.

Lemma pairNames_scalar k v part :
  codeUnits k = true -> inCodeUnits v = true -> isContainer v = false ->
  encodeScalar k v = Ok part -> pairNames [part] = [k].
Proof.
  intros Hk Hv Hc H. unfold encodeScalar in H.
  destruct (encodeURIComponent k) as [ek| |] eqn:Ek; cbn [bind] in H; try discriminate.
  destruct (encodeURIComponent (toString v)) as [ev| |] eqn:Ev; cbn [bind] in H;
    try discriminate.
  inversion H; subst.
  pose proof (pairNames_one k ek [] ev Hk Ek (Forall_nil _)
                (encodeURIComponent_chars _ _ ev (le_n _) (codeUnits_toString v Hv Hc) Ev))
    as Hone.
  cbn [app] in Hone. rewrite app_nil_r in Hone. exact Hone.
Qed.

Lemma pairNames_item k i v part :
  codeUnits k = true -> inCodeUnits v = true -> isContainer v = false ->
  encodeItem k i v = Ok part -> pairNames [part] = [k ++ [91] ++ decimal i ++ [93]].
Proof.
  intros Hk Hv Hc H. unfold encodeItem in H.
  destruct (encodeURIComponent k) as [ek| |] eqn:Ek; cbn [bind] in H; try discriminate.
  destruct (encodeURIComponent (toString v)) as [ev| |] eqn:Ev; cbn [bind] in H;
    try discriminate.
  inversion H; subst.
  pose proof (pairNames_one k ek ([91] ++ decimal i ++ [93]) ev Hk Ek) as Hone.
  rewrite <- Hone.
  - rewrite <- !app_assoc. reflexivity.
  - constructor; [lia|]. apply Forall_app. split.
    + pose proof (decimal_digits i) as Hd. rewrite forallb_forall in Hd.
      apply Forall_forall. intros c Hin. specialize (Hd c Hin).
      unfold isDigit in Hd. bool_to_prop. lia.
    + constructor; [lia | constructor].
  - exact (encodeURIComponent_chars _ _ ev (le_n _) (codeUnits_toString v Hv Hc) Ev).
Qed.

Lemma pairNames_app a b : pairNames (a ++ b) = pairNames a ++ pairNames b.
Proof. unfold pairNames. rewrite pairsOf_app, map_app. reflexivity. Qed.

Lemma bracketedNames_app a b :
  bracketedNames a -> bracketedNames b -> bracketedNames (a ++ b).
Proof.
  unfold bracketedNames. rewrite pairNames_app. intros Ha Hb.
  apply Forall_app. split; assumption.
Qed.

Lemma bracketedNames_joined nested :
  bracketedNames nested -> bracketedNames [join [38] nested].
Proof. unfold bracketedNames, pairNames. rewrite pairsOf_joined. tauto. Qed.

Lemma In_bracketed fullKey key : In 91 (bracketed fullKey key).
Proof. unfold bracketed. apply in_or_app. right. left. reflexivity. Qed.

Lemma fullKeyOf_bracketed prefix key :
  nonEmpty prefix = true -> fullKeyOf prefix key = bracketed prefix key.
Proof. unfold fullKeyOf. intros ->. reflexivity. Qed.

Lemma In_nonEmpty {A} (x : A) l : In x l -> nonEmpty l = true.
Proof. destruct l; [contradiction | reflexivity]. Qed.

Lemma entriesParts_bracketed props :
  Forall (fun kv => encodesBracketed (snd kv)) props ->
  entriesInCodeUnits inCodeUnits props = true ->
  forall prefix parts,
    codeUnits prefix = true -> nonEmpty prefix = true ->
    entriesParts props prefix = Ok parts -> bracketedNames parts.
Proof.
  unfold entriesParts.
  induction 1 as [|[k v] rest Hv _ IH]; intros Ht prefix parts Hp Hne H;
    cbn [entriesPartsWith] in H.
  - inversion H. constructor.
  - cbn [entriesInCodeUnits] in Ht. bool_to_prop. cbn [snd] in Hv.
    destruct (entryParts v (fullKeyOf prefix k)) as [pushed| |] eqn:E1;
      cbn [bind] in H; try discriminate.
    destruct (entriesPartsWith entryParts rest prefix) as [more| |] eqn:E2;
      cbn [bind] in H; try discriminate.
    inversion H; subst. apply bracketedNames_app.
    + destruct (Hv ltac:(assumption)) as [Hentry _].
      rewrite (fullKeyOf_bracketed prefix k Hne) in E1.
      apply (Hentry (bracketed prefix k) pushed); [|apply In_bracketed|exact E1].
      apply codeUnits_bracketed; assumption.
    + apply (IH ltac:(assumption) prefix more Hp Hne E2).
Qed.

Lemma indexedParts_bracketed elems :
  Forall encodesBracketed elems ->
  forallb inCodeUnits elems = true ->
  forall prefix i parts,
    codeUnits prefix = true -> nonEmpty prefix = true ->
    indexedParts elems prefix i = Ok parts -> bracketedNames parts.
Proof.
  unfold indexedParts.
  induction 1 as [|v rest Hv _ IH]; intros Ht prefix i parts Hp Hne H;
    cbn [indexedPartsWith] in H.
  - inversion H. constructor.
  - cbn [forallb] in Ht. bool_to_prop.
    destruct (entryParts v (fullKeyOf prefix (decimal i))) as [pushed| |] eqn:E1;
      cbn [bind] in H; try discriminate.
    destruct (indexedPartsWith entryParts rest prefix (i + 1)) as [more| |] eqn:E2;
      cbn [bind] in H; try discriminate.
    inversion H; subst. apply bracketedNames_app.
    + destruct (Hv ltac:(assumption)) as [Hentry _].
      rewrite (fullKeyOf_bracketed prefix _ Hne) in E1.
      apply (Hentry (bracketed prefix (decimal i)) pushed);
        [|apply In_bracketed|exact E1].
      apply codeUnits_bracketed; [assumption | apply codeUnits_decimal].
    + apply (IH ltac:(assumption) prefix (i + 1) more Hp Hne E2).
Qed.

Lemma bracketedNames_one n : In 91 n -> Forall (fun n => In 91 n) [n].
Proof. intro H. constructor; [exact H | constructor]. Qed.

Lemma itemsParts_bracketed elems :
  Forall encodesBracketed elems ->
  forallb inCodeUnits elems = true ->
  forall fullKey i parts,
    codeUnits fullKey = true -> itemsParts elems fullKey i = Ok parts ->
    bracketedNames parts.
Proof.
  unfold itemsParts.
  induction 1 as [|v rest Hv _ IH]; intros Ht fullKey i parts Hk H;
    cbn [itemsPartsWith] in H.
  - inversion H. constructor.
  - cbn [forallb] in Ht. bool_to_prop.
    match type of H with
    | (pushed <- ?first ;; _) = _ =>
        destruct first as [pushed| |] eqn:E1; cbn [bind] in H; try discriminate
    end.
    destruct (itemsPartsWith entryParts rest fullKey (i + 1)) as [more| |] eqn:E2;
      cbn [bind] in H; try discriminate.
    inversion H; subst. apply bracketedNames_app;
      [|apply (IH ltac:(assumption) fullKey (i + 1) more Hk E2)].
    assert (Hkey : codeUnits (bracketed fullKey (decimal i)) = true)
      by (apply codeUnits_bracketed; [assumption | apply codeUnits_decimal]).
    assert (Hitem : forall w part,
              inCodeUnits w = true -> isContainer w = false ->
              encodeItem fullKey i w = Ok part -> bracketedNames [part]).
    { intros w part Hw Hc Hi. unfold bracketedNames.
      rewrite (pairNames_item fullKey i w part Hk Hw Hc Hi).
      apply bracketedNames_one, in_or_app. right. left. reflexivity. }
    destruct (Hv ltac:(assumption)) as (_ & Hquery & _).
    destruct v as [| | | | |props|elems' props].
    + inversion E1. constructor.
    + inversion E1. constructor.
    + destruct (encodeItem fullKey i (VBool b)) as [part| |] eqn:Ei; cbn [bind] in E1;
        try discriminate.
      inversion E1; subst. apply (Hitem (VBool b)); auto.
    + destruct (encodeItem fullKey i (VNum repr)) as [part| |] eqn:Ei; cbn [bind] in E1;
        try discriminate.
      inversion E1; subst. apply (Hitem (VNum repr)); auto.
    + destruct (encodeItem fullKey i (VStr s)) as [part| |] eqn:Ei; cbn [bind] in E1;
        try discriminate.
      inversion E1; subst. apply (Hitem (VStr s)); auto.
    + destruct (entriesPartsWith entryParts props (bracketed fullKey (decimal i)))
        as [nested| |] eqn:En; cbn [bind] in E1; try discriminate.
      inversion E1; subst. apply bracketedNames_joined.
      exact (Hquery (bracketed fullKey (decimal i)) nested Hkey (In_bracketed _ _) En).
    + destruct (indexedPartsWith entryParts elems' (bracketed fullKey (decimal i)) 0)
        as [indexed| |] eqn:En; cbn [bind] in E1; try discriminate.
      destruct (entriesPartsWith entryParts props (bracketed fullKey (decimal i)))
        as [named| |] eqn:Em; cbn [bind] in E1; try discriminate.
      inversion E1; subst. apply bracketedNames_joined.
      apply (Hquery (bracketed fullKey (decimal i)) (indexed ++ named) Hkey
               (In_bracketed _ _)).
      cbn [queryPartsOf]. unfold indexedParts, entriesParts. rewrite En, Em. reflexivity.
Qed.

Lemma charParts_bracketed s : forall i prefix parts,
  codeUnits s = true -> codeUnits prefix = true -> nonEmpty prefix = true ->
  entriesParts (charEntries s i) prefix = Ok parts -> bracketedNames parts.
Proof.
  unfold entriesParts.
  induction s as [|c rest IH]; intros i prefix parts Hs Hp Hne H;
    cbn [charEntries entriesPartsWith] in H.
  - inversion H. constructor.
  - cbn [codeUnits forallb] in Hs. apply andb_true_iff in Hs. destruct Hs as [Hc Hs].
    cbn [entryParts] in H. rewrite (fullKeyOf_bracketed prefix _ Hne) in H.
    destruct (encodeScalar (bracketed prefix (decimal i)) (VStr [c])) as [part| |] eqn:E;
      cbn [bind] in H; try discriminate.
    destruct (entriesPartsWith entryParts (charEntries rest (i + 1)) prefix)
      as [more| |] eqn:E2; cbn [bind] in H; try discriminate.
    inversion H; subst.
    change (part :: more) with ([part] ++ more). apply bracketedNames_app.
    + unfold bracketedNames.
      rewrite (pairNames_scalar (bracketed prefix (decimal i)) (VStr [c]) part); auto.
      * apply bracketedNames_one, In_bracketed.
      * apply codeUnits_bracketed; [exact Hp | apply codeUnits_decimal].
      * cbn [inCodeUnits codeUnits forallb]. rewrite Hc. reflexivity.
    + exact (IH (i + 1) prefix more Hs Hp Hne E2).
Qed.

Lemma value_encodesBracketed v : encodesBracketed v.
Proof.
  assert (Hscalar : forall w, isContainer w = false -> inCodeUnits w = true ->
            forall fullKey parts,
              codeUnits fullKey = true -> In 91 fullKey ->
              (part <- encodeScalar fullKey w ;; Ok [part]) = Ok parts ->
              bracketedNames parts).
  { intros w Hc Hw fullKey parts Hk Hin H.
    destruct (encodeScalar fullKey w) as [part| |] eqn:E; cbn [bind] in H;
      try discriminate.
    inversion H; subst. unfold bracketedNames.
    rewrite (pairNames_scalar fullKey w part Hk Hw Hc E).
    apply bracketedNames_one. exact Hin. }
  induction v as [| | b | repr | s | props IH | elems props IHe IHp]
    using jsvalue_nested_ind; intro Ht.
  - repeat split; try discriminate; intros k parts Hk Hin H; inversion H; constructor.
  - repeat split; try discriminate; intros k parts Hk Hin H; inversion H; constructor.
  - repeat split; try discriminate; intros k parts Hk Hin H.
    + exact (Hscalar (VBool b) eq_refl Ht k parts Hk Hin H).
    + inversion H. constructor.
  - repeat split; try discriminate; intros k parts Hk Hin H.
    + exact (Hscalar (VNum repr) eq_refl Ht k parts Hk Hin H).
    + inversion H. constructor.
  - repeat split; try discriminate; intros k parts Hk Hin H.
    + exact (Hscalar (VStr s) eq_refl Ht k parts Hk Hin H).
    + cbn [queryPartsOf] in H.
      exact (charParts_bracketed s 0 k parts Ht Hk (In_nonEmpty _ _ Hin) H).
  - cbn [inCodeUnits] in Ht. repeat split; try discriminate; intros k parts Hk Hin H.
    + cbn [entryParts] in H. fold (entriesParts props k) in H.
      destruct (entriesParts props k) as [nested| |] eqn:E; cbn [bind] in H;
        try discriminate.
      inversion H; subst. unfold bracketedNames, pairNames. rewrite pairsOf_nested.
      exact (entriesParts_bracketed props IH Ht k nested Hk (In_nonEmpty _ _ Hin) E).
    + exact (entriesParts_bracketed props IH Ht k parts Hk (In_nonEmpty _ _ Hin) H).
  - cbn [inCodeUnits] in Ht. apply andb_true_iff in Ht. destruct Ht as [Hte Htp].
    split; [|split].
    + intros k parts Hk _ H. cbn [entryParts] in H.
      exact (itemsParts_bracketed elems IHe Hte k 0 parts Hk H).
    + intros k parts Hk Hin H. cbn [queryPartsOf] in H.
      destruct (indexedParts elems k 0) as [indexed| |] eqn:E1; cbn [bind] in H;
        try discriminate.
      destruct (entriesParts props k) as [named| |] eqn:E2; cbn [bind] in H;
        try discriminate.
      inversion H; subst. apply bracketedNames_app.
      * exact (indexedParts_bracketed elems IHe Hte k 0 indexed Hk
                 (In_nonEmpty _ _ Hin) E1).
      * exact (entriesParts_bracketed props IHp Htp k named Hk (In_nonEmpty _ _ Hin) E2).
    + intros elems0 props0 k parts Heq Hk H. cbn [entryParts] in H.
      exact (itemsParts_bracketed elems IHe Hte k 0 parts Hk H).
Qed.

(** At the root, a name without bracket is a key of the mapping. *)
Lemma rootParts_names name props :
  ~ In 91 name ->
  entriesInCodeUnits inCodeUnits props = true ->
  Forall (fun k => nonEmpty k = true /\ k <> name) (map fst props) ->
  forall parts,
    entriesParts props [] = Ok parts ->
    Forall (fun n => n <> name) (pairNames parts).
Proof.
  intros Hname. unfold entriesParts.
  assert (Hweaken : forall parts, bracketedNames parts ->
                                   Forall (fun n => n <> name) (pairNames parts)).
  { intros parts H. eapply Forall_impl; [|exact H]. cbn beta.
    intros n Hin Heq. subst. contradiction. }
  induction props as [|[k v] rest IH]; intros Ht Hkeys parts H;
    cbn [entriesPartsWith] in H.
  - inversion H. constructor.
  - cbn [entriesInCodeUnits] in Ht. bool_to_prop.
    cbn [map fst] in Hkeys. inversion Hkeys as [|? ? [Hne Hk] Hrest]; subst.
    replace (fullKeyOf [] k) with k in H by reflexivity.
    destruct (entryParts v k) as [pushed| |] eqn:E1; cbn [bind] in H; try discriminate.
    destruct (entriesPartsWith entryParts rest []) as [more| |] eqn:E2;
      cbn [bind] in H; try discriminate.
    inversion H; subst. rewrite pairNames_app. apply Forall_app.
    split; [|apply IH; auto].
    assert (Hscalar : forall w, w = v -> isContainer w = false ->
              (part <- encodeScalar k w ;; Ok [part]) = Ok pushed ->
              Forall (fun n => n <> name) (pairNames pushed)).
    { intros w -> Hc Hs.
      destruct (encodeScalar k v) as [part| |] eqn:E; cbn [bind] in Hs;
        try discriminate.
      inversion Hs; subst.
      rewrite (pairNames_scalar k v part) by assumption.
      constructor; [exact Hk | constructor]. }
    destruct v as [| | b | repr | s | props' | elems props'].
    + inversion E1. constructor.
    + inversion E1. constructor.
    + exact (Hscalar (VBool b) eq_refl eq_refl E1).
    + exact (Hscalar (VNum repr) eq_refl eq_refl E1).
    + exact (Hscalar (VStr s) eq_refl eq_refl E1).
    + apply Hweaken. cbn [entryParts] in E1. fold (entriesParts props' k) in E1.
      destruct (entriesParts props' k) as [nested| |] eqn:E; cbn [bind] in E1;
        try discriminate.
      inversion E1; subst. unfold bracketedNames, pairNames. rewrite pairsOf_nested.
      refine (entriesParts_bracketed props' _ _ k nested _ Hne E); try assumption.
      apply Forall_forall. intros kv _. apply value_encodesBracketed.
    + apply Hweaken.
      destruct (value_encodesBracketed (VArr elems props') ltac:(assumption))
        as (_ & _ & Harr).
      exact (Harr elems props' k pushed eq_refl ltac:(assumption) E1).
Qed.

Lemma queryChar_ascii c :
  queryChar c = true -> c < 128 /\ c <> 63.
Proof.
  unfold queryChar. intro H.
  do 4 (apply orb_true_iff in H; destruct H as [H|H];
        [|apply N.eqb_eq in H; subst c; split; [lia | discriminate]]).
  apply uriChar_ascii in H. tauto.
Qed.

Lemma regular_query_absent props paramName queryString basePath :
  inCodeUnits (VObj props) = true ->
  Forall (fun k => nonEmpty k = true /\ k <> paramName) (map fst props) ->
  forallb uriUnreserved paramName = true ->
  Forall (fun c => c <> 63) basePath ->
  objectToQueryString (VObj props) [] = Ok queryString ->
  hasCompressedData (basePath ++ [63] ++ queryString) paramName = false.
Proof.
  revert props paramName queryString basePath.
  intros props name q basePath Ht Hkeys Hname Hbase H.
  pose proof (query_chars_of (VObj props) [] q Ht eq_refl H) as Hq.
  unfold objectToQueryString in H. cbn [queryPartsOf] in H.
  destruct (entriesParts props []) as [parts| |] eqn:E; cbn [bind] in H;
    try discriminate.
  assert (Hq' : join [38] parts = q) by (inversion H; reflexivity). clear H.
  assert (Hnames : Forall (fun n => n <> name) (pairNames parts)).
  { apply (rootParts_names name props); try assumption.
    intro Hin. pose proof (unreserved_notBracket name Hname) as Hnb.
    rewrite forallb_forall in Hnb. specialize (Hnb 91 Hin). discriminate. }
  assert (Hascii : Forall (fun c => c < 128) q /\ Forall (fun c => c <> 63) q).
  { split; (eapply Forall_impl; [|exact Hq]); intros c Hc;
      apply queryChar_ascii in Hc; tauto. }
  destruct Hascii as [Hascii H63].
  unfold hasCompressedData. cbn [app]. rewrite (searchOf_query basePath q Hbase H63).
  unfold URLSearchParams.
  assert (Hinit : match q with 63 :: rest => rest | _ => q end = q).
  { destruct q as [|c rest]; [reflexivity|].
    inversion H63 as [|? ? Hc _]; subst.
    destruct c as [|pc]; [reflexivity|].
    do 6 (destruct pc as [pc|pc|]; try reflexivity). congruence. }
  rewrite Hinit, (utf8Bytes_ascii q Hascii). rewrite <- Hq', pairsOf_join.
  unfold searchParams_has.
  rewrite (usv_ascii name)
    by (eapply Forall_impl; [|exact (unreserved_chars _ Hname)]; cbn beta; tauto).
  unfold pairNames in Hnames.
  induction (pairsOf parts) as [|p ps IH]; [reflexivity|].
  cbn [map existsb] in *. inversion Hnames as [|? ? Hp Hps]; subst.
  rewrite (IH Hps), orb_false_r.
  apply str_eqb_neq. exact Hp.
Qed.

(** X19: a regular query string holds no parameter under the name of the
    marker unless the mapping has a key of that name: for a mapping whose
    keys are not empty and differ from the marker name, a name of
    unreserved characters, [hasCompressedData] is false of the query
    string [objectToQueryString] returns, behind [?] and any text without
    [?]. *)
Theorem regular_query_has_no_marker :
  forall props paramName queryString basePath,
    inCodeUnits (VObj props) = true ->
    Forall (fun k => nonEmpty k = true /\ k <> paramName) (map fst props) ->
    forallb uriUnreserved paramName = true ->
    Forall (fun c => c <> 63) basePath ->
    objectToQueryString (VObj props) [] = Ok queryString ->
    hasCompressedData (basePath ++ [63] ++ queryString) paramName = false.
Proof.
  intros props paramName queryString basePath. apply regular_query_absent.
Qed.

Lemma regular_query_has_no_marker_witness :
  hasCompressedData (lit "/p?q=qs&f[0]=x") (lit "qs") = false.
Proof.
  exact (regular_query_has_no_marker
           [(lit "q", VStr (lit "qs")); (lit "f", VArr [VStr (lit "x")] [])]
           (lit "qs") (lit "q=qs&f[0]=x") (lit "/p") eq_refl
           ltac:(repeat constructor; discriminate) eq_refl
           ltac:(repeat constructor; discriminate) eq_refl).
Defined.

(** ** The regular form with compression configured *)

Lemma keyChars_codeUnits k : keyChars k = true -> codeUnits k = true.
Proof.
  intro H. destruct (keyChars_parts k H) as (Hwf & _ & _).
  unfold wellFormed in Hwf. apply andb_true_iff in Hwf. tauto.
Qed.

Lemma supportedEntries_inCodeUnits keyOk props :
  (forall k v, keyOk k v = true -> keyChars k = true) ->
  Forall (fun kv => supported (snd kv) = true -> inCodeUnits (snd kv) = true) props ->
  supportedEntries keyOk supported props = true ->
  entriesInCodeUnits inCodeUnits props = true.
Proof.
  intros Hkey. induction 1 as [|[k v] rest Hv _ IH]; intro Hs; [reflexivity|].
  destruct (supportedEntries_cons _ _ _ _ Hs) as (Hk & Hsv & _ & _ & Hrest).
  cbn [entriesInCodeUnits snd] in *.
  rewrite (keyChars_codeUnits k (Hkey k v Hk)), (Hv Hsv), (IH Hrest). reflexivity.
Qed.

Lemma supported_inCodeUnits v : supported v = true -> inCodeUnits v = true.
Proof.
  induction v as [| | b | repr | s | props IH | elems props IHe IHp]
    using jsvalue_nested_ind; intro Hs; try reflexivity; try discriminate.
  - cbn [supported inCodeUnits] in *. unfold wellFormed in Hs.
    apply andb_true_iff in Hs. tauto.
  - cbn [supported inCodeUnits] in *. unfold wellFormed in Hs.
    apply andb_true_iff in Hs. tauto.
  - destruct (supported_object props Hs) as [_ He]. cbn [inCodeUnits].
    apply (supportedEntries_inCodeUnits nestedKey props); [|exact IH|exact He].
    intros k v Hk. apply (rootKey_keyChars k v), nestedKey_rootKey, Hk.
  - destruct (supported_array elems props Hs) as (_ & He & -> & _). cbn [inCodeUnits].
    rewrite andb_true_r. rewrite forallb_forall in *. intros x Hin.
    rewrite Forall_forall in IHe. exact (IHe x Hin (He x Hin)).
Qed.

Lemma supportedMapping_keys props :
  supportedEntries rootKey supported props = true ->
  entriesInCodeUnits inCodeUnits props = true
  /\ Forall (fun k => nonEmpty k = true) (map fst props).
Proof.
  intro Hs. split.
  - apply (supportedEntries_inCodeUnits rootKey props); [|  |exact Hs].
    + exact rootKey_keyChars.
    + apply Forall_forall. intros kv _. apply supported_inCodeUnits.
  - induction props as [|[k v] rest IH]; [constructor|].
    destruct (supportedEntries_cons _ _ _ _ Hs) as (Hk & _ & _ & _ & Hrest).
    cbn [map fst]. constructor; [|exact (IH Hrest)].
    destruct (keyChars_parts k (rootKey_keyChars k v Hk)) as (_ & _ & Hne). exact Hne.
Qed.

(** X20: with compression configured under a marker name of unreserved
    characters, and the package's converter and compressor, a supported
    mapping that stays in the regular form is read back from the URL
    [createUrl] builds, provided no key of the mapping is the name of the
    marker parameter: [parseQueryParams] returns the validated merge over
    the defaults of the mapping with every scalar as a string. *)
Theorem regular_url_round_trip_beside_marker :
  forall JSON_parse location_pathname this co props,
    queryConverter this = QueryStringConverter ->
    dataCompressor this = DataCompressor ->
    compressionOptions this = Some co ->
    forallb uriUnreserved (req_paramName co) = true ->
    supportedMapping (VObj props) = true ->
    Forall (fun k => k <> req_paramName co) (map fst props) ->
    staysPlain this (VObj props) ->
    exists search,
      createUrl location_pathname this (VObj props)
      = Ok (resolvedBasePath location_pathname this ++ search)
      /\ parseQueryParams JSON_parse this search
         = Ok (validated this
                 (spread (applyDefaultValues this (VObj [])) (normalize (VObj props)))).
Proof.
  intros JSON_parse location_pathname this co props Hqc Hdc Hco Hname Hm Hkeys Hplain.
  destruct (regular_url_read JSON_parse location_pathname this (VObj props)
              Hqc Hm Hplain)
    as (search & queryString & Henc & Hsearch & Hurl & Hread).
  exists search. split; [exact Hurl|]. apply Hread.
  unfold markerAbsent. rewrite Hco, Hdc. cbn [comp_hasCompressedData DataCompressor].
  subst search. destruct (nonEmpty queryString); [|reflexivity].
  cbn [supportedMapping] in Hm. destruct (supportedMapping_keys props Hm) as [Ht Hne].
  apply (regular_query_absent props (req_paramName co) queryString []);
    try assumption; [|constructor].
  rewrite Forall_forall in *. intros k Hin. split; [exact (Hne k Hin) | exact (Hkeys k Hin)].
Qed.

Lemma regular_url_round_trip_beside_marker_witness :
  let this := compressingCore acceptAll None in
  let params := VObj [(lit "page", VNum (lit "2"));
                      (lit "tags", VArr [VStr (lit "a"); VStr (lit "b c")] [])] in
  exists search,
    createUrl None this params = Ok (resolvedBasePath None this ++ search)
    /\ parseQueryParams JSON_parse_examples this search
       = Ok (validated this
               (spread (applyDefaultValues this (VObj [])) (normalize params))).
Proof.
  refine (regular_url_round_trip_beside_marker JSON_parse_examples None
            (compressingCore acceptAll None) _
            [(lit "page", VNum (lit "2"));
             (lit "tags", VArr [VStr (lit "a"); VStr (lit "b c")] [])]
            eq_refl eq_refl eq_refl eq_refl eq_refl _ _).
  - repeat constructor; discriminate.
  - cbv. discriminate.
Defined.

(** ** Encoding again what was decoded *)

Lemma entriesParts_normalized keyOk props :
  Forall (fun kv => encodesAsNormalized (snd kv)) props ->
  supportedEntries keyOk supported props = true ->
  forall prefix,
    entriesParts (normalizeEntries normalize props) prefix = entriesParts props prefix.
Proof.
  unfold entriesParts.
  induction 1 as [|[k v] rest Hv _ IH]; intros Hs prefix; [reflexivity|].
  destruct (supportedEntries_cons _ _ _ _ Hs) as (_ & Hsv & _ & _ & Hrest).
  cbn [normalizeEntries entriesPartsWith]. cbn [snd] in Hv.
  destruct (Hv Hsv) as [Hentry _]. rewrite Hentry, (IH Hrest). reflexivity.
Qed.

Lemma indexedParts_normalized elems :
  Forall encodesAsNormalized elems -> forallb supported elems = true ->
  forall prefix i,
    indexedParts (map normalize elems) prefix i = indexedParts elems prefix i.
Proof.
  unfold indexedParts.
  induction 1 as [|v rest Hv _ IH]; intros Hs prefix i; [reflexivity|].
  cbn [forallb] in Hs. apply andb_true_iff in Hs. destruct Hs as [Hsv Hrest].
  cbn [map indexedPartsWith].
  destruct (Hv Hsv) as [Hentry _]. rewrite Hentry, (IH Hrest). reflexivity.
Qed.

Lemma joined_parts_agree (A A' B B' : completion (list jsstring)) :
  (indexed <- A ;; named <- B ;; Ok (indexed ++ named))
  = (indexed <- A' ;; named <- B' ;; Ok (indexed ++ named)) ->
  (indexed <- A ;; named <- B ;; Ok [join [38] (indexed ++ named)])
  = (indexed <- A' ;; named <- B' ;; Ok [join [38] (indexed ++ named)]).
Proof.
  destruct A, A', B, B'; cbn [bind]; intro H; inversion H; reflexivity.
Qed.

Lemma itemsParts_normalized elems :
  Forall encodesAsNormalized elems -> forallb supported elems = true ->
  forall fullKey i,
    itemsParts (map normalize elems) fullKey i = itemsParts elems fullKey i.
Proof.
  unfold itemsParts.
  induction 1 as [|v rest Hv _ IH]; intros Hs fullKey i; [reflexivity|].
  cbn [forallb] in Hs. apply andb_true_iff in Hs. destruct Hs as [Hsv Hrest].
  cbn [map itemsPartsWith]. rewrite (IH Hrest).
  destruct (Hv Hsv) as [_ Hquery].
  destruct v as [| | b | repr | s | props | elems' props]; try discriminate;
    try reflexivity.
  - specialize (Hquery eq_refl (bracketed fullKey (decimal i))).
    cbn [normalize queryPartsOf] in *. unfold entriesParts in Hquery.
    rewrite Hquery. reflexivity.
  - specialize (Hquery eq_refl (bracketed fullKey (decimal i))).
    cbn [normalize queryPartsOf] in *. unfold indexedParts, entriesParts in Hquery.
    rewrite (joined_parts_agree _ _ _ _ Hquery). reflexivity.
Qed.

Lemma value_encodesAsNormalized v : encodesAsNormalized v.
Proof.
  induction v as [| | b | repr | s | props IH | elems props IHe IHp]
    using jsvalue_nested_ind; intro Hs; try discriminate.
  - split; [reflexivity | discriminate].
  - split; [reflexivity | discriminate].
  - split; [reflexivity | discriminate].
  - destruct (supported_object props Hs) as [_ He]. cbn [normalize]. split.
    + intro fullKey. cbn [entryParts]. fold (entriesParts props fullKey).
      fold (entriesParts (normalizeEntries normalize props) fullKey).
      rewrite (entriesParts_normalized nestedKey props IH He). reflexivity.
    + intros _ prefix. cbn [queryPartsOf].
      exact (entriesParts_normalized nestedKey props IH He prefix).
  - destruct (supported_array elems props Hs) as (_ & He & -> & _). cbn [normalize].
    split.
    + intro fullKey. cbn [entryParts normalizeEntries].
      exact (itemsParts_normalized elems IHe He fullKey 0).
    + intros _ prefix. cbn [queryPartsOf normalizeEntries].
      rewrite (indexedParts_normalized elems IHe He). reflexivity.
Qed.

(** X21: encoding again what was decoded changes nothing: for a supported
    mapping, the object [queryStringToObject] makes of the query string
    [objectToQueryString] returns is encoded to that same query string. *)
Theorem reencoding_gives_the_same_query_string :
  forall m,
    supportedMapping m = true ->
    exists queryString,
      objectToQueryString m [] = Ok queryString
      /\ (readBack <- queryStringToObject queryString ;;
          objectToQueryString readBack []) = Ok queryString.
Proof.
  intros m Hm. destruct (mapping_parts m Hm) as (parts & Hparts & H63 & Hdec).
  assert (Henc : objectToQueryString m [] = Ok (join [38] parts))
    by (unfold objectToQueryString; rewrite Hparts; reflexivity).
  exists (join [38] parts). split; [exact Henc|].
  rewrite (queryStringToObject_joined parts H63), Hdec. cbn [bind].
  rewrite <- Henc. destruct m as [| | | | |props|]; try discriminate.
  cbn [supportedMapping] in Hm. unfold objectToQueryString.
  cbn [normalize queryPartsOf].
  rewrite (entriesParts_normalized rootKey props); [reflexivity| |exact Hm].
  apply Forall_forall. intros kv _. apply value_encodesAsNormalized.
Qed.

Lemma reencoding_gives_the_same_query_string_witness :
  exists queryString,
    objectToQueryString exampleTree [] = Ok queryString
    /\ (readBack <- queryStringToObject queryString ;;
        objectToQueryString readBack []) = Ok queryString.
Proof.
  apply reencoding_gives_the_same_query_string. reflexivity.
Defined.
